(** * mm.c: an implicit-free-list allocator with boundary tags

    A shallow embedding of [mm.c] (first fit, boundary-tag coalescing,
    splitting) and the properties of its allocate / release / reallocate
    operations.

    Modelling conventions.
    - The arena handed out by [mem_sbrk] is a byte-addressed memory; a
      pointer into it is its byte offset from the start of the arena
      ([mem_heap] in memlib), so that offset 0 is a valid, non-null
      address.  [NULL] is a separate constructor of [ptr].
    - [GET] and [PUT] move one [unsigned int]: four bytes, little endian,
      the value reduced modulo 2^32 on the way in.
    - [size_t] arithmetic wraps modulo [size_t_mod] (2^32 with the lab's
      [-m32] build, 2^64 on an LP64 build); the development is parametric
      in it.  An [unsigned int] that becomes a [size_t] keeps its value
      ([size_t] is at least 32 bits wide); arithmetic between two
      [unsigned int] or an [unsigned int] and an [int] wraps modulo 2^32.
    - The global [heap_listp] and the break of memlib are fields of an
      explicit [state] that every function threads.
    - memlib.c is not among the sources: [mem_sbrk] follows the design
      document and takes the byte count as [extend_heap] computes it. *)

From Stdlib Require Import ZArith Lia List Bool Btauto.
Import ListNotations.
Local Open Scope Z_scope.

(** ** Byte memory and 32-bit words *)

Definition mem := Z -> Z.

Definition load8 (m : mem) (a : Z) : Z := m a mod 256.

Definition store8 (m : mem) (a v : Z) : mem :=
  fun x => if x =? a then v mod 256 else m x.

(** [GET(p)]: the [unsigned int] stored at [p]. *)
Definition GET (m : mem) (p : Z) : Z :=
  load8 m p + 256 * load8 m (p + 1) + 65536 * load8 m (p + 2)
  + 16777216 * load8 m (p + 3).

(** [PUT(p, val)]: store [val] as an [unsigned int] at [p]. *)
Definition PUT (m : mem) (p v : Z) : mem :=
  store8 (store8 (store8 (store8 m p v) (p + 1) (v / 256))
                 (p + 2) (v / 65536))
         (p + 3) (v / 16777216).

(** [memcpy] of the C library: [n] bytes from [src] to [dst], lowest
    address first. *)
Fixpoint memcpy_loop (k : nat) (m : mem) (dst src : Z) : mem :=
  match k with
  | O => m
  | S k' => memcpy_loop k' (store8 m dst (load8 m src)) (dst + 1) (src + 1)
  end.

Definition memcpy (m : mem) (dst src n : Z) : mem :=
  memcpy_loop (Z.to_nat n) m dst src.

(** ** Constants and macros of mm.c *)

Definition WSIZE : Z := 4.
Definition DSIZE : Z := 8.
Definition CHUNKSIZE : Z := Z.shiftl 1 12.

Definition MAX (x y : Z) : Z := if x >? y then x else y.

Definition PACK (size alloc : Z) : Z := Z.lor size alloc.

Definition GET_SIZE (m : mem) (p : Z) : Z := Z.land (GET m p) (Z.lnot 7).
Definition GET_ALLOC (m : mem) (p : Z) : Z := Z.land (GET m p) 1.

Definition HDRP (bp : Z) : Z := bp - WSIZE.
Definition FTRP (m : mem) (bp : Z) : Z := bp + GET_SIZE m (HDRP bp) - DSIZE.
Definition NEXT_BLKP (m : mem) (bp : Z) : Z := bp + GET_SIZE m (bp - WSIZE).
Definition PREV_BLKP (m : mem) (bp : Z) : Z := bp - GET_SIZE m (bp - DSIZE).

(** ** Allocator state *)

Inductive ptr : Type :=
| NULL
| At (a : Z).

(** [heap_mem], [mem_brk] and [mem_max_addr] belong to memlib;
    [heap_listp] is the allocator's only global. *)
Record state : Type := mkState {
  heap_mem : mem;
  mem_brk : Z;
  mem_max_addr : Z;
  heap_listp : Z
}.

Definition set_mem (s : state) (m : mem) : state :=
  mkState m (mem_brk s) (mem_max_addr s) (heap_listp s).

Definition set_heap_listp (s : state) (p : Z) : state :=
  mkState (heap_mem s) (mem_brk s) (mem_max_addr s) p.

(** Modelled from the spec: [mem_sbrk] of memlib.c, which is not part of
    the sources.  "Grow the heap by N bytes, returning a pointer to the
    start of the new region, or a failure sentinel", over "a monotonic,
    non-shrinking virtual region with an implementation-defined maximum
    size"; a failed request changes nothing.  [None] stands for the
    failure sentinel, the pointer value -1. *)
Definition mem_sbrk (s : state) (incr : Z) : state * option Z :=
  if mem_brk s + incr <=? mem_max_addr s
  then (mkState (heap_mem s) (mem_brk s + incr) (mem_max_addr s) (heap_listp s),
        Some (mem_brk s))
  else (s, None).

Section Allocator.

(** Modulus of [size_t] arithmetic. *)
Variable size_t_mod : Z.

Definition wrap (x : Z) : Z := x mod size_t_mod.

(** [unsigned int] arithmetic: the sum of two [GET_SIZE] results in
    [coalesce], [GET_SIZE - DSIZE] in [mm_realloc]. *)
Definition wrap32 (x : Z) : Z := x mod 4294967296.

Definition ALIGNMENT : Z := 8.

(** [ALIGN(size)] for a [size] of type [size_t]: the sum wraps as
    [size_t] does, and the mask clears the three low bits. *)
Definition ALIGN (size : Z) : Z :=
  Z.land (wrap (size + (ALIGNMENT - 1))) (Z.lnot 7).

(** *** coalesce *)

Definition coalesce (s : state) (bp : Z) : state * Z :=
  let m := heap_mem s in
  let prev_alloc := GET_ALLOC m (FTRP m (PREV_BLKP m bp)) in
  let next_alloc := GET_ALLOC m (HDRP (NEXT_BLKP m bp)) in
  let size := GET_SIZE m (HDRP bp) in
  if negb (prev_alloc =? 0) && negb (next_alloc =? 0) then
    (s, bp)
  else if negb (prev_alloc =? 0) && (next_alloc =? 0) then
    let size := wrap (size + GET_SIZE m (HDRP (NEXT_BLKP m bp))) in
    let m1 := PUT m (HDRP bp) (PACK size 0) in
    let m2 := PUT m1 (FTRP m1 bp) (PACK size 0) in
    (set_mem s m2, bp)
  else if (prev_alloc =? 0) && negb (next_alloc =? 0) then
    let size := wrap (size + GET_SIZE m (HDRP (PREV_BLKP m bp))) in
    let m1 := PUT m (FTRP m bp) (PACK size 0) in
    let m2 := PUT m1 (HDRP (PREV_BLKP m1 bp)) (PACK size 0) in
    (set_mem s m2, PREV_BLKP m2 bp)
  else
    let size :=
      wrap (size + wrap32 (GET_SIZE m (HDRP (PREV_BLKP m bp))
                           + GET_SIZE m (FTRP m (NEXT_BLKP m bp)))) in
    let m1 := PUT m (HDRP (PREV_BLKP m bp)) (PACK size 0) in
    let m2 := PUT m1 (FTRP m1 (NEXT_BLKP m1 bp)) (PACK size 0) in
    (set_mem s m2, PREV_BLKP m2 bp).

(** *** extend_heap *)

(** The local [size] of [extend_heap]: the byte count for an even number
    of words. *)
Definition extend_size (words : Z) : Z :=
  if negb (words mod 2 =? 0) then wrap (wrap (words + 1) * WSIZE)
  else wrap (words * WSIZE).

Definition extend_heap (s : state) (words : Z) : state * ptr :=
  let size := extend_size words in
  match mem_sbrk s size with
  | (s1, None) => (s1, NULL)
  | (s1, Some bp) =>
      let m1 := PUT (heap_mem s1) (HDRP bp) (PACK size 0) in
      let m2 := PUT m1 (FTRP m1 bp) (PACK size 0) in
      let m3 := PUT m2 (HDRP (NEXT_BLKP m2 bp)) (PACK 0 1) in
      let (s2, r) := coalesce (set_mem s1 m3) bp in
      (s2, At r)
  end.

(** *** mm_init: returns the status (0 or -1) with the new state. *)

Definition mm_init (s : state) : state * Z :=
  match mem_sbrk s (4 * WSIZE) with
  | (s1, None) => (set_heap_listp s1 (-1), -1)
  | (s1, Some p) =>
      let m1 := PUT (heap_mem s1) p 0 in
      let m2 := PUT m1 (p + 1 * WSIZE) (PACK DSIZE 1) in
      let m3 := PUT m2 (p + 2 * WSIZE) (PACK DSIZE 1) in
      let m4 := PUT m3 (p + 3 * WSIZE) (PACK 0 1) in
      let s2 := mkState m4 (mem_brk s1) (mem_max_addr s1) (p + 2 * WSIZE) in
      match extend_heap s2 (CHUNKSIZE / WSIZE) with
      | (s3, NULL) => (s3, -1)
      | (s3, At _) => (s3, 0)
      end
  end.

(** *** find_fit

    The [for] loop, one iteration per unit of fuel.  Every iteration that
    continues moves [bp] up by a non-zero multiple of 8, so a scan still
    running after [mem_brk] tests has left the heap; that outcome is
    [None] (the C program reads outside the heap there). *)

Fixpoint find_fit_loop (fuel : nat) (m : mem) (asize bp : Z) : option ptr :=
  match fuel with
  | O => None
  | S k =>
      if GET_SIZE m (HDRP bp) >? 0 then
        if (GET_ALLOC m (HDRP bp) =? 0) && (asize <=? GET_SIZE m (HDRP bp))
        then Some (At bp)
        else find_fit_loop k m asize (NEXT_BLKP m bp)
      else Some NULL
  end.

Definition find_fit (s : state) (asize : Z) : option ptr :=
  find_fit_loop (Z.to_nat (mem_brk s)) (heap_mem s) asize (heap_listp s).

(** *** place *)

Definition place (s : state) (bp asize : Z) : state :=
  let m := heap_mem s in
  let csize := GET_SIZE m (HDRP bp) in
  if wrap (csize - asize) >=? 2 * DSIZE then
    let m1 := PUT m (HDRP bp) (PACK asize 1) in
    let m2 := PUT m1 (FTRP m1 bp) (PACK asize 1) in
    let bp' := NEXT_BLKP m2 bp in
    let m3 := PUT m2 (HDRP bp') (PACK (wrap (csize - asize)) 0) in
    let m4 := PUT m3 (FTRP m3 bp') (PACK (wrap (csize - asize)) 0) in
    set_mem s m4
  else
    let m1 := PUT m (HDRP bp) (PACK csize 1) in
    let m2 := PUT m1 (FTRP m1 bp) (PACK csize 1) in
    set_mem s m2.

(** *** mm_malloc *)

(** The adjusted block size computed at the head of [mm_malloc]. *)
Definition adjust (size : Z) : Z :=
  if size <=? DSIZE then 2 * DSIZE
  else wrap (DSIZE * (wrap (wrap (size + DSIZE) + (DSIZE - 1)) / DSIZE)).

Definition mm_malloc (s : state) (size : Z) : option (state * ptr) :=
  if size =? 0 then Some (s, NULL)
  else
    let asize := adjust size in
    match find_fit s asize with
    | None => None
    | Some (At bp) => Some (place s bp asize, At bp)
    | Some NULL =>
        let extendsize := MAX asize CHUNKSIZE in
        match extend_heap s (extendsize / WSIZE) with
        | (s1, NULL) => Some (s1, NULL)
        | (s1, At bp) => Some (place s1 bp asize, At bp)
        end
    end.

(** *** mm_free *)

Definition mm_free (s : state) (p : Z) : state :=
  let m := heap_mem s in
  let size := GET_SIZE m (HDRP p) in
  let m1 := PUT m (HDRP p) (PACK size 0) in
  let m2 := PUT m1 (FTRP m1 p) (PACK size 0) in
  fst (coalesce (set_mem s m2) p).

(** *** mm_realloc *)

Definition mm_realloc (s : state) (p : ptr) (size : Z) : option (state * ptr) :=
  match p with
  | NULL => mm_malloc s size
  | At oldptr =>
      if size =? 0 then Some (mm_free s oldptr, NULL)
      else
        match mm_malloc s size with
        | None => None
        | Some (s1, NULL) => Some (s1, NULL)
        | Some (s1, At newptr) =>
            let copySize :=
              wrap (wrap32 (GET_SIZE (heap_mem s1) (HDRP oldptr) - DSIZE)) in
            let copySize := if size <? copySize then size else copySize in
            let s2 := set_mem s1 (memcpy (heap_mem s1) newptr oldptr copySize) in
            Some (mm_free s2 oldptr, At newptr)
        end
  end.

End Allocator.

(** * Vocabulary of the specification *)

(** A block as its two boundary tags describe it: total size and
    allocation bit. *)
Definition block : Type := Z * bool.

Definition tag (b : block) : Z := fst b + (if snd b then 1 else 0).

(** Header and footer of the block whose payload starts at [bp] both
    hold the tag of [b]. *)
Definition block_at (m : mem) (bp : Z) (b : block) : Prop :=
  GET m (HDRP bp) = tag b /\ GET m (bp + fst b - DSIZE) = tag b.

(** The blocks [bs] lie one after the other, the first with its payload
    at [bp]. *)
Fixpoint seg (m : mem) (bp : Z) (bs : list block) : Prop :=
  match bs with
  | [] => True
  | b :: r => block_at m bp b /\ seg m (bp + fst b) r
  end.

Fixpoint total (bs : list block) : Z :=
  match bs with
  | [] => 0
  | b :: r => fst b + total r
  end.

Definition size_ok (b : block) : Prop := fst b mod 8 = 0 /\ 16 <= fst b.

Fixpoint no_adj_free (bs : list block) : bool :=
  match bs with
  | [] => true
  | b :: r =>
      match r with
      | [] => true
      | b' :: _ => (snd b || snd b') && no_adj_free r
      end
  end.

(** The structural invariants of the heap (section 3 of the design, items
    1, 3 and 4): prologue, then the blocks [bs] with agreeing tags and
    sizes that are multiples of 8 and at least 16, then the epilogue
    header as the last word below the break. *)
Record heap_wf (s : state) (bs : list block) : Prop := mk_heap_wf {
  wf_base : 8 <= heap_listp s /\ heap_listp s mod 8 = 0;
  wf_seg : seg (heap_mem s) (heap_listp s) ((8, true) :: bs);
  wf_sizes : Forall size_ok bs;
  wf_epilogue : GET (heap_mem s) (HDRP (heap_listp s + 8 + total bs)) = 1;
  wf_brk : mem_brk s = heap_listp s + 8 + total bs;
  wf_max : mem_brk s <= mem_max_addr s < 4294967296
}.

(** All four invariants: structure, and no two adjacent free blocks. *)
Definition heap_ok (s : state) (bs : list block) : Prop :=
  heap_wf s bs /\ no_adj_free bs = true.

(** The implicit list as the code traverses it: from [heap_listp], block
    after block, until a header of size 0. *)
Fixpoint walk (fuel : nat) (m : mem) (bp : Z) : list block :=
  match fuel with
  | O => []
  | S k =>
      if GET_SIZE m (HDRP bp) >? 0 then
        (GET_SIZE m (HDRP bp), negb (GET_ALLOC m (HDRP bp) =? 0))
          :: walk k m (NEXT_BLKP m bp)
      else []
  end.

Definition heap_blocks (s : state) : list block :=
  walk (Z.to_nat (mem_brk s)) (heap_mem s) (heap_listp s).

(** [m'] agrees with [m] on every byte outside [lo, hi). *)
Definition same_outside (m m' : mem) (lo hi : Z) : Prop :=
  forall a, a < lo \/ hi <= a -> load8 m' a = load8 m a.

(** What [coalesce] finds around the free block at [bp]: its own tags, the
    tags of the block that ends just below it, and the header of what
    starts just above it (a block with its footer, or the epilogue). *)
Record around (m : mem) (bp sz psz : Z) (pa : bool) (nsz : Z) (na : bool) : Prop :=
  mk_around {
    ar_own : block_at m bp (sz, false);
    ar_sz : sz mod 8 = 0 /\ 8 <= sz;
    ar_prev : block_at m (bp - psz) (psz, pa);
    ar_psz : psz mod 8 = 0 /\ 8 <= psz;
    ar_next : GET m (HDRP (bp + sz)) = tag (nsz, na);
    ar_nsz : nsz mod 8 = 0 /\ 0 <= nsz;
    ar_next_free : na = false ->
                   8 <= nsz /\ GET m (bp + sz + nsz - DSIZE) = tag (nsz, na);
    ar_bound : psz + sz + nsz < 4294967296
  }.

Definition merged_start (bp psz : Z) (pa : bool) : Z :=
  if pa then bp else bp - psz.

Definition merged_size (sz psz : Z) (pa : bool) (nsz : Z) (na : bool) : Z :=
  (if pa then 0 else psz) + sz + (if na then 0 else nsz).

(** The first-fit rule on the list of blocks: the first block that is
    free and large enough, or no block. *)
Fixpoint first_fit (bp : Z) (bs : list block) (asize : Z) : ptr :=
  match bs with
  | [] => NULL
  | b :: r =>
      if negb (snd b) && (asize <=? fst b) then At bp
      else first_fit (bp + fst b) r asize
  end.

Definition no_fit (asize : Z) (b : block) : Prop :=
  snd b = true \/ fst b < asize.

(** The block before a position of the list (the prologue when the
    position is the first) and the block after it (the epilogue when it
    is the last). *)
Definition prev_of (l1 : list block) : block := last l1 (8, true).
Definition next_of (l2 : list block) : block := hd (0, true) l2.

(** The list of blocks after coalescing the free block of size [sz] that
    sits between [l1] and [l2]. *)
Definition coalesce_list (l1 : list block) (sz : Z) (l2 : list block) : list block :=
  (if snd (prev_of l1) then l1 else removelast l1)
  ++ (merged_size sz (fst (prev_of l1)) (snd (prev_of l1))
        (fst (next_of l2)) (snd (next_of l2)), false)
  :: (if snd (next_of l2) then l2 else tl l2).

(** Payload address and size of every allocated block of a list whose
    first payload is at [bp]. *)
Fixpoint allocs (bp : Z) (bs : list block) : list (Z * Z) :=
  match bs with
  | [] => []
  | b :: r => (if snd b then [(bp, fst b)] else []) ++ allocs (bp + fst b) r
  end.

Definition placed (csize asize : Z) : list block :=
  if 16 <=? csize - asize
  then [(asize, true); (csize - asize, false)]
  else [(csize, true)].

(** Size of the block that [place] marks allocated. *)
Definition placed_size (csize asize : Z) : Z :=
  if 16 <=? csize - asize then asize else csize.

(** What a successful [mm_malloc] guarantees about the new state [s'],
    the returned payload address [q] and the size [sz] of its block. *)
Record malloc_post (size_t_mod : Z) (s : state) (bs : list block) (n : Z)
       (s' : state) (q : Z) (bs' : list block) (sz : Z) : Prop := mk_malloc_post {
  mp_ok : heap_ok s' bs';
  mp_allocs : forall x, In x (allocs (heap_listp s + 8) bs') <->
                        x = (q, sz) \/ In x (allocs (heap_listp s + 8) bs);
  mp_fresh : forall psz, ~ In (q, psz) (allocs (heap_listp s + 8) bs);
  mp_size : adjust size_t_mod n <= sz < adjust size_t_mod n + 16;
  mp_frame : forall p psz, In (p, psz) (allocs (heap_listp s + 8) bs) ->
             forall a, p - 4 <= a < p + psz - 4 ->
                       load8 (heap_mem s') a = load8 (heap_mem s) a;
  mp_listp : heap_listp s' = heap_listp s;
  mp_max : mem_max_addr s' = mem_max_addr s;
  mp_brk : mem_brk s <= mem_brk s'
}.

Definition aligned (s : state) : Prop :=
  heap_listp s mod 8 = 0 /\ mem_brk s mod 8 = 0.

(** [size_t] of the lab's 32-bit build. *)
Definition M32 : Z := 4294967296.

(** [size_t] of an LP64 build. *)
Definition M64 : Z := 18446744073709551616.

(** A fresh arena of 20 MiB, every byte zero, break at its start. *)
Definition arena0 : state := mkState (fun _ => 0) 0 20971520 0.

(** The heap right after a successful [mm_init]:
    prologue, one free block of 4096 bytes, epilogue. *)
Definition heap_init : state := fst (mm_init M32 arena0).

(** [p1 = mm_malloc(16); p2 = mm_malloc(16); mm_free(p1)] on [heap_init],
    then the tags of [p2]'s block cleared by hand: three free blocks in
    a row, as [coalesce] meets them in the middle of [mm_free(p2)]. *)
Definition heap_three_free : state :=
  let s1 := fst (mm_init M32 arena0) in
  match mm_malloc M32 s1 16 with
  | Some (s2, At p1) =>
      match mm_malloc M32 s2 16 with
      | Some (s3, At p2) =>
          let s4 := mm_free M32 s3 p1 in
          set_mem s4 (PUT (PUT (heap_mem s4) (HDRP p2) 24) (p2 + 24 - DSIZE) 24)
      | _ => s2
      end
  | _ => s1
  end.

(** Scenario D of the design: [mm_init(); p1 = mm_malloc(16);
    p2 = mm_malloc(16); mm_free(p1); mm_free(p2)], from the arena [s0].
    The result: [p1], [p2], the state after the two allocations and the
    final state. *)
Definition scenario_D (s0 : state) : option (Z * Z * state * state) :=
  match mm_malloc M32 (fst (mm_init M32 s0)) 16 with
  | Some (s2, At p1) =>
      match mm_malloc M32 s2 16 with
      | Some (s3, At p2) =>
          Some (p1, p2, s3, mm_free M32 (mm_free M32 s3 p1) p2)
      | _ => None
      end
  | _ => None
  end.

(** What scenario D leaves to look at: the two pointers, the sizes in
    the headers of their blocks while both are allocated, the list of
    blocks at the end and the break at the end. *)
Definition scenario_D_view (s0 : state) : option (Z * Z * Z * Z * list block * Z) :=
  match scenario_D s0 with
  | Some (p1, p2, s3, s5) =>
      Some (p1, p2, GET_SIZE (heap_mem s3) (HDRP p1),
            GET_SIZE (heap_mem s3) (HDRP p2), heap_blocks s5, mem_brk s5)
  | None => None
  end.

(** [p1 = mm_malloc(16); p2 = mm_malloc(1); mm_free(p1)] on [heap_init]:
    a free block of 24 bytes in front of an allocated one. *)
Definition heap_hole24 : state :=
  match mm_malloc M32 heap_init 16 with
  | Some (s2, At p1) =>
      match mm_malloc M32 s2 1 with
      | Some (s3, _) => mm_free M32 s3 p1
      | None => s2
      end
  | _ => heap_init
  end.

(** [p = mm_malloc(8); q = mm_malloc(40)] on [heap_init]; the caller
    stores the word 16 in the second word of [p]'s payload and in the
    sixth word of [q]'s payload; then [mm_free(q)].  The heap is
    consistent, [p] is a live allocation of 8 payload bytes. *)
Definition heap_crafted : state :=
  match mm_malloc M32 heap_init 8 with
  | Some (s2, At p) =>
      match mm_malloc M32 s2 40 with
      | Some (s3, At q) =>
          let m := PUT (PUT (heap_mem s3) (p + 4) 16) (q + 20) 16 in
          mm_free M32 (set_mem s3 m) q
      | _ => s2
      end
  | _ => heap_init
  end.

(** An arena too small for the first chunk: 100 bytes. *)
Definition arena_small : state := mkState (fun _ => 0) 0 100 0.

(** An arena with room for the prologue, one chunk and the epilogue,
    and nothing more; [heap_full] is its heap after [mm_init] and
    [mm_malloc(4088)], which takes the whole chunk. *)
Definition arena_one_chunk : state := mkState (fun _ => 0) 0 4112 0.

Definition heap_full : state :=
  match mm_malloc M32 (fst (mm_init M32 arena_one_chunk)) 4088 with
  | Some (s, _) => s
  | None => arena_one_chunk
  end.

(** One call of the public interface on a heap with blocks [bs], with
    the preconditions of the design: [mm_free] and [mm_realloc] get a
    pointer that is currently allocated (or [NULL] for [mm_realloc]),
    and the adjusted size of a request does not wrap [size_t]. *)
Inductive public_call (size_t_mod : Z) (s : state) (bs : list block) : state -> Prop :=
| call_malloc (n : Z) (s' : state) (r : ptr) :
    0 <= n -> n + 15 < size_t_mod ->
    mm_malloc size_t_mod s n = Some (s', r) ->
    public_call size_t_mod s bs s'
| call_free (p psz : Z) :
    In (p, psz) (allocs (heap_listp s + 8) bs) ->
    public_call size_t_mod s bs (mm_free size_t_mod s p)
| call_realloc (p : ptr) (n : Z) (s' : state) (r : ptr) :
    (p = NULL \/ exists a psz, p = At a /\ In (a, psz) (allocs (heap_listp s + 8) bs)) ->
    0 <= n -> n + 15 < size_t_mod ->
    mm_realloc size_t_mod s p n = Some (s', r) ->
    public_call size_t_mod s bs s'.

Ltac heap_wf_by_computation :=
  constructor;
  [ split; [vm_compute; discriminate | reflexivity]
  | cbn [seg]; unfold block_at; repeat split; vm_compute; reflexivity
  | repeat constructor; cbn [fst]; try reflexivity; try lia
  | vm_compute; reflexivity
  | vm_compute; reflexivity
  | split; vm_compute; [discriminate | reflexivity] ].

(** The states a program can drive the allocator into: [mm_init] on an
    arena whose break is 8-byte aligned (memlib hands out the arena
    from its first byte), then any calls of [mm_malloc], [mm_free] and
    [mm_realloc] with any arguments, and any writes to memory in
    between. *)
Inductive reachable (size_t_mod : Z) : state -> Prop :=
| reach_init (s : state) :
    mem_brk s mod 8 = 0 -> snd (mm_init size_t_mod s) = 0 ->
    reachable size_t_mod (fst (mm_init size_t_mod s))
| reach_malloc (s s' : state) (n : Z) (r : ptr) :
    reachable size_t_mod s -> mm_malloc size_t_mod s n = Some (s', r) ->
    reachable size_t_mod s'
| reach_free (s : state) (p : Z) :
    reachable size_t_mod s -> reachable size_t_mod (mm_free size_t_mod s p)
| reach_realloc (s s' : state) (p : ptr) (n : Z) (r : ptr) :
    reachable size_t_mod s -> mm_realloc size_t_mod s p n = Some (s', r) ->
    reachable size_t_mod s'
| reach_store (s : state) (m' : mem) :
    reachable size_t_mod s -> reachable size_t_mod (set_mem s m').

(** The states a program that keeps to the interface drives the
    allocator into: a successful [mm_init] on an arena whose break is
    8-byte aligned, then calls that respect the preconditions (see
    [public_call]) and stores into the payload of blocks that are
    allocated at the time.  The blocks are those the code walks from
    [heap_listp], the prologue left out. *)
Inductive well_used (size_t_mod : Z) : state -> Prop :=
| used_init (s : state) :
    0 <= mem_brk s -> mem_brk s mod 8 = 0 ->
    mem_brk s + 16 + 4096 <= mem_max_addr s < 4294967296 ->
    well_used size_t_mod (fst (mm_init size_t_mod s))
| used_call (s s' : state) :
    well_used size_t_mod s ->
    public_call size_t_mod s (tl (heap_blocks s)) s' ->
    well_used size_t_mod s'
| used_store (s : state) (p psz : Z) (m' : mem) :
    well_used size_t_mod s ->
    In (p, psz) (allocs (heap_listp s + 8) (tl (heap_blocks s))) ->
    same_outside (heap_mem s) m' p (p + psz - 8) ->
    well_used size_t_mod (set_mem s m').

(** The list of blocks [mm_malloc] carves its block from: the heap's
    own when some free block fits, else the heap's with the extension
    merged into its tail. *)
Definition malloc_source (size_t_mod : Z) (s : state) (bs : list block) (n : Z)
  : list block :=
  let asize := adjust size_t_mod n in
  match first_fit (heap_listp s + 8) bs asize with
  | At _ => bs
  | NULL => coalesce_list bs (MAX asize CHUNKSIZE) []
  end.

(** * Lemmas *)

(** ** Words, tags, segments and frames *)

Lemma load8_range (m : mem) (a : Z) : 0 <= load8 m a < 256.
Proof. unfold load8. apply Z.mod_pos_bound. lia. Qed.

Lemma GET_range (m : mem) (p : Z) : 0 <= GET m p < 4294967296.
Proof.
  unfold GET.
  pose proof (load8_range m p). pose proof (load8_range m (p + 1)).
  pose proof (load8_range m (p + 2)). pose proof (load8_range m (p + 3)).
  lia.
Qed.

Lemma load8_store8_same (m : mem) (a v : Z) : load8 (store8 m a v) a = v mod 256.
Proof.
  unfold load8, store8. rewrite Z.eqb_refl. apply Z.mod_mod. lia.
Qed.

Lemma load8_store8_other (m : mem) (a b v : Z) :
  a <> b -> load8 (store8 m a v) b = load8 m b.
Proof.
  intros H. unfold load8, store8.
  destruct (Z.eqb_spec b a); [congruence | reflexivity].
Qed.

Lemma bytes_of_word (v : Z) :
  v mod 256 + 256 * ((v / 256) mod 256) + 65536 * ((v / 65536) mod 256)
  + 16777216 * ((v / 16777216) mod 256) = v mod 4294967296.
Proof.
  Z.to_euclidean_division_equations. lia.
Qed.

Lemma GET_PUT_same (m : mem) (p v : Z) : GET (PUT m p v) p = v mod 4294967296.
Proof.
  unfold GET, PUT.
  rewrite (load8_store8_other _ (p + 3) p) by lia.
  rewrite (load8_store8_other _ (p + 2) p) by lia.
  rewrite (load8_store8_other _ (p + 1) p) by lia.
  rewrite load8_store8_same.
  rewrite (load8_store8_other _ (p + 3) (p + 1)) by lia.
  rewrite (load8_store8_other _ (p + 2) (p + 1)) by lia.
  rewrite load8_store8_same.
  rewrite (load8_store8_other _ (p + 3) (p + 2)) by lia.
  rewrite !load8_store8_same.
  apply bytes_of_word.
Qed.

Lemma GET_PUT_other (m : mem) (p q v : Z) :
  q + 4 <= p \/ p + 4 <= q -> GET (PUT m p v) q = GET m q.
Proof.
  intros H. unfold GET, PUT.
  rewrite !load8_store8_other by lia. reflexivity.
Qed.

Lemma land_lnot7 (x : Z) : Z.land x (Z.lnot 7) = 8 * (x / 8).
Proof.
  change (Z.land x (Z.lnot 7)) with (Z.ldiff x (Z.ones 3)).
  rewrite Z.ldiff_ones_r by lia.
  rewrite Z.shiftl_mul_pow2, Z.shiftr_div_pow2 by lia.
  change (2 ^ 3) with 8. lia.
Qed.

Lemma land_1 (x : Z) : Z.land x 1 = x mod 2.
Proof.
  change 1 with (Z.ones 1) at 1. rewrite Z.land_ones by lia. reflexivity.
Qed.

Lemma PACK_add (size alloc : Z) :
  size mod 8 = 0 -> 0 <= alloc < 8 -> PACK size alloc = size + alloc.
Proof.
  intros Hs Ha. unfold PACK.
  assert (Hl : Z.land size alloc = 0).
  { apply Z.bits_inj'. intros n Hn. rewrite Z.land_spec, Z.bits_0.
    destruct (Z.ltb_spec n 3).
    - replace size with (8 * (size / 8)) by (Z.to_euclidean_division_equations; lia).
      change 8 with (2 ^ 3) at 1. rewrite Z.mul_comm, Z.mul_pow2_bits_low by lia.
      reflexivity.
    - assert (Hlog : Z.log2 alloc < 3).
      { destruct (Z.eq_dec alloc 0) as [-> | Hne]; [simpl; lia |].
        apply Z.log2_lt_pow2; simpl; lia. }
      rewrite (Z.bits_above_log2 alloc n) by lia.
      apply andb_false_r. }
  rewrite <- Z.lxor_lor by exact Hl.
  symmetry. apply Z.add_nocarry_lxor. exact Hl.
Qed.

Lemma tag_range (b : block) : 0 <= fst b -> fst b <= tag b <= fst b + 1.
Proof. unfold tag. destruct (snd b); lia. Qed.

Lemma GET_SIZE_tag (m : mem) (p : Z) (b : block) :
  GET m p = tag b -> fst b mod 8 = 0 -> GET_SIZE m p = fst b.
Proof.
  intros H H8. unfold GET_SIZE. rewrite land_lnot7, H. unfold tag.
  destruct (snd b); Z.to_euclidean_division_equations; lia.
Qed.

Lemma GET_ALLOC_tag (m : mem) (p : Z) (b : block) :
  GET m p = tag b -> fst b mod 8 = 0 ->
  GET_ALLOC m p = if snd b then 1 else 0.
Proof.
  intros H H8. unfold GET_ALLOC. rewrite land_1, H. unfold tag.
  destruct (snd b); Z.to_euclidean_division_equations; lia.
Qed.

Lemma PACK_tag (sz : Z) (al : bool) :
  sz mod 8 = 0 -> PACK sz (if al then 1 else 0) = tag (sz, al).
Proof.
  intros H. rewrite PACK_add by (destruct al; lia). reflexivity.
Qed.

Lemma GET_SIZE_range (m : mem) (p : Z) :
  0 <= GET_SIZE m p < 4294967296 /\ GET_SIZE m p mod 8 = 0.
Proof.
  unfold GET_SIZE. rewrite land_lnot7. pose proof (GET_range m p).
  Z.to_euclidean_division_equations. lia.
Qed.

Lemma GET_ALLOC_range (m : mem) (p : Z) : GET_ALLOC m p = 0 \/ GET_ALLOC m p = 1.
Proof.
  unfold GET_ALLOC. rewrite land_1.
  Z.to_euclidean_division_equations. lia.
Qed.

Lemma total_app (l1 l2 : list block) : total (l1 ++ l2) = total l1 + total l2.
Proof. induction l1 as [| b r IH]; simpl; lia. Qed.

Lemma total_nonneg (bs : list block) :
  Forall (fun b => 8 <= fst b) bs -> 0 <= total bs.
Proof. induction 1; simpl; lia. Qed.

Lemma seg_app (m : mem) (l1 l2 : list block) (bp : Z) :
  seg m bp (l1 ++ l2) <-> seg m bp l1 /\ seg m (bp + total l1) l2.
Proof.
  revert bp. induction l1 as [| b r IH]; intros bp; simpl.
  - rewrite Z.add_0_r. tauto.
  - rewrite IH. replace (bp + fst b + total r) with (bp + (fst b + total r)) by lia.
    tauto.
Qed.

(** A word written outside the bytes of a segment leaves it in place. *)
Lemma seg_PUT_outside (m : mem) (bs : list block) (bp a v : Z) :
  Forall (fun b => 8 <= fst b) bs ->
  a + 4 <= bp - 4 \/ bp + total bs - 4 <= a ->
  seg m bp bs -> seg (PUT m a v) bp bs.
Proof.
  intros Hs. revert bp. induction Hs as [| b r Hb Hr IH]; intros bp Ha; simpl.
  - trivial.
  - simpl in Ha. pose proof (total_nonneg r Hr) as Ht.
    intros [[Hh Hf] Hseg]. split.
    + unfold block_at, HDRP, WSIZE, DSIZE in *.
      rewrite !GET_PUT_other by lia. auto.
    + apply IH; [lia | exact Hseg].
Qed.

Lemma load8_PUT_other (m : mem) (p v a : Z) :
  a < p \/ p + 4 <= a -> load8 (PUT m p v) a = load8 m a.
Proof.
  intros H. unfold PUT. rewrite !load8_store8_other by lia. reflexivity.
Qed.

Lemma GET_same_bytes (m m' : mem) (a : Z) :
  (forall i, a <= i < a + 4 -> load8 m' i = load8 m i) -> GET m' a = GET m a.
Proof.
  intros H. unfold GET. rewrite !H by lia. reflexivity.
Qed.

Lemma same_outside_GET (m m' : mem) (lo hi a : Z) :
  same_outside m m' lo hi -> a + 4 <= lo \/ hi <= a -> GET m' a = GET m a.
Proof.
  intros H Ha. apply GET_same_bytes. intros i Hi. apply H. lia.
Qed.

Lemma same_outside_refl (m : mem) (lo hi : Z) : same_outside m m lo hi.
Proof. intros a _. reflexivity. Qed.

Lemma same_outside_PUT (m m' : mem) (lo hi p v : Z) :
  same_outside m m' lo hi -> lo <= p -> p + 4 <= hi ->
  same_outside m (PUT m' p v) lo hi.
Proof.
  intros H Hlo Hhi a Ha. rewrite load8_PUT_other by lia. apply H. exact Ha.
Qed.

Lemma same_outside_weaken (m m' : mem) (lo hi lo' hi' : Z) :
  same_outside m m' lo hi -> lo' <= lo -> hi <= hi' ->
  same_outside m m' lo' hi'.
Proof. intros H Hlo Hhi a Ha. apply H. lia. Qed.

Lemma same_outside_trans (m1 m2 m3 : mem) (lo hi : Z) :
  same_outside m1 m2 lo hi -> same_outside m2 m3 lo hi ->
  same_outside m1 m3 lo hi.
Proof. intros H12 H23 a Ha. rewrite H23, H12 by exact Ha. reflexivity. Qed.

Lemma block_at_frame (m m' : mem) (lo hi bp : Z) (b : block) :
  same_outside m m' lo hi -> 8 <= fst b ->
  bp + fst b - 4 <= lo \/ hi <= bp - 4 ->
  block_at m bp b -> block_at m' bp b.
Proof.
  intros H Hb Hd [Hh Hf]. unfold block_at, HDRP, WSIZE, DSIZE in *.
  rewrite !(same_outside_GET m m' lo hi) by (assumption || lia). auto.
Qed.

Lemma seg_frame (m m' : mem) (lo hi : Z) (bs : list block) (bp : Z) :
  same_outside m m' lo hi ->
  Forall (fun b => 8 <= fst b) bs ->
  bp + total bs - 4 <= lo \/ hi <= bp - 4 ->
  seg m bp bs -> seg m' bp bs.
Proof.
  intros H Hs. revert bp. induction Hs as [| b r Hb Hr IH]; intros bp Hd; simpl.
  - trivial.
  - simpl in Hd. pose proof (total_nonneg r Hr) as Ht.
    intros [Hb' Hseg]. split.
    + apply (block_at_frame m m' lo hi); auto. lia.
    + apply IH; [lia | exact Hseg].
Qed.

(** Writing the two tags of a block. *)
Lemma GET_PUT_eq (m : mem) (p q v : Z) :
  p = q -> 0 <= v < 4294967296 -> GET (PUT m p v) q = v.
Proof.
  intros <- Hv. rewrite GET_PUT_same. apply Z.mod_small. exact Hv.
Qed.

Lemma GET_PUT_tag (m : mem) (p q sz sz' : Z) (al : bool) :
  p = q -> sz = sz' -> 0 <= sz -> sz + 1 < 4294967296 ->
  GET (PUT m p (tag (sz, al))) q = tag (sz', al).
Proof.
  intros Hp <- H0 H1. apply GET_PUT_eq; [exact Hp |].
  unfold tag; simpl. destruct al; lia.
Qed.

Lemma Forall_size_ok_8 (bs : list block) :
  Forall size_ok bs -> Forall (fun b => 8 <= fst b) bs.
Proof.
  apply Forall_impl. intros b [_ H]. lia.
Qed.

(** ** The operations on a well-formed heap *)

Section Properties.

Variable size_t_mod : Z.
Hypothesis size_t_wide : 4294967296 <= size_t_mod.

Lemma wrap_small (x : Z) : 0 <= x < 4294967296 -> wrap size_t_mod x = x.
Proof. intros H. unfold wrap. apply Z.mod_small. lia. Qed.

Lemma place_split (s : state) (bp csize asize : Z) :
  GET (heap_mem s) (HDRP bp) = csize ->
  csize mod 8 = 0 -> csize < 4294967296 ->
  asize mod 8 = 0 -> 8 <= asize -> 16 <= csize - asize ->
  let s' := place size_t_mod s bp asize in
  block_at (heap_mem s') bp (asize, true) /\
  block_at (heap_mem s') (bp + asize) (csize - asize, false) /\
  same_outside (heap_mem s) (heap_mem s') (bp - 4) (bp + csize - 4) /\
  mem_brk s' = mem_brk s /\ mem_max_addr s' = mem_max_addr s /\
  heap_listp s' = heap_listp s.
Proof.
  intros Hh Hc8 Hclt Ha8 Ha Hsplit. unfold place.
  assert (Hcs : GET_SIZE (heap_mem s) (HDRP bp) = csize).
  { apply (GET_SIZE_tag _ _ (csize, false)); simpl; auto. unfold tag; simpl; lia. }
  rewrite Hcs. rewrite wrap_small by lia.
  destruct (Z.geb_spec (csize - asize) (2 * DSIZE)) as [_ | Hn];
    [| unfold DSIZE in Hn; lia].
  set (m := heap_mem s) in *.
  rewrite (PACK_tag asize true) by assumption.
  rewrite (PACK_tag (csize - asize) false)
    by (Z.to_euclidean_division_equations; lia).
  set (m1 := PUT m (HDRP bp) (tag (asize, true))).
  assert (Hf1 : FTRP m1 bp = bp + asize - 8).
  { unfold FTRP, DSIZE. rewrite (GET_SIZE_tag _ _ (asize, true)); simpl; auto.
    unfold m1. apply GET_PUT_eq; unfold tag; simpl; lia. }
  rewrite Hf1.
  set (m2 := PUT m1 (bp + asize - 8) (tag (asize, true))).
  assert (Hn2 : NEXT_BLKP m2 bp = bp + asize).
  { unfold NEXT_BLKP, WSIZE. rewrite (GET_SIZE_tag _ _ (asize, true)); simpl; auto.
    unfold m2, m1, HDRP, WSIZE. rewrite GET_PUT_other by lia.
    apply GET_PUT_eq; unfold tag; simpl; lia. }
  rewrite Hn2.
  set (m3 := PUT m2 (HDRP (bp + asize)) (tag (csize - asize, false))).
  assert (Hf3 : FTRP m3 (bp + asize) = bp + csize - 8).
  { unfold FTRP, DSIZE.
    rewrite (GET_SIZE_tag _ _ (csize - asize, false)); simpl;
      [lia | | Z.to_euclidean_division_equations; lia].
    unfold m3. apply GET_PUT_eq; unfold tag; simpl; lia. }
  rewrite Hf3.
  unfold block_at, HDRP, WSIZE, DSIZE in *. simpl.
  repeat split; simpl.
  - unfold m3, m2, m1. rewrite !GET_PUT_other by lia.
    apply GET_PUT_eq; unfold tag; simpl; lia.
  - unfold m3, m2. rewrite !GET_PUT_other by lia.
    apply GET_PUT_eq; unfold tag; simpl; lia.
  - unfold m3. rewrite !GET_PUT_other by lia.
    apply GET_PUT_eq; unfold tag; simpl; lia.
  - replace (bp + asize + (csize - asize) - 8) with (bp + csize - 8) by lia.
    apply GET_PUT_eq; unfold tag; simpl; lia.
  - unfold m3, m2, m1.
    repeat (apply same_outside_PUT; [| lia | lia]). apply same_outside_refl.
Qed.

Lemma place_whole (s : state) (bp csize asize : Z) :
  GET (heap_mem s) (HDRP bp) = csize ->
  csize mod 8 = 0 -> csize < 4294967296 ->
  8 <= csize -> asize <= csize -> csize - asize < 16 ->
  let s' := place size_t_mod s bp asize in
  block_at (heap_mem s') bp (csize, true) /\
  same_outside (heap_mem s) (heap_mem s') (bp - 4) (bp + csize - 4) /\
  mem_brk s' = mem_brk s /\ mem_max_addr s' = mem_max_addr s /\
  heap_listp s' = heap_listp s.
Proof.
  intros Hh Hc8 Hclt Hc Ha Hno. unfold place.
  assert (Hcs : GET_SIZE (heap_mem s) (HDRP bp) = csize).
  { apply (GET_SIZE_tag _ _ (csize, false)); simpl; auto. unfold tag; simpl; lia. }
  rewrite Hcs. rewrite wrap_small by lia.
  destruct (Z.geb_spec (csize - asize) (2 * DSIZE)) as [Hge | _];
    [unfold DSIZE in Hge; lia |].
  set (m := heap_mem s) in *.
  rewrite (PACK_tag csize true) by assumption.
  set (m1 := PUT m (HDRP bp) (tag (csize, true))).
  assert (Hf1 : FTRP m1 bp = bp + csize - 8).
  { unfold FTRP, DSIZE. rewrite (GET_SIZE_tag _ _ (csize, true)); simpl; auto.
    unfold m1. apply GET_PUT_eq; unfold tag; simpl; Z.to_euclidean_division_equations; lia. }
  rewrite Hf1.
  unfold block_at, HDRP, WSIZE, DSIZE in *. simpl.
  repeat split; simpl.
  - unfold m1. rewrite !GET_PUT_other by lia.
    apply GET_PUT_eq; unfold tag; simpl; Z.to_euclidean_division_equations; lia.
  - apply GET_PUT_eq; unfold tag; simpl; Z.to_euclidean_division_equations; lia.
  - unfold m1.
    repeat (apply same_outside_PUT; [| lia | lia]). apply same_outside_refl.
Qed.

Lemma coalesce_spec (s : state) (bp sz psz : Z) (pa : bool) (nsz : Z) (na : bool) :
  around (heap_mem s) bp sz psz pa nsz na ->
  let r := merged_start bp psz pa in
  let n := merged_size sz psz pa nsz na in
  let s' := fst (coalesce size_t_mod s bp) in
  snd (coalesce size_t_mod s bp) = r /\
  block_at (heap_mem s') r (n, false) /\
  same_outside (heap_mem s) (heap_mem s') (r - 4) (r + n - 4) /\
  (pa = true -> na = true -> s' = s) /\
  mem_brk s' = mem_brk s /\ mem_max_addr s' = mem_max_addr s /\
  heap_listp s' = heap_listp s.
Proof.
  intros [[Hoh Hof] [Hs8 Hs] [Hph Hpf] [Hp8 Hp] Hnh [Hn8 Hn] Hnf Hb].
  set (m := heap_mem s) in *. simpl fst in *.
  unfold block_at, HDRP, WSIZE, DSIZE in *. simpl fst in *.
  replace (bp - psz + psz - 8) with (bp - 8) in Hpf by lia.
  assert (Hsz : GET_SIZE m (bp - 4) = sz)
    by (apply (GET_SIZE_tag _ _ (sz, false)); auto).
  assert (Hprev : PREV_BLKP m bp = bp - psz).
  { unfold PREV_BLKP, DSIZE. rewrite (GET_SIZE_tag _ _ (psz, pa)); auto. }
  assert (Hpsz : GET_SIZE m (bp - psz - 4) = psz)
    by (apply (GET_SIZE_tag _ _ (psz, pa)); auto).
  assert (Hpftr : FTRP m (bp - psz) = bp - 8).
  { unfold FTRP, HDRP, WSIZE, DSIZE. rewrite Hpsz. lia. }
  assert (Hnext : NEXT_BLKP m bp = bp + sz).
  { unfold NEXT_BLKP, WSIZE. rewrite Hsz. reflexivity. }
  assert (Hpa : GET_ALLOC m (bp - 8) = if pa then 1 else 0)
    by (apply (GET_ALLOC_tag _ _ (psz, pa)); auto).
  assert (Hna : GET_ALLOC m (bp + sz - 4) = if na then 1 else 0)
    by (apply (GET_ALLOC_tag _ _ (nsz, na)); auto).
  assert (Hnsz : GET_SIZE m (bp + sz - 4) = nsz)
    by (apply (GET_SIZE_tag _ _ (nsz, na)); auto).
  unfold coalesce. fold m.
  rewrite Hprev, Hpftr, Hnext. unfold HDRP, WSIZE. rewrite Hpa, Hna, Hsz, Hnsz, Hpsz.
  unfold merged_start, merged_size.
  destruct pa, na; simpl negb; simpl andb; cbv iota;
    rewrite ?Z.add_0_l, ?Z.add_0_r.
  - (* case 1 *)
    cbn [fst snd]. repeat split; auto.
  - (* case 2 *)
    destruct (Hnf eq_refl) as [Hn' Hnftr].
    rewrite wrap_small by lia.
    rewrite (PACK_tag (sz + nsz) false) by (Z.to_euclidean_division_equations; lia).
    set (m1 := PUT m (bp - 4) (tag (sz + nsz, false))).
    assert (Hf1 : FTRP m1 bp = bp + sz + nsz - 8).
    { unfold FTRP, HDRP, WSIZE, DSIZE.
      rewrite (GET_SIZE_tag _ _ (sz + nsz, false)); simpl;
        [lia | | Z.to_euclidean_division_equations; lia].
      unfold m1. apply GET_PUT_tag; Z.to_euclidean_division_equations; lia. }
    rewrite Hf1. cbn [fst snd heap_mem set_mem mem_brk mem_max_addr heap_listp]. repeat split; auto.
    + unfold m1. rewrite GET_PUT_other by lia.
      apply GET_PUT_tag; Z.to_euclidean_division_equations; lia.
    + apply GET_PUT_tag; Z.to_euclidean_division_equations; lia.
    + unfold m1. repeat (apply same_outside_PUT; [| lia | lia]).
      apply same_outside_refl.
    + discriminate.
  - (* case 3 *)
    rewrite wrap_small by lia.
    rewrite (PACK_tag (sz + psz) false) by (Z.to_euclidean_division_equations; lia).
    assert (Hf0 : FTRP m bp = bp + sz - 8).
    { unfold FTRP, HDRP, WSIZE, DSIZE. rewrite Hsz. reflexivity. }
    rewrite Hf0.
    set (m1 := PUT m (bp + sz - 8) (tag (sz + psz, false))).
    assert (Hp1 : PREV_BLKP m1 bp = bp - psz).
    { unfold PREV_BLKP, DSIZE. rewrite (GET_SIZE_tag _ _ (psz, false)); auto.
      unfold m1. rewrite GET_PUT_other by lia. exact Hpf. }
    rewrite Hp1.
    set (m2 := PUT m1 (bp - psz - 4) (tag (sz + psz, false))).
    assert (Hp2 : PREV_BLKP m2 bp = bp - psz).
    { unfold PREV_BLKP, DSIZE. rewrite (GET_SIZE_tag _ _ (psz, false)); auto.
      unfold m2, m1. rewrite !GET_PUT_other by lia. exact Hpf. }
    rewrite Hp2. cbn [fst snd heap_mem set_mem mem_brk mem_max_addr heap_listp]. repeat split; auto.
    + apply GET_PUT_tag; Z.to_euclidean_division_equations; lia.
    + unfold m2, m1. rewrite GET_PUT_other by lia.
      apply GET_PUT_tag; Z.to_euclidean_division_equations; lia.
    + unfold m2, m1. repeat (apply same_outside_PUT; [| lia | lia]).
      apply same_outside_refl.
    + discriminate.
  - (* case 4 *)
    destruct (Hnf eq_refl) as [Hn' Hnftr].
    assert (Hnf0 : FTRP m (bp + sz) = bp + sz + nsz - 8).
    { unfold FTRP, HDRP, WSIZE, DSIZE. rewrite Hnsz. reflexivity. }
    rewrite Hnf0.
    rewrite (GET_SIZE_tag _ _ (nsz, false)) by auto. simpl fst.
    unfold wrap32. rewrite (Z.mod_small (psz + nsz)) by lia.
    rewrite wrap_small by lia.
    rewrite (PACK_tag (sz + (psz + nsz)) false)
      by (Z.to_euclidean_division_equations; lia).
    set (m1 := PUT m (bp - psz - 4) (tag (sz + (psz + nsz), false))).
    assert (Hn1 : NEXT_BLKP m1 bp = bp + sz).
    { unfold NEXT_BLKP, WSIZE. rewrite (GET_SIZE_tag _ _ (sz, false)); auto.
      unfold m1. rewrite GET_PUT_other by lia. exact Hoh. }
    rewrite Hn1.
    assert (Hf1 : FTRP m1 (bp + sz) = bp + sz + nsz - 8).
    { unfold FTRP, HDRP, WSIZE, DSIZE.
      rewrite (GET_SIZE_tag _ _ (nsz, false)); auto.
      unfold m1. rewrite GET_PUT_other by lia. exact Hnh. }
    rewrite Hf1.
    set (m2 := PUT m1 (bp + sz + nsz - 8) (tag (sz + (psz + nsz), false))).
    assert (Hp2 : PREV_BLKP m2 bp = bp - psz).
    { unfold PREV_BLKP, DSIZE. rewrite (GET_SIZE_tag _ _ (psz, false)); auto.
      unfold m2, m1. rewrite !GET_PUT_other by lia. exact Hpf. }
    rewrite Hp2. cbn [fst snd heap_mem set_mem mem_brk mem_max_addr heap_listp]. repeat split; auto.
    + unfold m2, m1. rewrite GET_PUT_other by lia.
      apply GET_PUT_tag; Z.to_euclidean_division_equations; lia.
    + apply GET_PUT_tag; Z.to_euclidean_division_equations; lia.
    + unfold m2, m1. repeat (apply same_outside_PUT; [| lia | lia]).
      apply same_outside_refl.
    + discriminate.
Qed.

Lemma first_fit_found (bp : Z) (bs : list block) (asize q : Z) :
  first_fit bp bs asize = At q ->
  exists l1 b l2,
    bs = l1 ++ b :: l2 /\ q = bp + total l1 /\
    snd b = false /\ asize <= fst b /\ Forall (no_fit asize) l1.
Proof.
  revert bp. induction bs as [| b r IH]; intros bp; simpl.
  - discriminate.
  - destruct (negb (snd b) && (asize <=? fst b)) eqn:E.
    + intros [= <-]. apply andb_prop in E. destruct E as [E1 E2].
      exists [], b, r. simpl. repeat split; auto; try lia.
      * destruct (snd b); simpl in E1; congruence.
    + intros H. destruct (IH _ H) as (l1 & b' & l2 & -> & -> & Hf & Hs & Hl).
      exists (b :: l1), b', l2. simpl. repeat split; auto; try lia.
      constructor; auto. unfold no_fit.
      apply andb_false_iff in E. destruct E as [E | E].
      * left. destruct (snd b); simpl in E; congruence.
      * right. lia.
Qed.

Lemma first_fit_none (bp : Z) (bs : list block) (asize : Z) :
  first_fit bp bs asize = NULL -> Forall (no_fit asize) bs.
Proof.
  revert bp. induction bs as [| b r IH]; intros bp; simpl.
  - constructor.
  - destruct (negb (snd b) && (asize <=? fst b)) eqn:E; [discriminate |].
    intros H. constructor; [| eapply IH; eassumption].
    unfold no_fit. apply andb_false_iff in E. destruct E as [E | E].
    + left. destruct (snd b); simpl in E; congruence.
    + right. lia.
Qed.

Lemma find_fit_loop_seg (fuel : nat) (m : mem) (asize bp : Z) (bs : list block) :
  seg m bp bs ->
  Forall (fun b => fst b mod 8 = 0 /\ 8 <= fst b) bs ->
  GET m (HDRP (bp + total bs)) = 1 ->
  (length bs < fuel)%nat ->
  find_fit_loop fuel m asize bp = Some (first_fit bp bs asize).
Proof.
  revert fuel bp. induction bs as [| b r IH]; intros fuel bp Hseg Hs He Hf.
  - destruct fuel as [| k]; [simpl in Hf; lia |].
    cbn [find_fit_loop first_fit total] in *.
    rewrite Z.add_0_r in He.
    rewrite (GET_SIZE_tag _ _ (0, true)) by (try rewrite He; reflexivity).
    reflexivity.
  - destruct fuel as [| k]; [simpl in Hf; lia |].
    cbn [seg total length] in Hseg, He, Hf. destruct Hseg as [[Hh _] Hseg].
    inversion Hs as [| ? ? [Hb8 Hb] Hr]; subst.
    cbn [find_fit_loop first_fit].
    rewrite (GET_SIZE_tag _ _ b Hh Hb8), (GET_ALLOC_tag _ _ b Hh Hb8).
    destruct (Z.gtb_spec (fst b) 0); [| lia].
    replace ((if snd b then 1 else 0) =? 0) with (negb (snd b))
      by (destruct (snd b); reflexivity).
    destruct (negb (snd b) && (asize <=? fst b)); [reflexivity |].
    unfold NEXT_BLKP. fold (HDRP bp). rewrite (GET_SIZE_tag _ _ b Hh Hb8).
    apply IH; auto.
    + replace (bp + fst b + total r) with (bp + (fst b + total r)) by lia. exact He.
    + lia.
Qed.

Lemma length_le_total (bs : list block) :
  Forall (fun b => 8 <= fst b) bs -> 8 * Z.of_nat (length bs) <= total bs.
Proof.
  induction 1 as [| b r Hb Hr IH].
  - simpl. lia.
  - cbn [length total]. rewrite Nat2Z.inj_succ. lia.
Qed.

Lemma heap_wf_all8 (s : state) (bs : list block) :
  heap_wf s bs -> Forall (fun b => fst b mod 8 = 0 /\ 8 <= fst b) ((8, true) :: bs).
Proof.
  intros H. constructor.
  - simpl. split; [reflexivity | lia].
  - eapply Forall_impl; [| apply (wf_sizes _ _ H)].
    intros b [H1 H2]. split; [exact H1 | lia].
Qed.

Lemma find_fit_heap (s : state) (bs : list block) (asize : Z) :
  heap_wf s bs ->
  find_fit s asize = Some (first_fit (heap_listp s + 8) bs asize).
Proof.
  intros H. unfold find_fit.
  rewrite (find_fit_loop_seg _ _ _ _ ((8, true) :: bs)).
  - reflexivity.
  - apply (wf_seg _ _ H).
  - apply (heap_wf_all8 _ _ H).
  - cbn [total fst]. replace (heap_listp s + (8 + total bs))
      with (heap_listp s + 8 + total bs) by lia. apply (wf_epilogue _ _ H).
  - pose proof (length_le_total ((8, true) :: bs)) as Hl.
    assert (Forall (fun b : block => 8 <= fst b) ((8, true) :: bs)) as H8.
    { eapply Forall_impl; [| apply (heap_wf_all8 _ _ H)]. intros b [_ Hb]. exact Hb. }
    specialize (Hl H8). cbn [total fst] in Hl.
    destruct (wf_base _ _ H) as [Hb _]. rewrite (wf_brk _ _ H).
    apply Nat2Z.inj_lt. rewrite Z2Nat.id; lia.
Qed.

Lemma no_adj_free_app_cons (l1 l2 : list block) (b : block) :
  no_adj_free (l1 ++ b :: l2) =
  no_adj_free l1 && no_adj_free l2
  && (snd (prev_of l1) || snd b) && (snd b || snd (next_of l2)).
Proof.
  unfold prev_of, next_of. induction l1 as [| a r IH].
  - cbn [app no_adj_free last]. destruct l2 as [| c l2']; cbn [hd].
    + rewrite orb_true_r. reflexivity.
    + cbn [no_adj_free]. destruct l2'; cbn; btauto.
  - cbn [app]. destruct r as [| a' r'].
    + cbn [app no_adj_free last] in *. rewrite IH.
      destruct (snd a), (snd b); cbn; btauto.
    + change (no_adj_free (a :: (a' :: r') ++ b :: l2))
        with ((snd a || snd a') && no_adj_free ((a' :: r') ++ b :: l2)).
      rewrite IH.
      change (no_adj_free (a :: a' :: r'))
        with ((snd a || snd a') && no_adj_free (a' :: r')).
      change (last (a :: a' :: r') (8, true)) with (last (a' :: r') (8, true)).
      btauto.
Qed.

Lemma seg_sizes_prologue (bs : list block) :
  Forall size_ok bs -> Forall (fun b => 8 <= fst b) ((8, true) :: bs).
Proof.
  intros H. constructor; [simpl; lia | apply Forall_size_ok_8, H].
Qed.

Lemma size_ok_total (bs : list block) : Forall size_ok bs -> 0 <= total bs /\ total bs mod 8 = 0.
Proof.
  induction 1 as [| b r [Hb8 Hb] Hr [IH1 IH2]]; cbn [total].
  - split; [lia | reflexivity].
  - split; [lia |]. Z.to_euclidean_division_equations. lia.
Qed.

(** Replacing a run of blocks by another of the same total size, when
    the memory only changes inside that run. *)
Lemma heap_wf_replace (s s' : state) (l1 mid mid' l2 : list block) :
  heap_wf s (l1 ++ mid ++ l2) ->
  heap_listp s' = heap_listp s -> mem_brk s' = mem_brk s ->
  mem_max_addr s' = mem_max_addr s ->
  total mid' = total mid -> Forall size_ok mid' ->
  same_outside (heap_mem s) (heap_mem s')
    (heap_listp s + 8 + total l1 - 4) (heap_listp s + 8 + total l1 + total mid - 4) ->
  seg (heap_mem s') (heap_listp s + 8 + total l1) mid' ->
  heap_wf s' (l1 ++ mid' ++ l2).
Proof.
  intros [Hb Hseg Hs He Hbrk Hmax] Hhl Hbk Hmx Ht Hm Hfr Hseg'.
  apply Forall_app in Hs. destruct Hs as [Hs1 Hs].
  apply Forall_app in Hs. destruct Hs as [Hsm Hs2].
  pose proof (size_ok_total _ Hs1) as [Ht1 _].
  pose proof (size_ok_total _ Hsm) as [Htm _].
  pose proof (size_ok_total _ Hs2) as [Ht2 _].
  rewrite !total_app in *.
  change ((8, true) :: l1 ++ mid ++ l2) with (((8, true) :: l1) ++ mid ++ l2) in Hseg.
  apply seg_app in Hseg. destruct Hseg as [Hseg1 Hseg].
  apply seg_app in Hseg. destruct Hseg as [_ Hseg2].
  cbn [total fst] in Hseg2.
  constructor; rewrite ?Hhl, ?Hbk, ?Hmx, ?total_app; auto.
  - change ((8, true) :: l1 ++ mid' ++ l2) with (((8, true) :: l1) ++ mid' ++ l2).
    apply seg_app. split; [| apply seg_app; split].
    + eapply seg_frame; [exact Hfr | apply seg_sizes_prologue, Hs1 | | exact Hseg1].
      cbn [total fst]. lia.
    + cbn [total fst]. replace (heap_listp s + (8 + total l1))
        with (heap_listp s + 8 + total l1) by lia. exact Hseg'.
    + cbn [total fst]. rewrite Ht.
      eapply seg_frame; [exact Hfr | apply Forall_size_ok_8, Hs2 | | exact Hseg2].
      lia.
  - apply Forall_app. split; [exact Hs1 |]. apply Forall_app. split; assumption.
  - rewrite Ht. unfold HDRP, WSIZE in *.
    rewrite (same_outside_GET _ _ _ _ _ Hfr) by lia. exact He.
  - rewrite Ht. exact Hbrk.
Qed.

Lemma heap_block_at (s : state) (l1 l2 : list block) (b : block) :
  heap_wf s (l1 ++ b :: l2) ->
  block_at (heap_mem s) (heap_listp s + 8 + total l1) b.
Proof.
  intros H. pose proof (wf_seg _ _ H) as Hseg.
  change ((8, true) :: l1 ++ b :: l2) with (((8, true) :: l1) ++ b :: l2) in Hseg.
  apply seg_app in Hseg. destruct Hseg as [_ [Hb _]]. cbn [total fst] in Hb.
  replace (heap_listp s + (8 + total l1)) with (heap_listp s + 8 + total l1) in Hb by lia.
  exact Hb.
Qed.

Lemma heap_bound (s : state) (bs : list block) :
  heap_wf s bs -> heap_listp s + 8 + total bs < 4294967296.
Proof.
  intros H. rewrite <- (wf_brk _ _ H). pose proof (wf_max _ _ H). lia.
Qed.

Lemma snoc_cases (l : list block) : l = [] \/ exists l' p, l = l' ++ [p].
Proof.
  induction l as [| p l' _] using rev_ind; [left; reflexivity | right; eauto].
Qed.

Lemma prev_of_snoc (l : list block) (b : block) : prev_of (l ++ [b]) = b.
Proof. unfold prev_of. apply last_last. Qed.

(** The block before position [l1] of a well-formed heap, with its tags. *)
Lemma heap_prev_at (s : state) (l1 l2 : list block) (b : block) :
  heap_wf s (l1 ++ b :: l2) ->
  let bp := heap_listp s + 8 + total l1 in
  block_at (heap_mem s) (bp - fst (prev_of l1)) (prev_of l1) /\
  fst (prev_of l1) mod 8 = 0 /\ 8 <= fst (prev_of l1) /\
  fst (prev_of l1) <= 8 + total l1.
Proof.
  intros H bp. destruct (snoc_cases l1) as [-> | (l1' & p & ->)].
  - unfold prev_of, bp. cbn [last total fst].
    pose proof (wf_seg _ _ H) as [Hp _].
    replace (heap_listp s + 8 + 0 - 8) with (heap_listp s) by lia.
    split; [exact Hp | repeat split; auto; lia].
  - rewrite prev_of_snoc. unfold bp. rewrite total_app. cbn [total].
    rewrite <- app_assoc in H. cbn [app] in H.
    pose proof (heap_block_at _ _ _ _ H) as Hp.
    pose proof (wf_sizes _ _ H) as Hs.
    apply Forall_app in Hs. destruct Hs as [Hs1 Hs]. inversion Hs as [| ? ? [Hp8 Hpl] _]; subst.
    pose proof (size_ok_total _ Hs1) as [Ht1 _].
    replace (heap_listp s + 8 + (total l1' + (fst p + 0)) - fst p)
      with (heap_listp s + 8 + total l1') by lia.
    split; [exact Hp | repeat split; auto; lia].
Qed.

(** What follows position [l1 ++ [b]] of a well-formed heap. *)
Lemma heap_next_at (s : state) (l1 l2 : list block) (b : block) :
  heap_wf s (l1 ++ b :: l2) ->
  let bp := heap_listp s + 8 + total l1 in
  GET (heap_mem s) (HDRP (bp + fst b)) = tag (next_of l2) /\
  fst (next_of l2) mod 8 = 0 /\ 0 <= fst (next_of l2) /\
  (snd (next_of l2) = false ->
   8 <= fst (next_of l2) /\
   GET (heap_mem s) (bp + fst b + fst (next_of l2) - DSIZE) = tag (next_of l2)) /\
  fst (next_of l2) <= total l2.
Proof.
  intros H bp. destruct l2 as [| n l2'].
  - unfold next_of, bp. cbn [hd total fst snd].
    pose proof (wf_epilogue _ _ H) as He. rewrite total_app in He. cbn [total] in He.
    replace (heap_listp s + 8 + (total l1 + (fst b + 0)))
      with (heap_listp s + 8 + total l1 + fst b) in He by lia.
    repeat split; auto; try lia; try discriminate.
  - unfold next_of, bp. cbn [hd total].
    replace (l1 ++ b :: n :: l2') with ((l1 ++ [b]) ++ n :: l2') in H
      by (rewrite <- app_assoc; reflexivity).
    pose proof (heap_block_at _ _ _ _ H) as [Hh Hf].
    pose proof (wf_sizes _ _ H) as Hs.
    apply Forall_app in Hs. destruct Hs as [_ Hs].
    inversion Hs as [| ? ? [Hn8 Hnl] Hs2]; subst.
    pose proof (size_ok_total _ Hs2) as [Ht2 _].
    rewrite total_app in Hh, Hf. cbn [total] in Hh, Hf.
    replace (heap_listp s + 8 + (total l1 + (fst b + 0)))
      with (heap_listp s + 8 + total l1 + fst b) in Hh, Hf by lia.
    repeat split; auto; lia.
Qed.

Lemma heap_around (s : state) (l1 l2 : list block) (sz : Z) :
  heap_wf s (l1 ++ (sz, false) :: l2) ->
  around (heap_mem s) (heap_listp s + 8 + total l1) sz
    (fst (prev_of l1)) (snd (prev_of l1)) (fst (next_of l2)) (snd (next_of l2)).
Proof.
  intros H.
  pose proof (heap_block_at _ _ _ _ H) as Hown.
  pose proof (heap_prev_at _ _ _ _ H) as (Hp & Hp8 & Hpl & Hpt).
  pose proof (heap_next_at _ _ _ _ H) as (Hn & Hn8 & Hnl & Hnf & Hnt).
  pose proof (wf_sizes _ _ H) as Hs.
  apply Forall_app in Hs. destruct Hs as [Hs1 Hs].
  inversion Hs as [| ? ? [Hb8 Hbl] Hs2]; subst. cbn [fst] in *.
  pose proof (heap_bound _ _ H) as Hbd. rewrite total_app in Hbd. cbn [total fst] in Hbd.
  pose proof (wf_base _ _ H) as [Hhl _].
  constructor; rewrite <- ?surjective_pairing; auto; lia.
Qed.

Lemma prev_free_snoc (l1 : list block) :
  snd (prev_of l1) = false ->
  exists l1', l1 = l1' ++ [(fst (prev_of l1), false)] /\ removelast l1 = l1'.
Proof.
  intros H. destruct (snoc_cases l1) as [-> | (l1' & p & ->)].
  - discriminate.
  - rewrite prev_of_snoc in *. exists l1'. rewrite removelast_last.
    destruct p as [psz pa]. simpl in *. subst. auto.
Qed.

Lemma next_free_cons (l2 : list block) :
  snd (next_of l2) = false ->
  exists l2', l2 = (fst (next_of l2), false) :: l2' /\ tl l2 = l2'.
Proof.
  intros H. destruct l2 as [| [nsz na] l2']; simpl in *.
  - discriminate.
  - subst. eauto.
Qed.

Lemma coalesce_list_total (l1 : list block) (sz : Z) (l2 : list block) :
  total (coalesce_list l1 sz l2) = total l1 + sz + total l2.
Proof.
  unfold coalesce_list, merged_size.
  destruct (snd (prev_of l1)) eqn:Ep; destruct (snd (next_of l2)) eqn:En;
    try (destruct (prev_free_snoc _ Ep) as (l1' & E1 & ->); rewrite E1 at 2);
    try (destruct (next_free_cons _ En) as (l2' & E2 & ->); rewrite E2 at 2);
    rewrite ?total_app; cbn [total fst]; lia.
Qed.

Lemma coalesce_list_no_adj_free (l1 : list block) (sz : Z) (l2 : list block) :
  no_adj_free l1 = true -> no_adj_free l2 = true ->
  no_adj_free (coalesce_list l1 sz l2) = true.
Proof.
  intros H1 H2. unfold coalesce_list. rewrite no_adj_free_app_cons. cbn [snd].
  rewrite orb_false_r, orb_false_l.
  assert (A1 : no_adj_free (if snd (prev_of l1) then l1 else removelast l1) = true
               /\ snd (prev_of (if snd (prev_of l1) then l1 else removelast l1)) = true).
  { destruct (snd (prev_of l1)) eqn:Ep; [auto |].
    destruct (prev_free_snoc _ Ep) as (l1' & E1 & ->).
    rewrite E1, no_adj_free_app_cons in H1. cbn [snd] in H1.
    rewrite orb_false_r in H1.
    apply andb_prop in H1. destruct H1 as [H1 _].
    apply andb_prop in H1. destruct H1 as [H1 Hp].
    apply andb_prop in H1. destruct H1 as [H1 _]. auto. }
  assert (A2 : no_adj_free (if snd (next_of l2) then l2 else tl l2) = true
               /\ snd (next_of (if snd (next_of l2) then l2 else tl l2)) = true).
  { destruct (snd (next_of l2)) eqn:En; [auto |].
    destruct (next_free_cons _ En) as (l2' & E2 & ->).
    rewrite E2 in H2. change ((fst (next_of l2), false) :: l2')
      with ([] ++ (fst (next_of l2), false) :: l2') in H2.
    rewrite no_adj_free_app_cons in H2. cbn [snd] in H2.
    rewrite orb_false_l in H2.
    apply andb_prop in H2. destruct H2 as [H2 Hn].
    apply andb_prop in H2. destruct H2 as [H2 _].
    apply andb_prop in H2. destruct H2 as [_ H2]. auto. }
  destruct A1 as [A1 A1'], A2 as [A2 A2'].
  repeat (apply andb_true_intro; split); assumption.
Qed.

(** [coalesce] on a well-formed heap whose block at position [l1] is
    free: the heap stays well formed, with the list [coalesce_list]. *)
Lemma coalesce_heap (s : state) (l1 l2 : list block) (sz : Z) :
  heap_wf s (l1 ++ (sz, false) :: l2) ->
  let bp := heap_listp s + 8 + total l1 in
  let s' := fst (coalesce size_t_mod s bp) in
  let r := snd (coalesce size_t_mod s bp) in
  let l1' := if snd (prev_of l1) then l1 else removelast l1 in
  let n := merged_size sz (fst (prev_of l1)) (snd (prev_of l1))
             (fst (next_of l2)) (snd (next_of l2)) in
  heap_wf s' (coalesce_list l1 sz l2) /\
  r = heap_listp s + 8 + total l1' /\
  block_at (heap_mem s') r (n, false) /\
  same_outside (heap_mem s) (heap_mem s') (r - 4) (r + n - 4) /\
  sz <= n /\ r <= bp /\ bp + sz <= r + n /\
  mem_max_addr s' = mem_max_addr s /\ heap_listp s' = heap_listp s.
Proof.
  intros H bp s' r l1' n.
  pose proof (heap_around _ _ _ _ H) as Har.
  pose proof (coalesce_spec s _ _ _ _ _ _ Har) as (Hr & Hblk & Hfr & Hid & Hbk & Hmx & Hhl).
  fold bp in Hr, Hblk, Hfr. fold s' in Hblk, Hfr, Hid, Hbk, Hmx, Hhl. fold r in Hr.
  fold n in Hblk, Hfr. rewrite <- Hr in Hblk, Hfr.
  destruct Har as [_ [Hs8 Hsl] _ [Hp8 Hpl] _ [Hn8 Hnl] Hnf _].
  pose proof (wf_sizes _ _ H) as Hsz.
  apply Forall_app in Hsz. destruct Hsz as [_ Hsz].
  inversion Hsz as [| ? ? [_ Hsl16] _]; subst. cbn [fst] in Hsl16.
  assert (Hn0 : size_ok (n, false)).
  { unfold size_ok, n, merged_size. cbn [fst].
    destruct (snd (prev_of l1)), (snd (next_of l2)); split;
      Z.to_euclidean_division_equations; lia. }
  assert (Hrl : r = heap_listp s + 8 + total l1' /\ sz <= n /\ r <= bp /\ bp + sz <= r + n).
  { rewrite Hr. unfold merged_start, l1', n, merged_size, bp.
    destruct (snd (prev_of l1)) eqn:Ep.
    - destruct (snd (next_of l2)); repeat split; try lia.
    - destruct (prev_free_snoc _ Ep) as (l0 & E1 & ->).
      assert (Et : total l1 = total l0 + fst (prev_of l1))
        by (rewrite E1 at 1; rewrite total_app; cbn [total fst]; lia).
      destruct (snd (next_of l2)); repeat split; lia. }
  destruct Hrl as (Hrl & Hle1 & Hle2 & Hle3).
  split; [| destruct Hblk; repeat split; assumption].
  unfold coalesce_list. fold n. fold l1'.
  destruct (snd (prev_of l1)) eqn:Ep; destruct (snd (next_of l2)) eqn:En.
  - (* both neighbours allocated *)
    assert (Es : s' = s) by (apply Hid; reflexivity). rewrite Es.
    replace n with sz by (unfold n, merged_size; rewrite ?Ep, ?En; lia).
    exact H.
  - (* next free *)
    destruct (next_free_cons _ En) as (l2' & E2 & ->).
    assert (En' : n = sz + fst (next_of l2))
      by (unfold n, merged_size; rewrite ?Ep, ?En; lia).
    rewrite E2 in H.
    apply (heap_wf_replace s s' l1 [(sz, false); (fst (next_of l2), false)]
             [(n, false)] l2'); auto.
    + cbn [total fst]. lia.
    + cbn [total fst]. rewrite Hrl in Hfr.
      eapply same_outside_weaken; [exact Hfr | subst l1'; lia | subst l1'; lia].
    + cbn [seg]. rewrite Hrl in Hblk. auto.
  - (* previous free *)
    destruct (prev_free_snoc _ Ep) as (l0 & E1 & El0).
    assert (En' : n = fst (prev_of l1) + sz)
      by (unfold n, merged_size; rewrite ?Ep, ?En; lia).
    assert (El : l1' = l0) by (unfold l1'; exact El0).
    rewrite El in *. rewrite E1 in H. rewrite <- app_assoc in H. cbn [app] in H.
    apply (heap_wf_replace s s' l0 [(fst (prev_of l1), false); (sz, false)]
             [(n, false)] l2); auto.
    + cbn [total fst]. lia.
    + cbn [total fst]. rewrite Hrl in Hfr.
      eapply same_outside_weaken; [exact Hfr | lia | lia].
    + cbn [seg]. rewrite Hrl in Hblk. auto.
  - (* both free *)
    destruct (prev_free_snoc _ Ep) as (l0 & E1 & El0).
    destruct (next_free_cons _ En) as (l2' & E2 & ->).
    assert (En' : n = fst (prev_of l1) + sz + fst (next_of l2))
      by (unfold n, merged_size; rewrite ?Ep, ?En; lia).
    assert (El : l1' = l0) by (unfold l1'; exact El0).
    rewrite El in *. rewrite E1, E2 in H. rewrite <- app_assoc in H. cbn [app] in H.
    apply (heap_wf_replace s s' l0
             [(fst (prev_of l1), false); (sz, false); (fst (next_of l2), false)]
             [(n, false)] l2'); auto.
    + cbn [total fst]. lia.
    + cbn [total fst]. rewrite Hrl in Hfr.
      eapply same_outside_weaken; [exact Hfr | lia | lia].
    + cbn [seg]. rewrite Hrl in Hblk. auto.
Qed.

(** Header first, then the footer found through the new header. *)
Lemma mark_block (m : mem) (bp sz : Z) (al : bool) :
  sz mod 8 = 0 -> 8 <= sz < 4294967296 ->
  let m1 := PUT m (HDRP bp) (PACK sz (if al then 1 else 0)) in
  let m2 := PUT m1 (FTRP m1 bp) (PACK sz (if al then 1 else 0)) in
  block_at m2 bp (sz, al) /\ same_outside m m2 (bp - 4) (bp + sz - 4).
Proof.
  intros H8 Hr m1 m2. unfold m2, m1. rewrite PACK_tag by assumption.
  clear m1 m2. set (m1 := PUT m (HDRP bp) (tag (sz, al))).
  assert (Hf1 : FTRP m1 bp = bp + sz - 8).
  { unfold FTRP, DSIZE. rewrite (GET_SIZE_tag _ _ (sz, al)); simpl; auto.
    unfold m1. apply GET_PUT_tag; Z.to_euclidean_division_equations; lia. }
  rewrite Hf1. unfold block_at, HDRP, WSIZE, DSIZE in *. cbn [fst]. repeat split.
  - unfold m1. rewrite GET_PUT_other by lia.
    apply GET_PUT_tag; Z.to_euclidean_division_equations; lia.
  - apply GET_PUT_tag; Z.to_euclidean_division_equations; lia.
  - unfold m1. repeat (apply same_outside_PUT; [| lia | lia]).
    apply same_outside_refl.
Qed.

Lemma mm_free_heap (s : state) (l1 l2 : list block) (sz : Z) :
  heap_wf s (l1 ++ (sz, true) :: l2) ->
  let p := heap_listp s + 8 + total l1 in
  let s' := mm_free size_t_mod s p in
  let l1' := if snd (prev_of l1) then l1 else removelast l1 in
  let r := heap_listp s + 8 + total l1' in
  let n := merged_size sz (fst (prev_of l1)) (snd (prev_of l1))
             (fst (next_of l2)) (snd (next_of l2)) in
  heap_wf s' (coalesce_list l1 sz l2) /\
  block_at (heap_mem s') r (n, false) /\
  same_outside (heap_mem s) (heap_mem s') (r - 4) (r + n - 4) /\
  r <= p /\ p + sz <= r + n /\
  heap_listp s' = heap_listp s /\ mem_max_addr s' = mem_max_addr s.
Proof.
  intros H p s' l1' r n.
  pose proof (heap_block_at _ _ _ _ H) as Hb. fold p in Hb.
  pose proof (wf_sizes _ _ H) as Hsz.
  apply Forall_app in Hsz. destruct Hsz as [Hs1 Hsz].
  inversion Hsz as [| ? ? [Hs8 Hsl] Hs2]; subst. cbn [fst] in Hs8, Hsl.
  pose proof (size_ok_total _ Hs1) as [Ht1 _].
  pose proof (size_ok_total _ Hs2) as [Ht2 _].
  pose proof (heap_bound _ _ H) as Hbd. rewrite total_app in Hbd. cbn [total fst] in Hbd.
  pose proof (wf_base _ _ H) as [Hhl _].
  assert (Hgs : GET_SIZE (heap_mem s) (HDRP p) = sz)
    by (apply (GET_SIZE_tag _ _ (sz, true)); [apply Hb | exact Hs8]).
  unfold s', mm_free. rewrite Hgs.
  destruct (mark_block (heap_mem s) p sz false Hs8 ltac:(lia)) as [Hmb Hmf].
  cbv zeta in Hmb, Hmf.
  set (m2 := PUT _ (FTRP _ p) (PACK sz 0)) in *.
  assert (H1 : heap_wf (set_mem s m2) (l1 ++ (sz, false) :: l2)).
  { apply (heap_wf_replace s (set_mem s m2) l1 [(sz, true)] [(sz, false)] l2); auto.
    - constructor; [split; assumption | constructor].
    - cbn [total fst set_mem heap_mem]. fold p.
      eapply same_outside_weaken; [exact Hmf | lia | lia].
    - cbn [seg set_mem heap_mem]. fold p. auto. }
  pose proof (coalesce_heap _ _ _ _ H1) as (Hwf & Hr & Hblk & Hfr & Hle1 & Hle2 & Hle3 & Hmx & Hhp).
  cbn [set_mem heap_listp heap_mem mem_max_addr] in Hwf, Hr, Hblk, Hfr, Hle1, Hle2, Hle3, Hmx, Hhp.
  fold p in Hmx, Hhp.
  fold p in Hwf, Hr, Hblk, Hfr, Hle1, Hle2, Hle3.
  fold l1' in Hr. fold r in Hr. fold n in Hblk, Hfr, Hle1, Hle3.
  rewrite ?Hr in Hblk, Hfr, Hle2, Hle3.
  split; [exact Hwf |]. split; [exact Hblk |].
  split; [| repeat split; assumption].
  eapply same_outside_trans; [| exact Hfr].
  eapply same_outside_weaken; [exact Hmf | lia | lia].
Qed.

(** A null result of [extend_heap] comes from a failed [mem_sbrk] only,
    and then nothing has changed. *)
Lemma extend_heap_NULL (s : state) (words : Z) :
  snd (extend_heap size_t_mod s words) = NULL ->
  fst (extend_heap size_t_mod s words) = s /\
  mem_max_addr s < mem_brk s + extend_size size_t_mod words.
Proof.
  unfold extend_heap, extend_size, mem_sbrk.
  set (size := if negb (words mod 2 =? 0) then _ else _).
  destruct (Z.leb_spec (mem_brk s + size) (mem_max_addr s)) as [Hle | Hgt].
  - cbv zeta. destruct (coalesce _ _ _). cbn [snd]. discriminate.
  - cbn [fst snd]. auto.
Qed.

Lemma extend_heap_fails (s : state) (words : Z) :
  mem_max_addr s < mem_brk s + extend_size size_t_mod words ->
  extend_heap size_t_mod s words = (s, NULL).
Proof.
  unfold extend_heap, extend_size, mem_sbrk.
  set (size := if negb (words mod 2 =? 0) then _ else _).
  intros H. destruct (Z.leb_spec (mem_brk s + size) (mem_max_addr s)); [lia | reflexivity].
Qed.

Lemma extend_heap_heap (s : state) (bs : list block) (words : Z) :
  heap_wf s bs ->
  words mod 2 = 0 -> 4 <= words ->
  mem_brk s + words * 4 <= mem_max_addr s ->
  let size := words * 4 in
  let s' := fst (extend_heap size_t_mod s words) in
  let l1' := if snd (prev_of bs) then bs else removelast bs in
  let r := heap_listp s + 8 + total l1' in
  let n := merged_size size (fst (prev_of bs)) (snd (prev_of bs)) 0 true in
  snd (extend_heap size_t_mod s words) = At r /\
  heap_wf s' (coalesce_list bs size []) /\
  block_at (heap_mem s') r (n, false) /\
  same_outside (heap_mem s) (heap_mem s') (r - 4) (r + n) /\
  size <= n /\ r + n = mem_brk s + size /\
  mem_max_addr s' = mem_max_addr s /\ heap_listp s' = heap_listp s.
Proof.
  intros H Hev Hw Hfit size s' l1' r n.
  pose proof (wf_max _ _ H) as Hmax. pose proof (wf_brk _ _ H) as Hbrk.
  pose proof (wf_base _ _ H) as [Hhl Hhl8].
  pose proof (size_ok_total _ (wf_sizes _ _ H)) as [Ht Ht8].
  assert (Hsz : extend_size size_t_mod words = size).
  { unfold extend_size. rewrite Hev. cbn [Z.eqb negb]. unfold WSIZE.
    apply wrap_small. unfold size. lia. }
  assert (Hs8 : size mod 8 = 0)
    by (unfold size; Z.to_euclidean_division_equations; lia).
  unfold s'. unfold extend_heap. fold (extend_size size_t_mod words). rewrite Hsz.
  unfold mem_sbrk.
  destruct (Z.leb_spec (mem_brk s + size) (mem_max_addr s)) as [_ | Hgt];
    [| unfold size in Hgt; lia].
  cbn [heap_mem mem_brk mem_max_addr heap_listp].
  set (bp := mem_brk s) in *.
  destruct (mark_block (heap_mem s) bp size false Hs8 ltac:(unfold size; lia))
    as [Hmb Hmf]. cbv zeta in Hmb, Hmf.
  set (m2 := PUT _ (FTRP _ bp) (PACK size 0)) in *.
  assert (Hnx : NEXT_BLKP m2 bp = bp + size).
  { unfold NEXT_BLKP. fold (HDRP bp).
    rewrite (GET_SIZE_tag _ _ (size, false)); [reflexivity | apply Hmb | exact Hs8]. }
  rewrite Hnx. change (PACK 0 1) with 1.
  set (m3 := PUT m2 (HDRP (bp + size)) 1).
  set (s1 := set_mem _ m3).
  assert (Hfr3 : same_outside (heap_mem s) m3 (bp - 4) (bp + size)).
  { unfold m3, HDRP, WSIZE. apply same_outside_PUT; [| lia | lia].
    eapply same_outside_weaken; [exact Hmf | lia | lia]. }
  assert (H1 : heap_wf s1 (bs ++ [(size, false)])).
  { constructor; unfold s1; cbn [set_mem heap_mem mem_brk mem_max_addr heap_listp].
    - auto.
    - change ((8, true) :: bs ++ [(size, false)])
        with (((8, true) :: bs) ++ [(size, false)]).
      apply seg_app. split.
      + eapply seg_frame; [exact Hfr3 | apply seg_sizes_prologue, (wf_sizes _ _ H) | |
                           apply (wf_seg _ _ H)].
        cbn [total fst]. lia.
      + cbn [seg total fst]. split; [| exact I].
        replace (heap_listp s + (8 + total bs)) with bp by lia.
        destruct Hmb as [Hh Hf]. unfold block_at, m3, HDRP, WSIZE, DSIZE in *.
        cbn [fst] in *. rewrite !GET_PUT_other by lia. auto.
    - apply Forall_app. split; [apply (wf_sizes _ _ H) |].
      constructor; [| constructor]. split; [exact Hs8 | unfold size; cbn [fst]; lia].
    - rewrite total_app. cbn [total fst].
      replace (heap_listp s + 8 + (total bs + (size + 0))) with (bp + size) by lia.
      unfold m3. apply GET_PUT_eq; lia.
    - rewrite total_app. cbn [total fst]. lia.
    - unfold size. lia. }
  pose proof (coalesce_heap _ _ _ _ H1) as Hc. cbv zeta in Hc.
  replace (heap_listp s1 + 8 + total bs) with bp in Hc by (unfold s1; cbn; lia).
  replace (heap_listp s1) with (heap_listp s) in Hc by reflexivity.
  replace (mem_max_addr s1) with (mem_max_addr s) in Hc by reflexivity.
  change (fst (next_of [])) with 0 in Hc. change (snd (next_of [])) with true in Hc.
  fold l1' in Hc. fold r in Hc. fold n in Hc.
  destruct (coalesce size_t_mod s1 bp) as [s2 r2] eqn:Ec.
  cbn [fst snd] in Hc.
  destruct Hc as (Hwf & Hr & Hblk & Hfr & Hle1 & Hle2 & Hle3 & Hmx & Hhp).
  subst r2.
  split; [reflexivity |]. split; [exact Hwf |]. split; [exact Hblk |].
  assert (Hrn : r + n = bp + size).
  { unfold n, merged_size in *. unfold r, l1' in *.
    destruct (snd (prev_of bs)) eqn:Ep; [lia |].
    destruct (prev_free_snoc _ Ep) as (l0 & E1 & El0). rewrite El0 in *.
    assert (Et : total bs = total l0 + fst (prev_of bs))
      by (rewrite E1 at 1; rewrite total_app; cbn [total fst]; lia).
    lia. }
  split; [| auto].
  eapply same_outside_trans.
  - eapply same_outside_weaken; [exact Hfr3 | lia | lia].
  - unfold s1 in Hfr. cbn [set_mem heap_mem] in Hfr.
    eapply same_outside_weaken; [exact Hfr | lia | lia].
Qed.

Lemma allocs_app (bp : Z) (l1 l2 : list block) :
  allocs bp (l1 ++ l2) = allocs bp l1 ++ allocs (bp + total l1) l2.
Proof.
  revert bp. induction l1 as [| b r IH]; intros bp; cbn [app allocs total].
  - rewrite Z.add_0_r. reflexivity.
  - rewrite IH, <- app_assoc.
    replace (bp + fst b + total r) with (bp + (fst b + total r)) by lia.
    reflexivity.
Qed.

Lemma allocs_range (bp : Z) (bs : list block) (p psz : Z) :
  Forall (fun b => 8 <= fst b) bs ->
  In (p, psz) (allocs bp bs) -> bp <= p /\ p + psz <= bp + total bs.
Proof.
  intros Hs. revert bp. induction Hs as [| b r Hb Hr IH]; intros bp; cbn [allocs total].
  - intros [].
  - pose proof (total_nonneg r Hr) as Ht.
    intros Hin. apply in_app_or in Hin. destruct Hin as [Hin | Hin].
    + destruct (snd b); [| destruct Hin].
      destruct Hin as [[= <- <-] | []]. lia.
    + apply IH in Hin. lia.
Qed.

Lemma In_allocs_split (bp : Z) (bs : list block) (p psz : Z) :
  In (p, psz) (allocs bp bs) ->
  exists l1 l2, bs = l1 ++ (psz, true) :: l2 /\ p = bp + total l1.
Proof.
  revert bp. induction bs as [| b r IH]; intros bp; cbn [allocs].
  - intros [].
  - intros Hin. apply in_app_or in Hin. destruct Hin as [Hin | Hin].
    + destruct b as [bsz [|]]; cbn [fst snd] in Hin; [| destruct Hin].
      destruct Hin as [[= <- <-] | []].
      exists [], r. cbn [app total]. split; [reflexivity | lia].
    + destruct (IH _ Hin) as (l1 & l2 & -> & ->).
      exists (b :: l1), l2. cbn [app total]. split; [reflexivity | lia].
Qed.

Lemma In_allocs_intro (bp : Z) (l1 l2 : list block) (psz : Z) :
  In (bp + total l1, psz) (allocs bp (l1 ++ (psz, true) :: l2)).
Proof.
  rewrite allocs_app. apply in_or_app. right. cbn [allocs fst snd app]. left. reflexivity.
Qed.

Lemma allocs_coalesce_list (bp : Z) (l1 l2 : list block) (sz : Z) :
  allocs bp (coalesce_list l1 sz l2) = allocs bp (l1 ++ (sz, false) :: l2).
Proof.
  assert (Hpos : forall a b l, a = b -> allocs a l = allocs b l)
    by (intros; subst; reflexivity).
  unfold coalesce_list, merged_size.
  destruct (snd (prev_of l1)) eqn:Ep; destruct (snd (next_of l2)) eqn:En.
  - rewrite !allocs_app. cbn [allocs fst snd app]. apply f_equal. apply Hpos. lia.
  - destruct (next_free_cons _ En) as (l2' & E2 & ->). rewrite E2 at 2.
    rewrite !allocs_app. cbn [allocs fst snd app]. apply f_equal. apply Hpos. lia.
  - destruct (prev_free_snoc _ Ep) as (l1' & E1 & ->). rewrite E1 at 2.
    rewrite !allocs_app. cbn [allocs fst snd app total]. rewrite app_nil_r.
    apply f_equal. apply Hpos. rewrite total_app. cbn [total fst]. lia.
  - destruct (prev_free_snoc _ Ep) as (l1' & E1 & ->). rewrite E1 at 2.
    destruct (next_free_cons _ En) as (l2' & E2 & ->). rewrite E2 at 2.
    rewrite !allocs_app. cbn [allocs fst snd app total]. rewrite app_nil_r.
    apply f_equal. apply Hpos. rewrite total_app. cbn [total fst]. lia.
Qed.

Lemma placed_total (csize asize : Z) : total (placed csize asize) = csize.
Proof.
  unfold placed. destruct (16 <=? csize - asize); cbn [total fst]; lia.
Qed.

Lemma place_heap (s : state) (l1 l2 : list block) (csize asize : Z) :
  heap_wf s (l1 ++ (csize, false) :: l2) ->
  asize mod 8 = 0 -> 16 <= asize <= csize ->
  let q := heap_listp s + 8 + total l1 in
  let s' := place size_t_mod s q asize in
  heap_wf s' (l1 ++ placed csize asize ++ l2) /\
  same_outside (heap_mem s) (heap_mem s') (q - 4) (q + csize - 4) /\
  mem_max_addr s' = mem_max_addr s /\ heap_listp s' = heap_listp s /\
  mem_brk s' = mem_brk s.
Proof.
  intros H Ha8 Ha q s'.
  pose proof (heap_block_at _ _ _ _ H) as [Hh _]. fold q in Hh.
  pose proof (wf_sizes _ _ H) as Hsz.
  apply Forall_app in Hsz. destruct Hsz as [Hs1 Hsz].
  inversion Hsz as [| ? ? [Hc8 Hcl] Hs2]; subst. cbn [fst] in Hc8, Hcl.
  pose proof (size_ok_total _ Hs1) as [Ht1 _].
  pose proof (size_ok_total _ Hs2) as [Ht2 _].
  pose proof (heap_bound _ _ H) as Hbd. rewrite total_app in Hbd. cbn [total fst] in Hbd.
  pose proof (wf_base _ _ H) as [Hhl _].
  change (tag (csize, false)) with (csize + 0) in Hh. rewrite Z.add_0_r in Hh.
  unfold placed. destruct (Z.leb_spec 16 (csize - asize)) as [Hsp | Hns].
  - destruct (place_split s q csize asize Hh Hc8 ltac:(lia) Ha8 ltac:(lia) Hsp)
      as (Hb1 & Hb2 & Hfr & Hbk & Hmx & Hhp).
    fold s' in Hb1, Hb2, Hfr, Hbk, Hmx, Hhp.
    split; [| auto].
    apply (heap_wf_replace s s' l1 [(csize, false)]); auto.
    + cbn [total fst]. lia.
    + constructor; [split; [exact Ha8 | cbn [fst]; lia] |].
      constructor; [| constructor]. split; cbn [fst]; [| lia].
      Z.to_euclidean_division_equations; lia.
    + cbn [total fst]. fold q.
      eapply same_outside_weaken; [exact Hfr | lia | lia].
    + cbn [seg fst]. fold q. auto.
  - destruct (place_whole s q csize asize Hh Hc8 ltac:(lia) ltac:(lia) ltac:(lia) Hns)
      as (Hb1 & Hfr & Hbk & Hmx & Hhp).
    fold s' in Hb1, Hfr, Hbk, Hmx, Hhp.
    split; [| auto].
    apply (heap_wf_replace s s' l1 [(csize, false)]); auto.
    + constructor; [split; [exact Hc8 | exact Hcl] | constructor].
    + cbn [total fst]. fold q.
      eapply same_outside_weaken; [exact Hfr | lia | lia].
    + cbn [seg fst]. fold q. auto.
Qed.

Lemma placed_no_adj_free (l1 l2 : list block) (csize asize : Z) :
  no_adj_free (l1 ++ (csize, false) :: l2) = true ->
  no_adj_free (l1 ++ placed csize asize ++ l2) = true.
Proof.
  rewrite no_adj_free_app_cons. cbn [snd]. rewrite orb_false_r, orb_false_l.
  intros H. apply andb_prop in H. destruct H as [H Hn].
  apply andb_prop in H. destruct H as [H Hp].
  apply andb_prop in H. destruct H as [H1 H2].
  unfold placed. destruct (16 <=? csize - asize); cbn [app].
  - rewrite no_adj_free_app_cons. cbn [snd].
    change ((csize - asize, false) :: l2) with ([] ++ (csize - asize, false) :: l2).
    rewrite no_adj_free_app_cons. cbn [snd no_adj_free next_of hd prev_of last].
    rewrite H1, H2, Hn. destruct (snd (prev_of l1)); reflexivity.
  - rewrite no_adj_free_app_cons. cbn [snd].
    rewrite H1, H2. destruct (snd (prev_of l1)), (snd (next_of l2)); reflexivity.
Qed.

Lemma allocs_placed (bp : Z) (l1 l2 : list block) (csize asize : Z) :
  forall x,
    In x (allocs bp (l1 ++ placed csize asize ++ l2)) <->
    x = (bp + total l1, placed_size csize asize) \/
    In x (allocs bp (l1 ++ (csize, false) :: l2)).
Proof.
  intros x. rewrite !allocs_app. unfold placed, placed_size.
  destruct (16 <=? csize - asize); cbn [allocs total fst snd app];
    rewrite ?Z.add_0_r;
    try replace (bp + total l1 + (asize + (csize - asize)))
      with (bp + total l1 + csize) by lia;
    rewrite !in_app_iff; cbn [In]; intuition congruence.
Qed.

Lemma adjust_no_wrap (n : Z) :
  0 < n -> n + 15 < size_t_mod ->
  adjust size_t_mod n = (if n <=? 8 then 16 else 8 * ((n + 8 + 7) / 8)) /\
  adjust size_t_mod n mod 8 = 0 /\ 16 <= adjust size_t_mod n /\
  n + 8 <= adjust size_t_mod n < n + 16.
Proof.
  intros Hn Hw. unfold adjust, DSIZE, wrap.
  destruct (Z.leb_spec n 8) as [Hle | Hgt].
  - repeat split; try reflexivity; lia.
  - rewrite (Z.mod_small (n + 8)) by lia.
    rewrite (Z.mod_small (n + 8 + (8 - 1))) by lia.
    rewrite (Z.mod_small (8 * _)) by (Z.to_euclidean_division_equations; lia).
    repeat split; try reflexivity; Z.to_euclidean_division_equations; lia.
Qed.

Lemma allocs_bounds (bp : Z) (bs : list block) (p psz : Z) :
  Forall size_ok bs -> In (p, psz) (allocs bp bs) ->
  bp <= p /\ p + psz <= bp + total bs /\ 16 <= psz.
Proof.
  intros Hs Hin.
  pose proof (allocs_range bp bs p psz (Forall_size_ok_8 _ Hs) Hin) as [H1 H2].
  destruct (In_allocs_split _ _ _ _ Hin) as (l1 & l2 & -> & _).
  apply Forall_app in Hs. destruct Hs as [_ Hs].
  inversion Hs as [| ? ? [_ Hb] _]; subst. cbn [fst] in Hb. auto.
Qed.

Lemma MAX_max (x y : Z) : MAX x y = Z.max x y.
Proof. unfold MAX. destruct (Z.gtb_spec x y); lia. Qed.

Lemma mm_malloc_fit (s : state) (bs : list block) (n q : Z) :
  heap_ok s bs -> 0 < n -> n + 15 < size_t_mod ->
  first_fit (heap_listp s + 8) bs (adjust size_t_mod n) = At q ->
  exists s' bs' sz,
    mm_malloc size_t_mod s n = Some (s', At q) /\ malloc_post size_t_mod s bs n s' q bs' sz.
Proof.
  intros [Hwf Hnaf] Hn Hw Hff.
  destruct (adjust_no_wrap n Hn Hw) as (_ & Ha8 & Ha16 & Han).
  set (asize := adjust size_t_mod n) in *.
  destruct (first_fit_found _ _ _ _ Hff) as (l1 & [csize al] & l2 & E & Hq & Hfree & Hfit & _).
  cbn [fst snd] in Hfree, Hfit. subst al bs q.
  pose proof (place_heap s l1 l2 csize asize Hwf Ha8 ltac:(lia)) as Hp.
  cbv zeta in Hp.
  destruct Hp as (Hwf' & Hfr & Hmx & Hhp & Hbk).
  exists (place size_t_mod s (heap_listp s + 8 + total l1) asize), (l1 ++ placed csize asize ++ l2),
    (placed_size csize asize).
  split.
  - unfold mm_malloc. destruct (Z.eqb_spec n 0); [lia |].
    rewrite (find_fit_heap s _ _ Hwf). fold asize. rewrite Hff. reflexivity.
  - pose proof (wf_sizes _ _ Hwf) as Hs.
    assert (Hs' := Hs). apply Forall_app in Hs'. destruct Hs' as [Hs1 Hs2].
    inversion Hs2 as [| ? ? _ Hs3]; subst.
    constructor; auto.
    + split; [exact Hwf' | apply placed_no_adj_free, Hnaf].
    + intros x. apply allocs_placed.
    + intros psz Hin. rewrite allocs_app in Hin. cbn [allocs snd app] in Hin.
      apply in_app_or in Hin. destruct Hin as [Hin | Hin].
      * apply (allocs_bounds _ _ _ _ Hs1) in Hin. lia.
      * apply (allocs_bounds _ _ _ _ Hs3) in Hin. cbn [fst] in Hin. lia.
    + unfold placed_size. destruct (Z.leb_spec 16 (csize - asize)); lia.
    + intros p psz Hin a Ha. apply Hfr.
      rewrite allocs_app in Hin. cbn [allocs snd app] in Hin.
      apply in_app_or in Hin. destruct Hin as [Hin | Hin].
      * apply (allocs_bounds _ _ _ _ Hs1) in Hin. lia.
      * apply (allocs_bounds _ _ _ _ Hs3) in Hin. cbn [fst] in Hin. lia.
    + lia.
Qed.

Lemma extend_size_chunk (asize : Z) :
  asize mod 8 = 0 -> 16 <= asize < size_t_mod ->
  let words := MAX asize CHUNKSIZE / WSIZE in
  words mod 2 = 0 /\ 4 <= words /\ words * 4 = Z.max asize 4096 /\
  extend_size size_t_mod words = Z.max asize 4096.
Proof.
  intros H8 Hr words. unfold words, extend_size. rewrite MAX_max.
  change CHUNKSIZE with 4096. unfold WSIZE.
  assert (Hm : Z.max asize 4096 mod 8 = 0)
    by (destruct (Z.max_spec asize 4096) as [[_ ->] | [_ ->]]; auto).
  assert (Hw : Z.max asize 4096 / 4 * 4 = Z.max asize 4096)
    by (Z.to_euclidean_division_equations; lia).
  assert (He : (Z.max asize 4096 / 4) mod 2 = 0)
    by (Z.to_euclidean_division_equations; lia).
  rewrite He. cbn [Z.eqb negb]. rewrite Hw. unfold wrap.
  rewrite Z.mod_small by lia. repeat split; lia.
Qed.

Lemma mm_malloc_grow (s : state) (bs : list block) (n : Z) :
  heap_ok s bs -> 0 < n -> n + 15 < size_t_mod ->
  first_fit (heap_listp s + 8) bs (adjust size_t_mod n) = NULL ->
  mem_brk s + Z.max (adjust size_t_mod n) 4096 <= mem_max_addr s ->
  exists s' q bs' sz,
    mm_malloc size_t_mod s n = Some (s', At q) /\ malloc_post size_t_mod s bs n s' q bs' sz.
Proof.
  intros [Hwf Hnaf] Hn Hw Hff Hroom.
  destruct (adjust_no_wrap n Hn Hw) as (_ & Ha8 & Ha16 & Han).
  set (asize := adjust size_t_mod n) in *.
  destruct (extend_size_chunk asize Ha8 ltac:(lia)) as (Hev & Hw4 & Hws & Hes).
  set (words := MAX asize CHUNKSIZE / WSIZE) in *.
  pose proof (extend_heap_heap s bs words Hwf Hev Hw4 ltac:(lia)) as He.
  cbv zeta in He. rewrite Hws in He.
  set (size := Z.max asize 4096) in *.
  set (l1 := if snd (prev_of bs) then bs else removelast bs) in *.
  set (r := heap_listp s + 8 + total l1) in *.
  set (csize := merged_size size (fst (prev_of bs)) (snd (prev_of bs)) 0 true) in *.
  destruct (extend_heap size_t_mod s words) as [s1 r1] eqn:Ee. cbn [fst snd] in He.
  destruct He as (-> & Hwf1 & Hblk & Hfr1 & Hle & Hrn & Hmx1 & Hhp1).
  assert (Hcl : coalesce_list bs size [] = l1 ++ (csize, false) :: []) by reflexivity.
  rewrite Hcl in Hwf1.
  pose proof (place_heap s1 l1 [] csize asize Hwf1 Ha8 ltac:(lia)) as Hp.
  cbv zeta in Hp. rewrite Hhp1 in Hp. fold r in Hp.
  destruct Hp as (Hwf' & Hfr & Hmx & Hhp & Hbk).
  exists (place size_t_mod s1 r asize), r, (l1 ++ placed csize asize ++ []),
    (placed_size csize asize).
  split.
  - unfold mm_malloc. destruct (Z.eqb_spec n 0); [lia |].
    rewrite (find_fit_heap s _ _ Hwf). fold asize. rewrite Hff.
    fold words. rewrite Ee. reflexivity.
  - pose proof (wf_sizes _ _ Hwf) as Hs.
    pose proof (wf_sizes _ _ Hwf1) as Hs1. apply Forall_app in Hs1.
    destruct Hs1 as [Hsl1 _].
    assert (Hal : allocs (heap_listp s + 8) bs
                  = allocs (heap_listp s + 8) (l1 ++ (csize, false) :: [])).
    { rewrite <- Hcl, allocs_coalesce_list, allocs_app.
      cbn [allocs snd app]. rewrite app_nil_r. reflexivity. }
    assert (Hbelow : forall p psz, In (p, psz) (allocs (heap_listp s + 8) bs) ->
                     p + psz <= r /\ 16 <= psz).
    { intros p psz Hin. rewrite Hal, allocs_app in Hin. cbn [allocs snd app] in Hin.
      rewrite app_nil_r in Hin. apply (allocs_bounds _ _ _ _ Hsl1) in Hin.
      unfold r. lia. }
    constructor.
    + split; [exact Hwf' |]. apply placed_no_adj_free.
      change (no_adj_free (coalesce_list bs size []) = true).
      apply coalesce_list_no_adj_free; [exact Hnaf | reflexivity].
    + intros x. rewrite Hal. apply allocs_placed.
    + intros psz Hin. apply Hbelow in Hin. lia.
    + unfold placed_size. destruct (Z.leb_spec 16 (csize - asize)); lia.
    + intros p psz Hin a Ha. pose proof (Hbelow _ _ Hin) as Hb.
      rewrite Hfr by lia. apply Hfr1. lia.
    + exact Hhp.
    + rewrite Hmx. exact Hmx1.
    + rewrite Hbk. rewrite (wf_brk _ _ Hwf1), Hhp1.
      rewrite total_app. cbn [total fst]. fold r. lia.
Qed.

(** [mm_malloc] on a heap that satisfies the invariants, for a request
    whose adjusted size does not wrap: either no block fits and the arena
    cannot grow, and [NULL] comes back with the state untouched, or a
    block is handed out and the invariants hold again. *)
Lemma mm_malloc_heap (s : state) (bs : list block) (n : Z) :
  heap_ok s bs -> 0 < n -> n + 15 < size_t_mod ->
  (mm_malloc size_t_mod s n = Some (s, NULL) /\
   first_fit (heap_listp s + 8) bs (adjust size_t_mod n) = NULL /\
   mem_max_addr s < mem_brk s + Z.max (adjust size_t_mod n) 4096) \/
  (exists s' q bs' sz,
     mm_malloc size_t_mod s n = Some (s', At q) /\ malloc_post size_t_mod s bs n s' q bs' sz).
Proof.
  intros Hok Hn Hw.
  destruct (first_fit (heap_listp s + 8) bs (adjust size_t_mod n)) as [| q] eqn:Hff.
  - destruct (Z.le_gt_cases (mem_brk s + Z.max (adjust size_t_mod n) 4096)
                            (mem_max_addr s)) as [Hroom | Hfull].
    + right. apply mm_malloc_grow; assumption.
    + left. split; [| split; [reflexivity | lia]].
      destruct (adjust_no_wrap n Hn Hw) as (_ & Ha8 & Ha16 & Han).
      destruct (extend_size_chunk _ Ha8 ltac:(lia)) as (_ & _ & _ & Hes).
      unfold mm_malloc. destruct (Z.eqb_spec n 0); [lia |].
      rewrite (find_fit_heap s _ _ (proj1 Hok)), Hff.
      rewrite extend_heap_fails by (rewrite Hes; lia). reflexivity.
  - right. destruct (mm_malloc_fit s bs n q Hok Hn Hw Hff) as (s' & bs' & sz & H1 & H2).
    exists s', q, bs', sz. auto.
Qed.

Lemma mm_init_heap (s : state) :
  0 <= mem_brk s -> mem_brk s mod 8 = 0 ->
  mem_brk s + 16 + 4096 <= mem_max_addr s < 4294967296 ->
  let s' := fst (mm_init size_t_mod s) in
  snd (mm_init size_t_mod s) = 0 /\
  heap_ok s' [(4096, false)] /\
  heap_listp s' = mem_brk s + 8 /\ mem_max_addr s' = mem_max_addr s.
Proof.
  intros H0 H8 Hmax s'. unfold s', mm_init, mem_sbrk.
  destruct (Z.leb_spec (mem_brk s + 4 * WSIZE) (mem_max_addr s)) as [_ | Hgt];
    [| unfold WSIZE in Hgt; lia].
  cbn [heap_mem mem_brk mem_max_addr heap_listp].
  change (PACK DSIZE 1) with 9. change (PACK 0 1) with 1. unfold WSIZE.
  set (p := mem_brk s) in *.
  set (m4 := PUT (PUT (PUT (PUT (heap_mem s) p 0) (p + 1 * 4) 9) (p + 2 * 4) 9)
                 (p + 3 * 4) 1).
  set (s2 := mkState m4 (p + 4 * 4) (mem_max_addr s) (p + 2 * 4)).
  assert (H2 : heap_wf s2 []).
  { constructor; unfold s2; cbn [heap_mem mem_brk mem_max_addr heap_listp total].
    - split; [lia | Z.to_euclidean_division_equations; lia].
    - cbn [seg fst]. split; [| exact I]. unfold block_at, HDRP, WSIZE, DSIZE.
      cbn [fst]. unfold m4. split.
      + rewrite !GET_PUT_other by lia. apply GET_PUT_eq; [lia | cbn; lia].
      + rewrite !GET_PUT_other by lia. apply GET_PUT_eq; [lia | cbn; lia].
    - constructor.
    - unfold HDRP, WSIZE, m4. apply GET_PUT_eq; lia.
    - lia.
    - lia. }
  change (CHUNKSIZE / 4) with 1024.
  pose proof (extend_heap_heap s2 [] 1024 H2 eq_refl ltac:(lia)
                ltac:(unfold s2; cbn; lia)) as He.
  cbv zeta in He.
  destruct (extend_heap size_t_mod s2 1024) as [s3 r3] eqn:Ee. cbn [fst snd] in He.
  destruct He as (-> & Hwf & _ & _ & _ & _ & Hmx & Hhp).
  cbn [fst snd]. split; [reflexivity |]. split; [split; [exact Hwf | reflexivity] |].
  split.
  - rewrite Hhp. unfold s2. cbn. lia.
  - rewrite Hmx. reflexivity.
Qed.

Lemma mm_free_ok (s : state) (l1 l2 : list block) (sz : Z) :
  heap_ok s (l1 ++ (sz, true) :: l2) ->
  heap_ok (mm_free size_t_mod s (heap_listp s + 8 + total l1)) (coalesce_list l1 sz l2).
Proof.
  intros [Hwf Hnaf]. split.
  - apply (mm_free_heap s l1 l2 sz Hwf).
  - rewrite no_adj_free_app_cons in Hnaf.
    apply andb_prop in Hnaf. destruct Hnaf as [Hnaf _].
    apply andb_prop in Hnaf. destruct Hnaf as [Hnaf _].
    apply andb_prop in Hnaf. destruct Hnaf as [H1 H2].
    apply coalesce_list_no_adj_free; assumption.
Qed.

Lemma memcpy_loop_outside (k : nat) (m : mem) (dst src a : Z) :
  a < dst \/ dst + Z.of_nat k <= a ->
  load8 (memcpy_loop k m dst src) a = load8 m a.
Proof.
  revert m dst src. induction k as [| k IH]; intros m dst src Ha.
  - reflexivity.
  - cbn [memcpy_loop]. rewrite IH by lia.
    apply load8_store8_other. lia.
Qed.

Lemma memcpy_loop_inside (k : nat) (m : mem) (dst src i : Z) :
  dst + Z.of_nat k <= src \/ src + Z.of_nat k <= dst ->
  0 <= i < Z.of_nat k ->
  load8 (memcpy_loop k m dst src) (dst + i) = load8 m (src + i).
Proof.
  revert m dst src i. induction k as [| k IH]; intros m dst src i Hd Hi.
  - simpl in Hi. lia.
  - cbn [memcpy_loop]. destruct (Z.eq_dec i 0) as [-> | Hne].
    + rewrite !Z.add_0_r. rewrite memcpy_loop_outside by lia.
      rewrite load8_store8_same. apply Z.mod_small, load8_range.
    + replace (dst + i) with (dst + 1 + (i - 1)) by lia.
      rewrite IH by lia.
      replace (src + 1 + (i - 1)) with (src + i) by lia.
      apply load8_store8_other. lia.
Qed.

(** [memcpy] between regions that do not overlap copies exactly [n]
    bytes: the destination range receives the source bytes and every
    other byte keeps its value. *)
Lemma memcpy_spec (m : mem) (dst src n a : Z) :
  0 <= n -> dst + n <= src \/ src + n <= dst ->
  load8 (memcpy m dst src n) a =
  if (dst <=? a) && (a <? dst + n) then load8 m (src + (a - dst)) else load8 m a.
Proof.
  intros Hn Hd. unfold memcpy.
  destruct (Z.leb_spec dst a); destruct (Z.ltb_spec a (dst + n)); cbn [andb].
  - replace a with (dst + (a - dst)) at 1 by lia.
    apply memcpy_loop_inside; rewrite Z2Nat.id; lia.
  - apply memcpy_loop_outside. rewrite Z2Nat.id; lia.
  - apply memcpy_loop_outside. lia.
  - apply memcpy_loop_outside. lia.
Qed.

(** Bytes written inside the payload of a block leave the heap well
    formed. *)
Lemma payload_write_wf (s : state) (m' : mem) (l1 l2 : list block) (b : block) :
  heap_wf s (l1 ++ b :: l2) ->
  let q := heap_listp s + 8 + total l1 in
  same_outside (heap_mem s) m' q (q + fst b - 8) ->
  heap_wf (set_mem s m') (l1 ++ b :: l2).
Proof.
  intros H q Hfr.
  pose proof (heap_block_at _ _ _ _ H) as Hb. fold q in Hb.
  pose proof (wf_sizes _ _ H) as Hs. apply Forall_app in Hs. destruct Hs as [_ Hs].
  inversion Hs as [| ? ? [Hb8 Hbl] _]; subst.
  apply (heap_wf_replace s (set_mem s m') l1 [b] [b] l2); auto.
  - constructor; [split; assumption | constructor].
  - cbn [total]. fold q. cbn [set_mem heap_mem].
    eapply same_outside_weaken; [exact Hfr | lia | lia].
  - cbn [seg set_mem heap_mem]. fold q. split; [| exact I].
    destruct Hb as [Hh Hf]. unfold block_at, HDRP, WSIZE, DSIZE in *.
    rewrite !(same_outside_GET _ _ _ _ _ Hfr) by lia. auto.
Qed.

Lemma walk_seg (fuel : nat) (m : mem) (bp : Z) (bs : list block) :
  seg m bp bs ->
  Forall (fun b => fst b mod 8 = 0 /\ 8 <= fst b) bs ->
  GET m (HDRP (bp + total bs)) = 1 ->
  (length bs < fuel)%nat ->
  walk fuel m bp = bs.
Proof.
  revert fuel bp. induction bs as [| b r IH]; intros fuel bp Hseg Hs He Hf.
  - destruct fuel as [| k]; [simpl in Hf; lia |].
    cbn [walk total] in *. rewrite Z.add_0_r in He.
    rewrite (GET_SIZE_tag _ _ (0, true)) by (try rewrite He; reflexivity).
    reflexivity.
  - destruct fuel as [| k]; [simpl in Hf; lia |].
    cbn [seg total length] in Hseg, He, Hf. destruct Hseg as [[Hh _] Hseg].
    inversion Hs as [| ? ? [Hb8 Hb] Hr]; subst.
    cbn [walk].
    rewrite (GET_SIZE_tag _ _ b Hh Hb8), (GET_ALLOC_tag _ _ b Hh Hb8).
    destruct (Z.gtb_spec (fst b) 0); [| lia].
    unfold NEXT_BLKP. fold (HDRP bp). rewrite (GET_SIZE_tag _ _ b Hh Hb8).
    rewrite IH; auto.
    + destruct b as [sz [|]]; reflexivity.
    + replace (bp + fst b + total r) with (bp + (fst b + total r)) by lia. exact He.
    + lia.
Qed.

Lemma heap_blocks_wf (s : state) (bs : list block) :
  heap_wf s bs -> heap_blocks s = (8, true) :: bs.
Proof.
  intros H. unfold heap_blocks. apply walk_seg.
  - apply (wf_seg _ _ H).
  - apply (heap_wf_all8 _ _ H).
  - cbn [total fst]. replace (heap_listp s + (8 + total bs))
      with (heap_listp s + 8 + total bs) by lia. apply (wf_epilogue _ _ H).
  - pose proof (length_le_total ((8, true) :: bs)) as Hl.
    assert (Forall (fun b : block => 8 <= fst b) ((8, true) :: bs)) as H8.
    { eapply Forall_impl; [| apply (heap_wf_all8 _ _ H)]. intros b [_ Hb]. exact Hb. }
    specialize (Hl H8). cbn [total fst] in Hl.
    destruct (wf_base _ _ H) as [Hb _]. rewrite (wf_brk _ _ H).
    apply Nat2Z.inj_lt. rewrite Z2Nat.id; lia.
Qed.

Lemma heap_ok_walk (s : state) (bs : list block) :
  heap_ok s bs -> no_adj_free (heap_blocks s) = true.
Proof.
  intros [Hwf Hnaf]. rewrite (heap_blocks_wf _ _ Hwf).
  change ((8, true) :: bs) with ([] ++ (8, true) :: bs).
  rewrite no_adj_free_app_cons. cbn [no_adj_free snd orb andb].
  rewrite Hnaf, orb_true_r. reflexivity.
Qed.

Lemma allocs_disjoint (bp : Z) (bs : list block) (p psz q qsz : Z) :
  Forall size_ok bs ->
  In (p, psz) (allocs bp bs) -> In (q, qsz) (allocs bp bs) ->
  (p, psz) = (q, qsz) \/ p + psz <= q \/ q + qsz <= p.
Proof.
  intros Hs. revert bp. induction Hs as [| b r Hb Hr IH]; intros bp; cbn [allocs].
  - intros [].
  - intros Hp Hq. apply in_app_or in Hp. apply in_app_or in Hq.
    assert (Hhead : forall x xsz, In (x, xsz) (if snd b then [(bp, fst b)] else []) ->
                                  x = bp /\ xsz = fst b).
    { intros x xsz Hin. destruct (snd b); [| destruct Hin].
      destruct Hin as [[= <- <-] | []]. auto. }
    destruct Hp as [Hp | Hp]; destruct Hq as [Hq | Hq].
    + apply Hhead in Hp, Hq. destruct Hp as [-> ->], Hq as [-> ->]. auto.
    + apply Hhead in Hp. destruct Hp as [-> ->].
      apply (allocs_bounds _ _ _ _ Hr) in Hq. right. left. lia.
    + apply Hhead in Hq. destruct Hq as [-> ->].
      apply (allocs_bounds _ _ _ _ Hr) in Hp. right. right. lia.
    + eapply IH; eassumption.
Qed.

(** The allocated blocks of a heap, apart from the one released, lie
    outside the free block that [mm_free] leaves. *)
Lemma allocs_around_free (bp : Z) (l1 l2 : list block) (sz q qsz : Z) :
  Forall size_ok (l1 ++ (sz, true) :: l2) ->
  In (q, qsz) (allocs bp (l1 ++ (sz, true) :: l2)) ->
  let l1' := if snd (prev_of l1) then l1 else removelast l1 in
  let n := merged_size sz (fst (prev_of l1)) (snd (prev_of l1))
             (fst (next_of l2)) (snd (next_of l2)) in
  (q, qsz) = (bp + total l1, sz) \/
  q + qsz <= bp + total l1' \/ bp + total l1' + n <= q.
Proof.
  intros Hs Hin l1' n.
  apply Forall_app in Hs. destruct Hs as [Hs1 Hs2].
  inversion Hs2 as [| ? ? _ Hs3]; subst.
  rewrite allocs_app in Hin. cbn [allocs snd fst app] in Hin.
  apply in_app_or in Hin. destruct Hin as [Hin | [Hin | Hin]].
  - right. left. unfold l1'. destruct (snd (prev_of l1)) eqn:Ep.
    + apply (allocs_bounds _ _ _ _ Hs1) in Hin. lia.
    + destruct (prev_free_snoc _ Ep) as (l0 & E1 & ->).
      rewrite E1 in Hin, Hs1. apply Forall_app in Hs1. destruct Hs1 as [Hs0 _].
      rewrite allocs_app in Hin. cbn [allocs snd app] in Hin.
      rewrite app_nil_r in Hin.
      apply (allocs_bounds _ _ _ _ Hs0) in Hin. lia.
  - left. symmetry. exact Hin.
  - right. right.
    assert (Ht : bp + total l1' + n = bp + total l1 + sz
                 + (if snd (next_of l2) then 0 else fst (next_of l2))).
    { unfold l1', n, merged_size. destruct (snd (prev_of l1)) eqn:Ep.
      - lia.
      - destruct (prev_free_snoc _ Ep) as (l0 & E1 & ->).
        assert (Et : total l1 = total l0 + fst (prev_of l1))
          by (rewrite E1 at 1; rewrite total_app; cbn [total fst]; lia).
        lia. }
    rewrite Ht. destruct (snd (next_of l2)) eqn:En.
    + apply (allocs_bounds _ _ _ _ Hs3) in Hin. lia.
    + destruct (next_free_cons _ En) as (l2' & E2 & _).
      rewrite E2 in Hin, Hs3. inversion Hs3 as [| ? ? _ Hs4]; subst.
      cbn [allocs snd fst app] in Hin.
      apply (allocs_bounds _ _ _ _ Hs4) in Hin. lia.
Qed.

Lemma mm_free_frame (s : state) (l1 l2 : list block) (sz q qsz a : Z) :
  heap_wf s (l1 ++ (sz, true) :: l2) ->
  let p := heap_listp s + 8 + total l1 in
  In (q, qsz) (allocs (heap_listp s + 8) (l1 ++ (sz, true) :: l2)) ->
  q <> p -> q - 4 <= a < q + qsz - 4 ->
  load8 (heap_mem (mm_free size_t_mod s p)) a = load8 (heap_mem s) a.
Proof.
  intros H p Hin Hne Ha.
  pose proof (mm_free_heap s l1 l2 sz H) as (_ & _ & Hfr & _). fold p in Hfr.
  pose proof (allocs_around_free _ _ _ _ _ _ (wf_sizes _ _ H) Hin) as Hpos.
  cbv zeta in Hpos. apply Hfr.
  destruct Hpos as [[= Hq _] | [Hpos | Hpos]]; [unfold p in Hne; lia | lia | lia].
Qed.

Lemma mm_realloc_heap (s : state) (bs : list block) (p psz n : Z) :
  heap_ok s bs -> In (p, psz) (allocs (heap_listp s + 8) bs) ->
  0 < n -> n + 15 < size_t_mod ->
  mm_realloc size_t_mod s (At p) n = Some (s, NULL) \/
  (exists s' q bs',
     mm_realloc size_t_mod s (At p) n = Some (s', At q) /\
     heap_ok s' bs' /\ heap_listp s' = heap_listp s /\
     (forall i, 0 <= i < Z.min n (psz - 8) ->
                load8 (heap_mem s') (q + i) = load8 (heap_mem s) (p + i))).
Proof.
  intros Hok Hp Hn Hw.
  destruct (mm_malloc_heap s bs n Hok Hn Hw) as [(Hm & _) | (s1 & q & bs1 & sz & Hm & Hpost)].
  - left. unfold mm_realloc. destruct (Z.eqb_spec n 0); [lia |]. rewrite Hm. reflexivity.
  - right. destruct Hpost as [[Hwf1 Hnaf1] Hal Hfresh Hsize Hframe Hhl1 Hmx1 Hbk1].
    destruct (adjust_no_wrap n Hn Hw) as (_ & _ & _ & Han).
    assert (Hp1 : In (p, psz) (allocs (heap_listp s1 + 8) bs1))
      by (rewrite Hhl1; apply Hal; right; exact Hp).
    assert (Hq1 : In (q, sz) (allocs (heap_listp s1 + 8) bs1))
      by (rewrite Hhl1; apply Hal; left; reflexivity).
    assert (Hpq : p <> q) by (intros ->; apply (Hfresh psz); exact Hp).
    pose proof (allocs_bounds _ _ _ _ (wf_sizes _ _ Hwf1) Hp1) as (Hpl & Hpu & Hp16).
    pose proof (heap_bound _ _ Hwf1) as Hbd.
    pose proof (wf_base _ _ Hwf1) as [Hb1 _].
    destruct (allocs_disjoint _ _ _ _ _ _ (wf_sizes _ _ Hwf1) Hp1 Hq1)
      as [[= Hc _] | Hdis]; [congruence |].
    destruct (In_allocs_split _ _ _ _ Hp1) as (c1 & c2 & Ec & Epc).
    destruct (In_allocs_split _ _ _ _ Hq1) as (a1 & a2 & Ea & Eqa).
    assert (Hwf1c : heap_wf s1 (c1 ++ (psz, true) :: c2)) by (rewrite <- Ec; exact Hwf1).
    assert (Hbp : block_at (heap_mem s1) p (psz, true))
      by (rewrite Epc; apply (heap_block_at s1 c1 c2 _ Hwf1c)).
    assert (Hgs : GET_SIZE (heap_mem s1) (HDRP p) = psz).
    { apply (GET_SIZE_tag _ _ (psz, true)); [apply Hbp |].
      pose proof (wf_sizes _ _ Hwf1) as Hs. rewrite Ec in Hs.
      apply Forall_app in Hs. destruct Hs as [_ Hs].
      inversion Hs as [| ? ? [H8 _] _]; subst. exact H8. }
    set (k := Z.min n (psz - 8)).
    assert (Hk : (if n <? wrap size_t_mod (wrap32 (psz - DSIZE)) then n
                  else wrap size_t_mod (wrap32 (psz - DSIZE))) = k).
    { unfold DSIZE, wrap32. rewrite (Z.mod_small (psz - 8)) by lia.
      rewrite wrap_small by lia. unfold k.
      destruct (Z.ltb_spec n (psz - 8)); lia. }
    set (m2 := memcpy (heap_mem s1) q p k).
    set (s2 := set_mem s1 m2).
    assert (Hcp : forall a, load8 m2 a =
                            if (q <=? a) && (a <? q + k)
                            then load8 (heap_mem s1) (p + (a - q))
                            else load8 (heap_mem s1) a).
    { intros a. unfold m2. apply memcpy_spec; unfold k; lia. }
    assert (Hfr2 : same_outside (heap_mem s1) m2 q (q + sz - 8)).
    { intros a Ha. rewrite Hcp.
      destruct (Z.leb_spec q a); destruct (Z.ltb_spec a (q + k)); cbn [andb];
        try reflexivity. unfold k in *. lia. }
    assert (Hwf2 : heap_wf s2 bs1).
    { assert (Hwf1a : heap_wf s1 (a1 ++ (sz, true) :: a2)) by (rewrite <- Ea; exact Hwf1).
      rewrite Ea. apply (payload_write_wf s1 m2 a1 a2 (sz, true) Hwf1a).
      cbn [fst]. rewrite <- Eqa. exact Hfr2. }
    assert (Hok2 : heap_ok s2 (c1 ++ (psz, true) :: c2))
      by (rewrite <- Ec; split; assumption).
    pose proof (mm_free_ok s2 c1 c2 psz Hok2) as Hok3.
    change (heap_listp s2) with (heap_listp s1) in Hok3. rewrite <- Epc in Hok3.
    exists (mm_free size_t_mod s2 p), q, (coalesce_list c1 psz c2).
    split; [| split; [exact Hok3 | split]].
    + unfold mm_realloc. destruct (Z.eqb_spec n 0); [lia |]. rewrite Hm.
      rewrite Hgs, Hk. reflexivity.
    + pose proof (mm_free_heap s2 c1 c2 psz (proj1 Hok2)) as (_ & _ & _ & _ & _ & Hl & _).
      change (heap_listp s2) with (heap_listp s1) in Hl. rewrite <- Epc in Hl.
      rewrite Hl. exact Hhl1.
    + intros i Hi.
      assert (Hq2 : In (q, sz) (allocs (heap_listp s2 + 8) (c1 ++ (psz, true) :: c2)))
        by (rewrite <- Ec; exact Hq1).
      pose proof (mm_free_frame s2 c1 c2 psz q sz (q + i) (proj1 Hok2) Hq2) as Hff.
      cbv zeta in Hff. change (heap_listp s2) with (heap_listp s1) in Hff.
      rewrite <- Epc in Hff. rewrite Hff by (unfold k in *; lia).
      change (heap_mem s2) with m2. rewrite Hcp.
      destruct (Z.leb_spec q (q + i)); [| lia].
      destruct (Z.ltb_spec (q + i) (q + k)); [| unfold k in *; lia]. cbn [andb].
      replace (p + (q + i - q)) with (p + i) by lia.
      apply (Hframe p psz Hp). unfold k in *. lia.
Qed.

End Properties.

(** ** Alignment

    Alignment of the pointers handed out needs nothing of the heap but
    the alignment of [heap_listp] and of the break: every step of every
    traversal adds or subtracts a [GET_SIZE], a multiple of 8 whatever
    the word read. *)

Section Alignment.

Variable size_t_mod : Z.
Hypothesis size_t_eights : size_t_mod mod 8 = 0.

Lemma NEXT_BLKP_aligned (m : mem) (bp : Z) : bp mod 8 = 0 -> NEXT_BLKP m bp mod 8 = 0.
Proof.
  intros H. unfold NEXT_BLKP. destruct (GET_SIZE_range m (bp - WSIZE)) as [_ H8].
  Z.to_euclidean_division_equations. lia.
Qed.

Lemma PREV_BLKP_aligned (m : mem) (bp : Z) : bp mod 8 = 0 -> PREV_BLKP m bp mod 8 = 0.
Proof.
  intros H. unfold PREV_BLKP. destruct (GET_SIZE_range m (bp - DSIZE)) as [_ H8].
  Z.to_euclidean_division_equations. lia.
Qed.

Lemma find_fit_loop_aligned (fuel : nat) (m : mem) (asize bp q : Z) :
  bp mod 8 = 0 -> find_fit_loop fuel m asize bp = Some (At q) -> q mod 8 = 0.
Proof.
  revert bp. induction fuel as [| k IH]; intros bp Hbp; cbn [find_fit_loop].
  - discriminate.
  - destruct (GET_SIZE m (HDRP bp) >? 0); [| discriminate].
    destruct ((GET_ALLOC m (HDRP bp) =? 0) && (asize <=? GET_SIZE m (HDRP bp))).
    + intros [= <-]. exact Hbp.
    + apply IH. apply NEXT_BLKP_aligned, Hbp.
Qed.

Lemma coalesce_fields (s : state) (bp : Z) :
  let s' := fst (coalesce size_t_mod s bp) in
  mem_brk s' = mem_brk s /\ mem_max_addr s' = mem_max_addr s /\
  heap_listp s' = heap_listp s.
Proof.
  unfold coalesce.
  repeat match goal with |- context [if ?c then _ else _] => destruct c end;
    cbn; auto.
Qed.

Lemma coalesce_aligned (s : state) (bp : Z) :
  bp mod 8 = 0 -> snd (coalesce size_t_mod s bp) mod 8 = 0.
Proof.
  intros H. unfold coalesce.
  repeat match goal with |- context [if ?c then _ else _] => destruct c end;
    cbn [snd]; auto using PREV_BLKP_aligned.
Qed.

Lemma place_fields (s : state) (bp asize : Z) :
  let s' := place size_t_mod s bp asize in
  mem_brk s' = mem_brk s /\ mem_max_addr s' = mem_max_addr s /\
  heap_listp s' = heap_listp s.
Proof.
  unfold place. destruct (_ >=? _); cbn; auto.
Qed.

Lemma mm_free_fields (s : state) (p : Z) :
  let s' := mm_free size_t_mod s p in
  mem_brk s' = mem_brk s /\ mem_max_addr s' = mem_max_addr s /\
  heap_listp s' = heap_listp s.
Proof.
  unfold mm_free. apply (coalesce_fields (set_mem s _) p).
Qed.

Lemma wrap_eights (x : Z) : x mod 8 = 0 -> wrap size_t_mod x mod 8 = 0.
Proof.
  intros H. unfold wrap. Z.to_euclidean_division_equations. lia.
Qed.

Lemma extend_size_aligned (words : Z) : extend_size size_t_mod words mod 8 = 0.
Proof.
  unfold extend_size, WSIZE.
  destruct (Z.eqb_spec (words mod 2) 0) as [He | Ho]; cbn [negb].
  - apply wrap_eights. Z.to_euclidean_division_equations. lia.
  - apply wrap_eights.
    assert (H2 : wrap size_t_mod (words + 1) mod 2 = 0)
      by (unfold wrap; Z.to_euclidean_division_equations; lia).
    Z.to_euclidean_division_equations. lia.
Qed.

Lemma extend_heap_aligned (s s' : state) (words : Z) (r : ptr) :
  aligned s -> extend_heap size_t_mod s words = (s', r) ->
  aligned s' /\ forall q, r = At q -> q mod 8 = 0.
Proof.
  intros [Hl Hb]. unfold extend_heap. fold (extend_size size_t_mod words).
  pose proof (extend_size_aligned words) as He.
  unfold mem_sbrk. destruct (_ <=? _).
  - cbv zeta. cbn [heap_mem].
    match goal with |- context [coalesce _ ?st ?bp] =>
      pose proof (coalesce_fields st bp) as Hf;
      pose proof (coalesce_aligned st bp Hb) as Ha;
      destruct (coalesce size_t_mod st bp) as [s2 r2] end.
    cbn [fst snd set_mem mem_brk heap_listp mem_max_addr] in Hf, Ha.
    destruct Hf as (Hf1 & _ & Hf3).
    intros [= <- <-]. split.
    + split; [rewrite Hf3; exact Hl |]. rewrite Hf1.
      Z.to_euclidean_division_equations. lia.
    + intros q [= <-]. exact Ha.
  - intros [= <- <-]. split; [split; assumption | discriminate].
Qed.

Lemma mm_malloc_aligned (s s' : state) (n : Z) (r : ptr) :
  aligned s -> mm_malloc size_t_mod s n = Some (s', r) ->
  aligned s' /\ forall q, r = At q -> q mod 8 = 0.
Proof.
  intros Hal. unfold mm_malloc. destruct (n =? 0).
  - intros [= <- <-]. split; [exact Hal | discriminate].
  - unfold find_fit.
    destruct (find_fit_loop _ _ _ _) as [[| bp] |] eqn:Hff; [| | discriminate].
    + destruct (extend_heap _ _ _) as [s1 [| bp]] eqn:He.
      * intros [= <- <-]. apply (extend_heap_aligned _ _ _ _ Hal He).
      * intros [= <- <-].
        destruct (extend_heap_aligned _ _ _ _ Hal He) as [[Hl1 Hb1] Hq].
        destruct (place_fields s1 bp (adjust size_t_mod n)) as (Hp1 & _ & Hp3).
        split; [split; [rewrite Hp3 | rewrite Hp1]; assumption |].
        intros q [= <-]. apply Hq. reflexivity.
    + intros [= <- <-].
      destruct (place_fields s bp (adjust size_t_mod n)) as (Hp1 & _ & Hp3).
      destruct Hal as [Hl Hb].
      split; [split; [rewrite Hp3 | rewrite Hp1]; assumption |].
      intros q [= <-]. apply (find_fit_loop_aligned _ _ _ _ _ Hl Hff).
Qed.

Lemma mm_free_aligned (s : state) (p : Z) :
  aligned s -> aligned (mm_free size_t_mod s p).
Proof.
  intros [Hl Hb]. destruct (mm_free_fields s p) as (H1 & _ & H3).
  split; [rewrite H3 | rewrite H1]; assumption.
Qed.

Lemma mm_realloc_aligned (s s' : state) (p : ptr) (n : Z) (r : ptr) :
  aligned s -> mm_realloc size_t_mod s p n = Some (s', r) ->
  aligned s' /\ forall q, r = At q -> q mod 8 = 0.
Proof.
  intros Hal. unfold mm_realloc. destruct p as [| oldptr].
  - apply mm_malloc_aligned, Hal.
  - destruct (n =? 0).
    + intros [= <- <-]. split; [apply mm_free_aligned, Hal | discriminate].
    + destruct (mm_malloc size_t_mod s n) as [[s1 [| newptr]] |] eqn:Hm; [| | discriminate].
      * intros [= <- <-]. apply (mm_malloc_aligned _ _ _ _ Hal Hm).
      * intros [= <- <-].
        destruct (mm_malloc_aligned _ _ _ _ Hal Hm) as [Hal1 Hq].
        split; [| intros q [= <-]; apply Hq; reflexivity].
        apply mm_free_aligned. exact Hal1.
Qed.

Lemma mm_init_aligned (s : state) :
  mem_brk s mod 8 = 0 -> snd (mm_init size_t_mod s) = 0 ->
  aligned (fst (mm_init size_t_mod s)).
Proof.
  intros Hb. unfold mm_init, mem_sbrk. destruct (_ <=? _); [| cbn; discriminate].
  cbn [heap_mem mem_brk mem_max_addr heap_listp].
  match goal with |- context [extend_heap _ ?st ?w] =>
    assert (Ha : aligned st);
    [| destruct (extend_heap size_t_mod st w) as [s3 [| r]] eqn:He ] end.
  - split; cbn; unfold WSIZE; Z.to_euclidean_division_equations; lia.
  - cbn. discriminate.
  - intros _. cbn [fst]. apply (extend_heap_aligned _ _ _ _ Ha He).
Qed.

End Alignment.

(** * The claims *)

Lemma heap_init_wf : heap_wf heap_init [(4096, false)].
Proof. heap_wf_by_computation. Qed.

Lemma heap_init_ok : heap_ok heap_init [(4096, false)].
Proof. split; [exact heap_init_wf | reflexivity]. Qed.

Lemma heap_three_free_wf :
  heap_wf heap_three_free [(24, false); (24, false); (4048, false)].
Proof. heap_wf_by_computation. Qed.

Lemma M32_wide : 4294967296 <= M32.
Proof. unfold M32. lia. Qed.

(** C3.  For a free block [b] of a consistent heap, [coalesce] follows
    the four-case rule.  With [prev] the block just before [b] (the
    prologue when [b] is the first block) and [next] the one just after
    (the epilogue, allocated and of size 0, when [b] is the last): both
    allocated, it returns [b] and changes nothing; only [next] free, it
    returns [b] with size own + successor; only [prev] free, it returns
    the predecessor's address with size predecessor + own; both free,
    the predecessor's address with size predecessor + own + successor.
    In every case header and footer of the resulting block hold that
    size with the allocation bit clear. *)
Theorem coalesce_four_cases
    (size_t_mod : Z) (Hwide : 4294967296 <= size_t_mod)
    (s : state) (l1 l2 : list block) (sz : Z) :
  heap_wf s (l1 ++ (sz, false) :: l2) ->
  let bp := heap_listp s + 8 + total l1 in
  let prev := prev_of l1 in
  let next := next_of l2 in
  let s' := fst (coalesce size_t_mod s bp) in
  let r := snd (coalesce size_t_mod s bp) in
  match snd prev, snd next with
  | true, true =>
      r = bp /\ s' = s /\ block_at (heap_mem s') r (sz, false)
  | true, false =>
      r = bp /\ block_at (heap_mem s') r (sz + fst next, false)
  | false, true =>
      r = bp - fst prev /\ block_at (heap_mem s') r (sz + fst prev, false)
  | false, false =>
      r = bp - fst prev /\
      block_at (heap_mem s') r (fst prev + sz + fst next, false)
  end.
Proof.
  intros H bp prev next s' r.
  pose proof (heap_around _ _ _ _ H) as Har.
  pose proof (coalesce_spec size_t_mod Hwide s _ _ _ _ _ _ Har)
    as (Hr & Hblk & _ & Hid & _).
  fold bp prev next in Hr, Hblk, Hid. fold s' in Hblk, Hid. fold r in Hr.
  unfold merged_start, merged_size in Hr, Hblk.
  destruct (snd prev), (snd next); rewrite <- Hr in Hblk.
  - rewrite Z.add_0_l, Z.add_0_r in Hblk. auto.
  - rewrite Z.add_0_l in Hblk. auto.
  - rewrite Z.add_0_r, Z.add_comm in Hblk. auto.
  - auto.
Qed.

Lemma coalesce_four_cases_witness :
  snd (coalesce M32 heap_three_free 40) = 40 - 24 /\
  block_at (heap_mem (fst (coalesce M32 heap_three_free 40))) (40 - 24)
    (24 + 24 + 4048, false).
Proof.
  pose proof (coalesce_four_cases M32 M32_wide heap_three_free
                [(24, false)] [(4048, false)] 24 heap_three_free_wf) as H.
  cbv zeta in H.
  change (heap_listp heap_three_free + 8 + total [(24, false)]) with 40 in H.
  exact H.
Defined.

(** C4.  For a free block of size [csize] and a request [asize] (an
    adjusted size: a multiple of 8, at least 8) with [csize >= asize],
    [place] splits exactly when [csize - asize >= 16]: then the low
    [asize] bytes are an allocated block with its own header and footer
    and the remaining [csize - asize] bytes a free block right after it;
    otherwise the whole block of size [csize] is allocated.  No byte
    outside the block changes. *)
Theorem place_splits_iff_16
    (size_t_mod : Z) (Hwide : 4294967296 <= size_t_mod)
    (s : state) (bp csize asize : Z) :
  block_at (heap_mem s) bp (csize, false) ->
  csize mod 8 = 0 -> csize < 4294967296 ->
  asize mod 8 = 0 -> 8 <= asize <= csize ->
  let s' := place size_t_mod s bp asize in
  (if 16 <=? csize - asize
   then block_at (heap_mem s') bp (asize, true) /\
        block_at (heap_mem s') (bp + asize) (csize - asize, false)
   else block_at (heap_mem s') bp (csize, true)) /\
  same_outside (heap_mem s) (heap_mem s') (bp - 4) (bp + csize - 4) /\
  mem_brk s' = mem_brk s /\ heap_listp s' = heap_listp s.
Proof.
  intros [Hh _] Hc8 Hc Ha8 Ha s'.
  change (tag (csize, false)) with (csize + 0) in Hh. rewrite Z.add_0_r in Hh.
  destruct (Z.leb_spec 16 (csize - asize)) as [Hsp | Hns].
  - destruct (place_split size_t_mod Hwide s bp csize asize Hh Hc8 Hc Ha8
                ltac:(lia) Hsp) as (H1 & H2 & H3 & H4 & _ & H6).
    auto.
  - destruct (place_whole size_t_mod Hwide s bp csize asize Hh Hc8 Hc
                ltac:(lia) ltac:(lia) Hns) as (H1 & H3 & H4 & _ & H6).
    auto.
Qed.

Lemma place_splits_iff_16_witness :
  block_at (heap_mem (place M32 heap_init 16 24)) 16 (24, true) /\
  block_at (heap_mem (place M32 heap_init 16 24)) (16 + 24) (4096 - 24, false).
Proof.
  apply (place_splits_iff_16 M32 M32_wide heap_init 16 4096 24).
  - split; vm_compute; reflexivity.
  - reflexivity.
  - reflexivity.
  - reflexivity.
  - lia.
Defined.

(** C5.  On a consistent heap [find_fit] returns the first block, in
    address order, that is free and at least [asize] bytes long: every
    block before it is allocated or too small.  When no block before the
    epilogue qualifies it returns [NULL].  It returns a pointer and
    nothing else: no state comes back from the scan, as the C function
    writes to no location. *)
Theorem find_fit_first_fit (s : state) (bs : list block) (asize : Z) :
  heap_wf s bs ->
  (exists l1 b l2,
      bs = l1 ++ b :: l2 /\ snd b = false /\ asize <= fst b /\
      Forall (no_fit asize) l1 /\
      find_fit s asize = Some (At (heap_listp s + 8 + total l1)))
  \/ (Forall (no_fit asize) bs /\ find_fit s asize = Some NULL).
Proof.
  intros H. rewrite (find_fit_heap s bs asize H).
  destruct (first_fit (heap_listp s + 8) bs asize) as [| q] eqn:Hff.
  - right. split; [eapply first_fit_none; eassumption | reflexivity].
  - left. destruct (first_fit_found _ _ _ _ Hff) as (l1 & b & l2 & E & Hq & Hf & Hs & Hl).
    exists l1, b, l2. subst q. auto.
Qed.

Lemma find_fit_first_fit_witness :
  (exists l1 b l2,
      [(4096, false)] = l1 ++ b :: l2 /\ snd b = false /\ 24 <= fst b /\
      Forall (no_fit 24) l1 /\
      find_fit heap_init 24 = Some (At (heap_listp heap_init + 8 + total l1)))
  \/ (Forall (no_fit 24) [(4096, false)] /\ find_fit heap_init 24 = Some NULL).
Proof.
  exact (find_fit_first_fit heap_init [(4096, false)] 24 heap_init_wf).
Defined.

Example find_fit_heap_init : find_fit heap_init 24 = Some (At 16).
Proof. vm_compute. reflexivity. Qed.

Lemma reachable_aligned (size_t_mod : Z) (s : state) :
  size_t_mod mod 8 = 0 -> reachable size_t_mod s -> aligned s.
Proof.
  intros H8. induction 1 as [s Hb Hi | s s' n r _ IH Hm | s p _ IH
                            | s s' p n r _ IH Hr | s m' _ IH].
  - apply mm_init_aligned; assumption.
  - apply (mm_malloc_aligned size_t_mod H8 _ _ _ _ IH Hm).
  - apply mm_free_aligned, IH.
  - apply (mm_realloc_aligned size_t_mod H8 _ _ _ _ _ IH Hr).
  - exact IH.
Qed.

(** C9.  Every non-null pointer that [mm_malloc] or [mm_realloc] returns
    is 8-byte aligned: its offset in the arena is 0 modulo 8.  This holds
    in every reachable state and for every argument: [mm_init] puts
    [heap_listp] 8 bytes above the aligned break (padding word and
    prologue header), the break only moves by multiples of 8, and every
    step from block to block adds or subtracts a multiple of 8. *)
Theorem returned_pointers_aligned
    (size_t_mod : Z) (Heights : size_t_mod mod 8 = 0)
    (s s' : state) (p : ptr) (n q : Z) :
  reachable size_t_mod s ->
  mm_malloc size_t_mod s n = Some (s', At q) \/
  mm_realloc size_t_mod s p n = Some (s', At q) ->
  q mod 8 = 0.
Proof.
  intros Hr [Hm | Hm]; apply (reachable_aligned _ _ Heights) in Hr.
  - apply (mm_malloc_aligned size_t_mod Heights _ _ _ _ Hr Hm). reflexivity.
  - apply (mm_realloc_aligned size_t_mod Heights _ _ _ _ _ Hr Hm). reflexivity.
Qed.

Lemma returned_pointers_aligned_witness :
  reachable M32 heap_init /\
  mm_malloc M32 heap_init 100 = Some (place M32 heap_init 16 112, At 16) /\
  16 mod 8 = 0.
Proof.
  assert (Hr : reachable M32 heap_init)
    by (apply (reach_init M32 arena0); reflexivity).
  assert (Hm : mm_malloc M32 heap_init 100 = Some (place M32 heap_init 16 112, At 16)).
  { unfold mm_malloc. change (100 =? 0) with false. cbv iota.
    change (adjust M32 100) with 112.
    replace (find_fit heap_init 112) with (Some (At 16)) by (vm_compute; reflexivity).
    reflexivity. }
  split; [exact Hr |]. split; [exact Hm |].
  exact (returned_pointers_aligned M32 eq_refl heap_init _ NULL 100 16 Hr
           (or_introl Hm)).
Defined.


(** C8, as stated, fails.  In scenario D on a fresh arena the two blocks
    are 24 bytes each, and the free block left at the end is 4096 bytes
    long, not 24 + 24. *)
Lemma scenario_D_not_the_sum :
  scenario_D_view arena0
  = Some (16, 40, 24, 24, [(8, true); (4096, false)], 4112) /\
  4096 <> 24 + 24.
Proof. split; [vm_compute; reflexivity | lia]. Qed.

(** C8, amended.  In scenario D, whatever the arena held before, the two
    released blocks (24 bytes each, at 16 and 40) end up in one free
    block together with the free remainder of the chunk that followed
    them: the heap is the prologue and a single free block of
    24 + 24 + 4048 = 4096 bytes, and the break is where [mm_init] left
    it, at 4112. *)
Theorem scenario_D_one_free_block (m0 : mem) :
  scenario_D_view (mkState m0 0 20971520 0)
  = Some (16, 40, 24, 24, [(8, true); (24 + 24 + 4048, false)], 4112) /\
  mem_brk (fst (mm_init M32 (mkState m0 0 20971520 0))) = 4112.
Proof. split; vm_compute; reflexivity. Qed.

Lemma heap_hole24_ok : heap_ok heap_hole24 [(24, false); (16, true); (4056, false)].
Proof. split; [heap_wf_by_computation | reflexivity]. Qed.

Lemma malloc_heap_hole24 :
  mm_malloc M32 heap_hole24 1 = Some (place M32 heap_hole24 16 16, At 16).
Proof.
  unfold mm_malloc. change (1 =? 0) with false. cbv iota.
  change (adjust M32 1) with 16.
  replace (find_fit heap_hole24 16) with (Some (At 16)) by (vm_compute; reflexivity).
  reflexivity.
Qed.

(** C1, as stated, fails.  On a consistent heap whose first block is
    free and 24 bytes long, [mm_malloc(1)] has adjusted size 16 and
    returns that block whole: header and footer say 24, not 16. *)
Lemma malloc_block_larger_than_adjusted :
  heap_ok heap_hole24 [(24, false); (16, true); (4056, false)] /\
  adjust M32 1 = 16 /\
  mm_malloc M32 heap_hole24 1 = Some (place M32 heap_hole24 16 16, At 16) /\
  block_at (heap_mem (place M32 heap_hole24 16 16)) 16 (24, true) /\
  24 <> 16.
Proof.
  split; [exact heap_hole24_ok |]. split; [reflexivity |].
  split; [exact malloc_heap_hole24 |].
  split; [split; vm_compute; reflexivity | lia].
Qed.

(** C1, amended.  For a request [n > 0] whose adjusted size does not
    wrap [size_t] ([n + 15] below its modulus), on a heap that satisfies
    the invariants: when [mm_malloc(n)] returns a non-null pointer, header
    and footer of its block hold the same size with the allocation bit
    set, and that size is the adjusted size [asize] (16 if [n <= 8],
    else [n + 8] rounded up to a multiple of 8) or [asize + 8]; it is a
    multiple of 8 and at least [n + 8]. *)
Theorem malloc_block_size
    (size_t_mod : Z) (Hwide : 4294967296 <= size_t_mod)
    (s s' : state) (bs : list block) (n q : Z) :
  heap_ok s bs -> 0 < n -> n + 15 < size_t_mod ->
  mm_malloc size_t_mod s n = Some (s', At q) ->
  let asize := if n <=? 8 then 16 else 8 * ((n + 8 + 7) / 8) in
  exists sz,
    block_at (heap_mem s') q (sz, true) /\
    (sz = asize \/ sz = asize + 8) /\
    sz mod 8 = 0 /\ n + 8 <= sz.
Proof.
  intros Hok Hn Hw Hm asize.
  destruct (adjust_no_wrap size_t_mod n Hn Hw) as (Ha & Ha8 & Ha16 & Han).
  fold asize in Ha.
  destruct (mm_malloc_heap size_t_mod Hwide s bs n Hok Hn Hw)
    as [(Hm' & _) | (s1 & q1 & bs1 & sz & Hm' & Hpost)];
    rewrite Hm' in Hm; [discriminate |].
  injection Hm as <- <-.
  destruct Hpost as [[Hwf1 _] Hal _ Hsize _ Hhl _ _].
  assert (Hq : In (q1, sz) (allocs (heap_listp s1 + 8) bs1))
    by (rewrite Hhl; apply Hal; left; reflexivity).
  destruct (In_allocs_split _ _ _ _ Hq) as (l1 & l2 & E & Eq).
  rewrite E in Hwf1.
  pose proof (heap_block_at _ _ _ _ Hwf1) as Hb. rewrite <- Eq in Hb.
  pose proof (wf_sizes _ _ Hwf1) as Hs. apply Forall_app in Hs.
  destruct Hs as [_ Hs]. inversion Hs as [| ? ? [Hs8 _] _]; subst.
  cbn [fst] in Hs8. rewrite Ha in *.
  exists sz. split; [exact Hb |]. split; [| split; [exact Hs8 | lia]].
  Z.to_euclidean_division_equations. lia.
Qed.

Lemma malloc_block_size_witness :
  exists sz,
    block_at (heap_mem (place M32 heap_hole24 16 16)) 16 (sz, true) /\
    (sz = 16 \/ sz = 16 + 8) /\ sz mod 8 = 0 /\ 1 + 8 <= sz.
Proof.
  apply (malloc_block_size M32 M32_wide heap_hole24 _
           [(24, false); (16, true); (4056, false)] 1 16 heap_hole24_ok).
  - lia.
  - unfold M32. lia.
  - exact malloc_heap_hole24.
Defined.

(** C10 fails on a request whose adjusted size wraps to 0.  With a
    32-bit [size_t], [mm_malloc(2^32 - 8)] on the heap that [mm_init]
    leaves computes the adjusted size 0, finds the free block at 16
    (any free block is "large enough"), and [place] leaves that block
    free, 4096 bytes long, while the word 1 lands on the prologue's
    footer.  The call returns 16 all the same, and so does the next
    [mm_malloc(8)].  The same happens with a 64-bit [size_t] for
    [mm_malloc(2^64 - 8)]. *)
Theorem malloc_wrapped_size_returns_free_block :
  adjust M32 (M32 - 8) = 0 /\
  (exists s',
      mm_malloc M32 heap_init (M32 - 8) = Some (s', At 16) /\
      heap_blocks s' = [(8, true); (4096, false)] /\
      GET (heap_mem s') (HDRP 16) = 4096 /\
      GET (heap_mem s') 8 = 1 /\
      exists s'', mm_malloc M32 s' 8 = Some (s'', At 16)) /\
  adjust M64 (M64 - 8) = 0 /\
  (exists s',
      mm_malloc M64 (fst (mm_init M64 arena0)) (M64 - 8) = Some (s', At 16) /\
      heap_blocks s' = [(8, true); (4096, false)]).
Proof.
  split; [reflexivity |]. split; [| split; [reflexivity |]].
  - exists (place M32 heap_init 16 0). split; [| split; [| split; [| split]]].
    + unfold mm_malloc. change (M32 - 8 =? 0) with false. cbv iota.
      change (adjust M32 (M32 - 8)) with 0.
      replace (find_fit heap_init 0) with (Some (At 16)) by (vm_compute; reflexivity).
      reflexivity.
    + vm_compute. reflexivity.
    + vm_compute. reflexivity.
    + vm_compute. reflexivity.
    + exists (place M32 (place M32 heap_init 16 0) 16 16).
      unfold mm_malloc. change (8 =? 0) with false. cbv iota.
      change (adjust M32 8) with 16.
      replace (find_fit (place M32 heap_init 16 0) 16) with (Some (At 16))
        by (vm_compute; reflexivity).
      reflexivity.
  - exists (place M64 (fst (mm_init M64 arena0)) 16 0). split.
    + unfold mm_malloc. change (M64 - 8 =? 0) with false. cbv iota.
      change (adjust M64 (M64 - 8)) with 0.
      replace (find_fit (fst (mm_init M64 arena0)) 0) with (Some (At 16))
        by (vm_compute; reflexivity).
      reflexivity.
    + vm_compute. reflexivity.
Qed.

Lemma heap_crafted_ok : heap_ok heap_crafted [(16, true); (4080, false)].
Proof. split; [heap_wf_by_computation | reflexivity]. Qed.

(** C2 fails on [mm_realloc] with a size whose adjusted size wraps.
    [heap_crafted] satisfies the invariants and 16 is a live allocation
    of 8 payload bytes.  [mm_realloc(16, 2^32 - 1)] computes the adjusted
    size 8, splits a block of 8 bytes (no payload at all) off the free
    block at 32, copies the 8 payload bytes over that block's footer and
    the header of the block after it, and returns 32.  The copied word
    16 now reads as the header of a free block of 16 bytes, and the
    block after it is free as well: two adjacent free blocks. *)
Theorem realloc_wrapped_size_breaks_coalescing_invariant :
  heap_ok heap_crafted [(16, true); (4080, false)] /\
  In (16, 16) (allocs (heap_listp heap_crafted + 8) [(16, true); (4080, false)]) /\
  adjust M32 (M32 - 1) = 8 /\
  exists s',
    mm_realloc M32 heap_crafted (At 16) (M32 - 1) = Some (s', At 32) /\
    heap_blocks s'
    = [(8, true); (16, false); (8, true); (16, false); (16, false)] /\
    no_adj_free (heap_blocks s') = false.
Proof.
  split; [exact heap_crafted_ok |]. split; [left; reflexivity |].
  split; [reflexivity |].
  destruct (mm_realloc M32 heap_crafted (At 16) (M32 - 1)) as [[s' r] |] eqn:E.
  - exists s'.
    assert (Hr : r = At 32).
    { assert (H : option_map snd (mm_realloc M32 heap_crafted (At 16) (M32 - 1))
                  = Some (At 32)) by (vm_compute; reflexivity).
      rewrite E in H. injection H as H. exact H. }
    assert (Hb : option_map (fun x => heap_blocks (fst x))
                   (mm_realloc M32 heap_crafted (At 16) (M32 - 1))
                 = Some [(8, true); (16, false); (8, true); (16, false); (16, false)])
      by (vm_compute; reflexivity).
    rewrite E in Hb. injection Hb as Hb. cbn [fst] in Hb.
    subst r. split; [reflexivity |]. split; [exact Hb |]. rewrite Hb. reflexivity.
  - assert (H : option_map snd (mm_realloc M32 heap_crafted (At 16) (M32 - 1))
                = Some (At 32)) by (vm_compute; reflexivity).
    rewrite E in H. discriminate.
Qed.

(** [mm_malloc] returns [NULL] only with the state it was given. *)
Lemma mm_malloc_NULL (size_t_mod : Z) (s s' : state) (n : Z) :
  mm_malloc size_t_mod s n = Some (s', NULL) -> s' = s.
Proof.
  unfold mm_malloc. destruct (n =? 0); [intros [= <-]; reflexivity |].
  destruct (find_fit s _) as [[| bp] |]; [| discriminate | discriminate].
  destruct (extend_heap _ _ _) as [s1 [| bp]] eqn:He; [| discriminate].
  intros [= <-].
  pose proof (extend_heap_NULL size_t_mod s
                (MAX (adjust size_t_mod n) CHUNKSIZE / WSIZE)) as H.
  rewrite He in H. apply H. reflexivity.
Qed.

(** C7, as stated, fails for [mm_init].  On an arena of 100 bytes the
    first [mem_sbrk] succeeds, the padding, prologue and epilogue words
    are written, and the request for the first chunk fails: [mm_init]
    returns -1 with the break 16 bytes up, the prologue in memory and
    [heap_listp] moved from 0 to 8. *)
Lemma init_failure_keeps_partial_heap :
  snd (mm_init M32 arena_small) = -1 /\
  mem_brk arena_small = 0 /\
  mem_brk (fst (mm_init M32 arena_small)) = 16 /\
  GET (heap_mem arena_small) 4 = 0 /\
  GET (heap_mem (fst (mm_init M32 arena_small))) 4 = 9 /\
  heap_listp arena_small = 0 /\
  heap_listp (fst (mm_init M32 arena_small)) = 8.
Proof. repeat split; vm_compute; reflexivity. Qed.

(** C7, amended.  (1) [mm_malloc(0)] returns [NULL] and the state is
    unchanged.  (2) When no block fits and [mem_sbrk] refuses the
    extension, [mm_malloc] returns [NULL], and so does [mm_realloc] for
    a non-zero size, with the state exactly as before the call: break,
    [heap_listp] and every byte.  (3) Whenever [mm_malloc], or
    [mm_realloc] for a non-zero size, returns [NULL], the state is
    exactly as before.  (4) [mm_init] is not atomic; with [p] the break
    before the call, a failing [mm_init] leaves the arena's limit as it
    was and one of two states.  When its first [mem_sbrk] fails, memory
    and break are unchanged and [heap_listp] holds the failure
    sentinel.  When the extension by the first chunk fails, the break
    is [p + 16], [heap_listp] is [p + 8], the four words written hold
    the padding 0, the prologue header and footer (8, allocated) and
    the epilogue header (0, allocated), and no byte outside these 16
    changed. *)
Theorem failed_growth_leaves_heap_unchanged (size_t_mod : Z) :
  (forall s, mm_malloc size_t_mod s 0 = Some (s, NULL)) /\
  (forall s n p,
      n <> 0 ->
      find_fit s (adjust size_t_mod n) = Some NULL ->
      mem_max_addr s
      < mem_brk s
        + extend_size size_t_mod (MAX (adjust size_t_mod n) CHUNKSIZE / WSIZE) ->
      mm_malloc size_t_mod s n = Some (s, NULL) /\
      mm_realloc size_t_mod s p n = Some (s, NULL)) /\
  (forall s s' n p,
      mm_malloc size_t_mod s n = Some (s', NULL) \/
      (n <> 0 /\ mm_realloc size_t_mod s p n = Some (s', NULL)) ->
      s' = s) /\
  (forall s,
      snd (mm_init size_t_mod s) = -1 ->
      let s' := fst (mm_init size_t_mod s) in
      let p := mem_brk s in
      mem_max_addr s' = mem_max_addr s /\
      ((mem_max_addr s < p + 16 /\
        heap_mem s' = heap_mem s /\ mem_brk s' = p /\ heap_listp s' = -1) \/
       (p + 16 <= mem_max_addr s /\
        mem_max_addr s < p + 16 + extend_size size_t_mod (CHUNKSIZE / WSIZE) /\
        mem_brk s' = p + 16 /\ heap_listp s' = p + 8 /\
        GET (heap_mem s') p = 0 /\
        GET (heap_mem s') (p + 4) = PACK DSIZE 1 /\
        GET (heap_mem s') (p + 8) = PACK DSIZE 1 /\
        GET (heap_mem s') (p + 12) = PACK 0 1 /\
        same_outside (heap_mem s) (heap_mem s') p (p + 16)))).
Proof.
  split; [reflexivity |]. split; [| split].
  - intros s n p Hn Hff Hfull.
    assert (Hm : mm_malloc size_t_mod s n = Some (s, NULL)).
    { unfold mm_malloc. destruct (Z.eqb_spec n 0); [contradiction |].
      rewrite Hff. unfold extend_heap, mem_sbrk.
      destruct (Z.leb_spec (mem_brk s + extend_size size_t_mod
                  (MAX (adjust size_t_mod n) CHUNKSIZE / WSIZE)) (mem_max_addr s));
        [lia | reflexivity]. }
    split; [exact Hm |]. unfold mm_realloc. destruct p as [| a]; [exact Hm |].
    destruct (Z.eqb_spec n 0); [contradiction |]. rewrite Hm. reflexivity.
  - intros s s' n p [Hm | [Hn Hr]].
    + apply (mm_malloc_NULL _ _ _ _ Hm).
    + unfold mm_realloc in Hr. destruct p as [| a].
      * apply (mm_malloc_NULL _ _ _ _ Hr).
      * destruct (Z.eqb_spec n 0); [contradiction |].
        destruct (mm_malloc size_t_mod s n) as [[s1 [| q]] |] eqn:Hm;
          [| discriminate | discriminate].
        injection Hr as <-. apply (mm_malloc_NULL _ _ _ _ Hm).
  - intros s. unfold mm_init, mem_sbrk.
    destruct (Z.leb_spec (mem_brk s + 4 * WSIZE) (mem_max_addr s)) as [Hle | Hgt].
    + cbn [heap_mem mem_brk mem_max_addr heap_listp].
      match goal with |- context [extend_heap _ ?st ?w] =>
        pose proof (extend_heap_NULL size_t_mod st w) as Hnull;
        destruct (extend_heap size_t_mod st w) as [s3 [| r]] eqn:He end.
      * intros _. cbn [fst snd] in *.
        destruct (Hnull eq_refl) as [-> Hfull].
        cbn [mem_brk heap_mem mem_max_addr heap_listp] in *.
        change (PACK DSIZE 1) with 9. change (PACK 0 1) with 1.
        unfold WSIZE in *. split; [reflexivity |]. right.
        split; [lia |]. split; [lia |]. split; [lia |]. split; [lia |].
        split; [| split; [| split; [| split]]].
        -- rewrite !GET_PUT_other by lia. apply GET_PUT_eq; lia.
        -- rewrite !GET_PUT_other by lia. apply GET_PUT_eq; lia.
        -- rewrite !GET_PUT_other by lia. apply GET_PUT_eq; lia.
        -- apply GET_PUT_eq; lia.
        -- repeat (apply same_outside_PUT; [| lia | lia]). apply same_outside_refl.
      * cbn [snd]. discriminate.
    + intros _. cbn [fst]. unfold WSIZE in Hgt. cbn. split; [reflexivity |]. left.
      repeat split; lia.
Qed.

Lemma heap_full_ok : heap_ok heap_full [(4096, true)].
Proof. split; [heap_wf_by_computation | reflexivity]. Qed.

Lemma failed_growth_leaves_heap_unchanged_witness :
  (mm_malloc M32 heap_full 1 = Some (heap_full, NULL) /\
   mm_realloc M32 heap_full (At 16) 1 = Some (heap_full, NULL)) /\
  (let s' := fst (mm_init M32 arena_small) in
   let p := mem_brk arena_small in
   mem_max_addr s' = mem_max_addr arena_small /\
   ((mem_max_addr arena_small < p + 16 /\
     heap_mem s' = heap_mem arena_small /\ mem_brk s' = p /\ heap_listp s' = -1) \/
    (p + 16 <= mem_max_addr arena_small /\
     mem_max_addr arena_small < p + 16 + extend_size M32 (CHUNKSIZE / WSIZE) /\
     mem_brk s' = p + 16 /\ heap_listp s' = p + 8 /\
     GET (heap_mem s') p = 0 /\
     GET (heap_mem s') (p + 4) = PACK DSIZE 1 /\
     GET (heap_mem s') (p + 8) = PACK DSIZE 1 /\
     GET (heap_mem s') (p + 12) = PACK 0 1 /\
     same_outside (heap_mem arena_small) (heap_mem s') p (p + 16)))).
Proof.
  destruct (failed_growth_leaves_heap_unchanged M32) as (_ & H & _ & H4).
  split.
  - apply (H heap_full 1 (At 16)).
    + discriminate.
    + vm_compute. reflexivity.
    + vm_compute. reflexivity.
  - apply (H4 arena_small). vm_compute. reflexivity.
Defined.

(** C6 fails on a size whose adjusted size wraps.  [heap_crafted]
    satisfies the invariants and 16 is a live block of 16 bytes, 8 of
    them payload, holding the words 0 and 16.  In
    [mm_realloc(16, 2^32 - 1)] the fresh [mm_malloc(2^32 - 1)] returns
    32, a block of 8 bytes in all: a header and a footer and no payload,
    where the claim has a fresh block of [size].  The
    min(size, 16 - 8) = 8 bytes copied from the old payload land on that
    block's own footer (it reads 0 afterwards, while the header still
    says 8, allocated) and on the header of the block after it (it
    reads 16 afterwards, it was 4072, free): they are copied over two
    boundary tags, not into a payload.  The old block is released and
    32 is returned. *)
Theorem realloc_wrapped_size_overruns_fresh_block :
  heap_ok heap_crafted [(16, true); (4080, false)] /\
  In (16, 16) (allocs (heap_listp heap_crafted + 8) [(16, true); (4080, false)]) /\
  Z.min (M32 - 1) (16 - 8) = 8 /\
  GET (heap_mem heap_crafted) 16 = 0 /\ GET (heap_mem heap_crafted) 20 = 16 /\
  exists s1 s',
    mm_malloc M32 heap_crafted (M32 - 1) = Some (s1, At 32) /\
    GET (heap_mem s1) (HDRP 32) = PACK 8 1 /\
    GET (heap_mem s1) (32 + 8 - DSIZE) = PACK 8 1 /\
    GET (heap_mem s1) (HDRP (32 + 8)) = PACK 4072 0 /\
    mm_realloc M32 heap_crafted (At 16) (M32 - 1) = Some (s', At 32) /\
    GET (heap_mem s') (HDRP 32) = PACK 8 1 /\
    GET (heap_mem s') (32 + 8 - DSIZE) = 0 /\
    GET (heap_mem s') (HDRP (32 + 8)) = 16 /\
    GET (heap_mem s') (HDRP 16) = PACK 16 0.
Proof.
  split; [exact heap_crafted_ok |]. split; [left; reflexivity |].
  split; [reflexivity |]. split; [vm_compute; reflexivity |].
  split; [vm_compute; reflexivity |].
  assert (Hm : mm_malloc M32 heap_crafted (M32 - 1)
               = Some (place M32 heap_crafted 32 8, At 32)).
  { unfold mm_malloc. change (M32 - 1 =? 0) with false. cbv iota.
    change (adjust M32 (M32 - 1)) with 8.
    replace (find_fit heap_crafted 8) with (Some (At 32)) by (vm_compute; reflexivity).
    reflexivity. }
  set (s1 := place M32 heap_crafted 32 8) in *.
  set (s2 := set_mem s1 (memcpy (heap_mem s1) 32 16 8)).
  assert (Hr : mm_realloc M32 heap_crafted (At 16) (M32 - 1)
               = Some (mm_free M32 s2 16, At 32)).
  { unfold mm_realloc. change (M32 - 1 =? 0) with false. cbv iota.
    rewrite Hm. cbv iota beta.
    replace (wrap M32 (wrap32 (GET_SIZE (heap_mem s1) (HDRP 16) - DSIZE))) with 8
      by (vm_compute; reflexivity).
    change (M32 - 1 <? 8) with false. cbv iota. reflexivity. }
  exists s1, (mm_free M32 s2 16).
  split; [exact Hm |]. split; [vm_compute; reflexivity |].
  split; [vm_compute; reflexivity |]. split; [vm_compute; reflexivity |].
  split; [exact Hr |]. split; [vm_compute; reflexivity |].
  split; [vm_compute; reflexivity |]. split; vm_compute; reflexivity.
Qed.

(** * Beyond the claims *)

(** [mm_init] on an arena whose break is 8-byte aligned and which has
    room for 16 + 4096 bytes below 2^32 succeeds and leaves a heap that
    satisfies all the invariants: prologue, one free block of 4096
    bytes, epilogue. *)
Theorem init_establishes_invariants
    (size_t_mod : Z) (Hwide : 4294967296 <= size_t_mod) (s : state) :
  0 <= mem_brk s -> mem_brk s mod 8 = 0 ->
  mem_brk s + 16 + 4096 <= mem_max_addr s < 4294967296 ->
  snd (mm_init size_t_mod s) = 0 /\
  heap_ok (fst (mm_init size_t_mod s)) [(4096, false)] /\
  heap_blocks (fst (mm_init size_t_mod s)) = [(8, true); (4096, false)].
Proof.
  intros H0 H8 Hmax.
  destruct (mm_init_heap size_t_mod Hwide s H0 H8 Hmax) as (Hr & Hok & _).
  split; [exact Hr |]. split; [exact Hok |].
  apply heap_blocks_wf, Hok.
Qed.

Lemma init_establishes_invariants_witness :
  snd (mm_init M32 arena0) = 0 /\
  heap_ok (fst (mm_init M32 arena0)) [(4096, false)] /\
  heap_blocks (fst (mm_init M32 arena0)) = [(8, true); (4096, false)].
Proof.
  apply (init_establishes_invariants M32 M32_wide arena0).
  - vm_compute. discriminate.
  - reflexivity.
  - split; vm_compute; [discriminate | reflexivity].
Defined.

(** Every call of the public interface that respects the preconditions
    (see [public_call]: live pointers for [mm_free] and [mm_realloc],
    requests whose adjusted size does not wrap [size_t]) takes a heap
    that satisfies the invariants to one that satisfies them; in
    particular the list of blocks the code walks has no two adjacent
    free blocks. *)
Theorem invariants_preserved
    (size_t_mod : Z) (Hwide : 4294967296 <= size_t_mod)
    (s s' : state) (bs : list block) :
  heap_ok s bs -> public_call size_t_mod s bs s' ->
  exists bs', heap_ok s' bs' /\ no_adj_free (heap_blocks s') = true.
Proof.
  intros Hok Hcall.
  assert (Hgoal : exists bs', heap_ok s' bs').
  { destruct Hcall as [n s' r Hn Hw Hm | p psz Hin | p n s' r Hp Hn Hw Hr].
    - destruct (Z.eq_dec n 0) as [-> | Hne].
      + injection Hm as <- _. eauto.
      + destruct (mm_malloc_heap size_t_mod Hwide s bs n Hok ltac:(lia) Hw)
          as [(Hm' & _) | (s1 & q & bs1 & sz & Hm' & Hpost)];
          rewrite Hm' in Hm; injection Hm as <- _; [eauto |].
        exists bs1. apply Hpost.
    - destruct (In_allocs_split _ _ _ _ Hin) as (l1 & l2 & -> & ->).
      eexists. apply (mm_free_ok size_t_mod Hwide s l1 l2 psz Hok).
    - destruct Hp as [-> | (a & psz & -> & Hin)].
      + cbn [mm_realloc] in Hr. destruct (Z.eq_dec n 0) as [-> | Hne].
        * injection Hr as <- _. eauto.
        * destruct (mm_malloc_heap size_t_mod Hwide s bs n Hok ltac:(lia) Hw)
            as [(Hm' & _) | (s1 & q & bs1 & sz & Hm' & Hpost)];
            rewrite Hm' in Hr; injection Hr as <- _; [eauto |].
          exists bs1. apply Hpost.
      + destruct (Z.eq_dec n 0) as [-> | Hne].
        * cbn in Hr. injection Hr as <- _.
          destruct (In_allocs_split _ _ _ _ Hin) as (l1 & l2 & -> & ->).
          eexists. apply (mm_free_ok size_t_mod Hwide s l1 l2 psz Hok).
        * destruct (mm_realloc_heap size_t_mod Hwide s bs a psz n Hok Hin
                      ltac:(lia) Hw) as [Hr' | (s1 & q & bs1 & Hr' & Hok1 & _)];
            rewrite Hr' in Hr; injection Hr as <- _; eauto. }
  destruct Hgoal as (bs' & Hok').
  exists bs'. split; [exact Hok' | apply (heap_ok_walk _ _ Hok')].
Qed.

Lemma invariants_preserved_witness :
  exists bs',
    heap_ok (place M32 heap_hole24 16 16) bs' /\
    no_adj_free (heap_blocks (place M32 heap_hole24 16 16)) = true.
Proof.
  apply (invariants_preserved M32 M32_wide heap_hole24 _
           [(24, false); (16, true); (4056, false)] heap_hole24_ok).
  apply (call_malloc M32 heap_hole24 _ 1 _ (At 16)).
  - lia.
  - unfold M32. lia.
  - exact malloc_heap_hole24.
Defined.

(** On a heap that satisfies the invariants, for a live block at [p] of
    total size [psz] and a request [n > 0] whose adjusted size does not
    wrap: [mm_realloc(p, n)] either returns [NULL] with the state
    untouched, or returns a pointer [q] in a heap that satisfies the
    invariants again and whose first [min(n, psz - 8)] payload bytes at
    [q] are the bytes the old payload held before the call. *)
Theorem realloc_keeps_contents
    (size_t_mod : Z) (Hwide : 4294967296 <= size_t_mod)
    (s : state) (bs : list block) (p psz n : Z) :
  heap_ok s bs -> In (p, psz) (allocs (heap_listp s + 8) bs) ->
  0 < n -> n + 15 < size_t_mod ->
  mm_realloc size_t_mod s (At p) n = Some (s, NULL) \/
  (exists s' q bs',
     mm_realloc size_t_mod s (At p) n = Some (s', At q) /\
     heap_ok s' bs' /\
     (forall i, 0 <= i < Z.min n (psz - 8) ->
                load8 (heap_mem s') (q + i) = load8 (heap_mem s) (p + i))).
Proof.
  intros Hok Hin Hn Hw.
  destruct (mm_realloc_heap size_t_mod Hwide s bs p psz n Hok Hin Hn Hw)
    as [Hr | (s' & q & bs' & Hr & Hok' & _ & Hbytes)]; [left; exact Hr |].
  right. exists s', q, bs'. auto.
Qed.

Lemma realloc_keeps_contents_witness :
  mm_realloc M32 heap_hole24 (At 40) 100 = Some (heap_hole24, NULL) \/
  (exists s' q bs',
     mm_realloc M32 heap_hole24 (At 40) 100 = Some (s', At q) /\
     heap_ok s' bs' /\
     (forall i, 0 <= i < Z.min 100 (16 - 8) ->
                load8 (heap_mem s') (q + i) = load8 (heap_mem heap_hole24) (40 + i))).
Proof.
  apply (realloc_keeps_contents M32 M32_wide heap_hole24
           [(24, false); (16, true); (4056, false)] 40 16 100 heap_hole24_ok).
  - vm_compute. left. reflexivity.
  - lia.
  - unfold M32. lia.
Defined.

(** On a heap that satisfies the invariants, for a request [n > 0] whose
    adjusted size does not wrap: the block that [mm_malloc(n)] hands out
    overlaps no block that was allocated before the call, and no byte of
    those blocks, tags or payload, changes. *)
Theorem malloc_block_is_fresh
    (size_t_mod : Z) (Hwide : 4294967296 <= size_t_mod)
    (s s' : state) (bs : list block) (n q : Z) :
  heap_ok s bs -> 0 < n -> n + 15 < size_t_mod ->
  mm_malloc size_t_mod s n = Some (s', At q) ->
  exists sz,
    block_at (heap_mem s') q (sz, true) /\ n + 8 <= sz /\
    forall p psz,
      In (p, psz) (allocs (heap_listp s + 8) bs) ->
      (p + psz <= q \/ q + sz <= p) /\
      forall a, p - 4 <= a < p + psz - 4 ->
                load8 (heap_mem s') a = load8 (heap_mem s) a.
Proof.
  intros Hok Hn Hw Hm.
  destruct (adjust_no_wrap size_t_mod n Hn Hw) as (_ & _ & _ & Han).
  destruct (mm_malloc_heap size_t_mod Hwide s bs n Hok Hn Hw)
    as [(Hm' & _) | (s1 & q1 & bs1 & sz & Hm' & Hpost)];
    rewrite Hm' in Hm; [discriminate |].
  injection Hm as <- <-.
  destruct Hpost as [[Hwf1 _] Hal Hfresh Hsize Hframe Hhl _ _].
  assert (Hq : In (q1, sz) (allocs (heap_listp s + 8) bs1))
    by (apply Hal; left; reflexivity).
  exists sz. split; [| split; [lia |]].
  - rewrite <- Hhl in Hq.
    destruct (In_allocs_split _ _ _ _ Hq) as (l1 & l2 & E & ->).
    rewrite E in Hwf1. apply (heap_block_at _ _ _ _ Hwf1).
  - intros p psz Hin. split; [| apply (Hframe p psz Hin)].
    assert (Hp : In (p, psz) (allocs (heap_listp s + 8) bs1))
      by (apply Hal; right; exact Hin).
    destruct (allocs_disjoint _ _ _ _ _ _ (wf_sizes _ _ Hwf1) Hp Hq)
      as [[= -> ->] | Hd]; [| exact Hd].
    exfalso. apply (Hfresh sz). exact Hin.
Qed.

Lemma malloc_block_is_fresh_witness :
  exists sz,
    block_at (heap_mem (place M32 heap_hole24 16 16)) 16 (sz, true) /\
    1 + 8 <= sz /\
    forall p psz,
      In (p, psz) (allocs (heap_listp heap_hole24 + 8)
                     [(24, false); (16, true); (4056, false)]) ->
      (p + psz <= 16 \/ 16 + sz <= p) /\
      forall a, p - 4 <= a < p + psz - 4 ->
                load8 (heap_mem (place M32 heap_hole24 16 16)) a
                = load8 (heap_mem heap_hole24) a.
Proof.
  apply (malloc_block_is_fresh M32 M32_wide heap_hole24 _
           [(24, false); (16, true); (4056, false)] 1 16 heap_hole24_ok).
  - lia.
  - unfold M32. lia.
  - exact malloc_heap_hole24.
Defined.

(** ** Boundary tags and navigation *)

(** A boundary tag written with [PUT] and [PACK] reads back with
    [GET_SIZE] and [GET_ALLOC]: size and allocation bit come back as
    stored, for every size that is a multiple of 8 below 2^32, and no
    word that does not overlap the tag changes. *)
Theorem tag_round_trip (m : mem) (p size alloc : Z) :
  size mod 8 = 0 -> 0 <= size < 4294967296 -> alloc = 0 \/ alloc = 1 ->
  let m' := PUT m p (PACK size alloc) in
  GET_SIZE m' p = size /\ GET_ALLOC m' p = alloc /\
  (forall q, q + 4 <= p \/ p + 4 <= q -> GET m' q = GET m q).
Proof.
  intros H8 Hr Ha m'. unfold m'.
  rewrite (PACK_add size alloc H8) by lia.
  assert (Hg : GET (PUT m p (size + alloc)) p = size + alloc).
  { apply GET_PUT_eq; [reflexivity |]. Z.to_euclidean_division_equations; lia. }
  split; [| split].
  - unfold GET_SIZE. rewrite Hg, land_lnot7. Z.to_euclidean_division_equations; lia.
  - unfold GET_ALLOC. rewrite Hg, land_1. Z.to_euclidean_division_equations; lia.
  - intros q Hq. apply GET_PUT_other. exact Hq.
Qed.

Lemma tag_round_trip_witness :
  GET_SIZE (PUT (heap_mem heap_init) 12 (PACK 4096 1)) 12 = 4096 /\
  GET_ALLOC (PUT (heap_mem heap_init) 12 (PACK 4096 1)) 12 = 1 /\
  (forall q, q + 4 <= 12 \/ 12 + 4 <= q ->
             GET (PUT (heap_mem heap_init) 12 (PACK 4096 1)) q
             = GET (heap_mem heap_init) q).
Proof.
  apply (tag_round_trip (heap_mem heap_init) 12 4096 1).
  - reflexivity.
  - lia.
  - right. reflexivity.
Defined.

(** In a heap that satisfies the structural invariants, the navigation
    macros agree with the list of blocks: [NEXT_BLKP] of a block is the
    block after it, [PREV_BLKP] the block before it (the prologue for
    the first block), each undoes the other, and the footer that [FTRP]
    finds is the word just below the next header and holds the same tag
    as the header. *)
Theorem block_navigation (s : state) (l1 l2 : list block) (b : block) :
  heap_wf s (l1 ++ b :: l2) ->
  let m := heap_mem s in
  let bp := heap_listp s + 8 + total l1 in
  NEXT_BLKP m bp = bp + fst b /\
  PREV_BLKP m bp = bp - fst (prev_of l1) /\
  PREV_BLKP m (NEXT_BLKP m bp) = bp /\
  NEXT_BLKP m (PREV_BLKP m bp) = bp /\
  FTRP m bp + WSIZE = HDRP (NEXT_BLKP m bp) /\
  GET m (FTRP m bp) = GET m (HDRP bp).
Proof.
  intros H m bp.
  pose proof (heap_block_at _ _ _ _ H) as [Hh Hf]. fold bp m in Hh, Hf.
  pose proof (heap_prev_at _ _ _ _ H) as Hp. cbv zeta in Hp. fold bp m in Hp.
  destruct Hp as ([Hph Hpf] & Hp8 & _).
  assert (Hb8 : fst b mod 8 = 0).
  { pose proof (wf_sizes _ _ H) as Hs. apply Forall_app in Hs.
    destruct Hs as [_ Hs]. inversion Hs as [| ? ? [Hb _] _]; subst. exact Hb. }
  assert (Hgs : GET_SIZE m (HDRP bp) = fst b) by (apply (GET_SIZE_tag _ _ b Hh Hb8)).
  assert (Hn : NEXT_BLKP m bp = bp + fst b).
  { unfold NEXT_BLKP. change (bp - WSIZE) with (HDRP bp). rewrite Hgs. reflexivity. }
  assert (Hv : PREV_BLKP m bp = bp - fst (prev_of l1)).
  { unfold PREV_BLKP.
    replace (bp - DSIZE) with (bp - fst (prev_of l1) + fst (prev_of l1) - DSIZE) by lia.
    rewrite (GET_SIZE_tag _ _ (prev_of l1) Hpf Hp8). reflexivity. }
  split; [exact Hn |]. split; [exact Hv |]. split; [| split; [| split]].
  - rewrite Hn. unfold PREV_BLKP. rewrite (GET_SIZE_tag _ _ b Hf Hb8). lia.
  - rewrite Hv. unfold NEXT_BLKP.
    change (bp - fst (prev_of l1) - WSIZE) with (HDRP (bp - fst (prev_of l1))).
    rewrite (GET_SIZE_tag _ _ (prev_of l1) Hph Hp8). lia.
  - rewrite Hn. unfold FTRP. rewrite Hgs. unfold HDRP, WSIZE, DSIZE. lia.
  - unfold FTRP. rewrite Hgs, Hf. symmetry. exact Hh.
Qed.

Lemma block_navigation_witness :
  let m := heap_mem heap_hole24 in
  let bp := heap_listp heap_hole24 + 8 + total [(24, false)] in
  NEXT_BLKP m bp = bp + fst (16, true) /\
  PREV_BLKP m bp = bp - fst (prev_of [(24, false)]) /\
  PREV_BLKP m (NEXT_BLKP m bp) = bp /\
  NEXT_BLKP m (PREV_BLKP m bp) = bp /\
  FTRP m bp + WSIZE = HDRP (NEXT_BLKP m bp) /\
  GET m (FTRP m bp) = GET m (HDRP bp).
Proof.
  apply (block_navigation heap_hole24 [(24, false)] [(4056, false)] (16, true)).
  exact (proj1 heap_hole24_ok).
Defined.

(** ** find_fit on any heap *)

Lemma find_fit_loop_result (fuel : nat) (m : mem) (asize bp q : Z) :
  find_fit_loop fuel m asize bp = Some (At q) ->
  0 < GET_SIZE m (HDRP q) /\ GET_ALLOC m (HDRP q) = 0 /\
  asize <= GET_SIZE m (HDRP q).
Proof.
  revert bp. induction fuel as [| k IH]; intros bp; cbn [find_fit_loop].
  - discriminate.
  - destruct (Z.gtb_spec (GET_SIZE m (HDRP bp)) 0) as [Hpos | _]; [| discriminate].
    destruct (Z.eqb_spec (GET_ALLOC m (HDRP bp)) 0) as [Hal | _]; cbn [andb].
    + destruct (Z.leb_spec asize (GET_SIZE m (HDRP bp))) as [Hle | _].
      * intros [= <-]. auto with zarith.
      * apply IH.
    + apply IH.
Qed.

(** Whatever the memory holds, consistent heap or not, a pointer that
    [find_fit] returns has a header that says free, with a non-zero size
    of at least [asize]: the scan never hands out a block marked
    allocated or one that is too small. *)
Theorem find_fit_result_is_free_and_fits (s : state) (asize q : Z) :
  find_fit s asize = Some (At q) ->
  0 < GET_SIZE (heap_mem s) (HDRP q) /\
  GET_ALLOC (heap_mem s) (HDRP q) = 0 /\
  asize <= GET_SIZE (heap_mem s) (HDRP q).
Proof. unfold find_fit. apply find_fit_loop_result. Qed.

Lemma find_fit_result_is_free_and_fits_witness :
  0 < GET_SIZE (heap_mem heap_hole24) (HDRP 56) /\
  GET_ALLOC (heap_mem heap_hole24) (HDRP 56) = 0 /\
  112 <= GET_SIZE (heap_mem heap_hole24) (HDRP 56).
Proof.
  apply (find_fit_result_is_free_and_fits heap_hole24 112 56).
  vm_compute. reflexivity.
Defined.

(** ** mm_init *)

(** [mm_init] succeeds exactly when the arena has room for 16 + 4096
    more bytes above the break, and fails with -1 otherwise. *)
Theorem init_succeeds_iff_room (size_t_mod : Z) (s : state) :
  4096 < size_t_mod ->
  (snd (mm_init size_t_mod s) = 0 <-> mem_brk s + 16 + 4096 <= mem_max_addr s) /\
  (snd (mm_init size_t_mod s) = 0 \/ snd (mm_init size_t_mod s) = -1).
Proof.
  intros Hm. unfold mm_init, mem_sbrk.
  destruct (Z.leb_spec (mem_brk s + 4 * WSIZE) (mem_max_addr s)) as [Hle | Hgt];
    unfold WSIZE in *.
  - cbn [heap_mem mem_brk mem_max_addr heap_listp].
    unfold extend_heap, extend_size, mem_sbrk.
    change (CHUNKSIZE / 4) with 1024. change (1024 mod 2 =? 0) with true.
    cbn [negb]. unfold wrap, WSIZE. change (1024 * 4) with 4096.
    rewrite (Z.mod_small 4096) by lia.
    cbn [heap_mem mem_brk mem_max_addr heap_listp].
    destruct (Z.leb_spec (mem_brk s + 4 * 4 + 4096) (mem_max_addr s)) as [Hle2 | Hgt2].
    + match goal with |- context [coalesce ?a ?b ?c] =>
        destruct (coalesce a b c) as [s3 r] end.
      cbn [snd]. split; [| left; reflexivity]. split; [lia | reflexivity].
    + cbn [snd]. split; [| right; reflexivity]. split; [discriminate | lia].
  - cbn [snd]. split; [| right; reflexivity]. split; [discriminate | lia].
Qed.

Lemma init_succeeds_iff_room_witness :
  (snd (mm_init M32 arena_small) = 0
   <-> mem_brk arena_small + 16 + 4096 <= mem_max_addr arena_small) /\
  (snd (mm_init M32 arena_small) = 0 \/ snd (mm_init M32 arena_small) = -1).
Proof.
  apply (init_succeeds_iff_room M32 arena_small). unfold M32. lia.
Defined.

(** ** mm_init: the initial layout *)

(** A successful [mm_init] builds the heap in the 16 + 4096 bytes right
    above the old break [p] and nowhere else: padding word at [p],
    prologue header and footer (8, allocated) at [p + 4] and [p + 8],
    one free block of 4096 bytes whose header is at [p + 12] and whose
    footer is at [p + 4104], the epilogue header (0, allocated) in the
    last word, [heap_listp] between the two prologue words. *)
Theorem init_layout
    (size_t_mod : Z) (Hwide : 4294967296 <= size_t_mod) (s : state) :
  0 <= mem_brk s -> mem_brk s mod 8 = 0 ->
  mem_brk s + 16 + 4096 <= mem_max_addr s < 4294967296 ->
  let s' := fst (mm_init size_t_mod s) in
  let p := mem_brk s in
  heap_listp s' = p + 8 /\ mem_brk s' = p + 16 + 4096 /\
  mem_max_addr s' = mem_max_addr s /\
  GET (heap_mem s') p = 0 /\
  GET (heap_mem s') (p + 4) = PACK 8 1 /\
  GET (heap_mem s') (p + 8) = PACK 8 1 /\
  GET (heap_mem s') (p + 12) = PACK 4096 0 /\
  GET (heap_mem s') (p + 4104) = PACK 4096 0 /\
  GET (heap_mem s') (p + 4108) = PACK 0 1 /\
  same_outside (heap_mem s) (heap_mem s') p (p + 16 + 4096).
Proof.
  intros H0 H8 Hmax s' p. unfold s', mm_init, mem_sbrk.
  destruct (Z.leb_spec (mem_brk s + 4 * WSIZE) (mem_max_addr s)) as [_ | Hgt];
    [| unfold WSIZE in Hgt; lia].
  cbn [heap_mem mem_brk mem_max_addr heap_listp].
  change (PACK DSIZE 1) with 9. change (PACK 0 1) with 1. change (PACK 8 1) with 9.
  change (PACK 4096 0) with 4096. unfold WSIZE. fold p.
  set (m4 := PUT (PUT (PUT (PUT (heap_mem s) p 0) (p + 1 * 4) 9) (p + 2 * 4) 9)
                 (p + 3 * 4) 1).
  set (s2 := mkState m4 (p + 4 * 4) (mem_max_addr s) (p + 2 * 4)).
  assert (Hfr4 : same_outside (heap_mem s) m4 p (p + 16)).
  { unfold m4. repeat (apply same_outside_PUT; [| lia | lia]). apply same_outside_refl. }
  assert (Hpad : GET m4 p = 0).
  { unfold m4. rewrite !GET_PUT_other by lia. apply GET_PUT_eq; lia. }
  assert (H2 : heap_wf s2 []).
  { constructor; unfold s2; cbn [heap_mem mem_brk mem_max_addr heap_listp total].
    - split; [lia | Z.to_euclidean_division_equations; lia].
    - cbn [seg fst]. split; [| exact I]. unfold block_at, HDRP, WSIZE, DSIZE.
      cbn [fst]. unfold m4. split.
      + rewrite !GET_PUT_other by lia. apply GET_PUT_eq; [lia | cbn; lia].
      + rewrite !GET_PUT_other by lia. apply GET_PUT_eq; [lia | cbn; lia].
    - constructor.
    - unfold HDRP, WSIZE, m4. apply GET_PUT_eq; lia.
    - lia.
    - lia. }
  change (CHUNKSIZE / 4) with 1024.
  pose proof (extend_heap_heap size_t_mod Hwide s2 [] 1024 H2 eq_refl ltac:(lia)
                ltac:(unfold s2; cbn; lia)) as He.
  cbv zeta in He.
  destruct (extend_heap size_t_mod s2 1024) as [s3 r3] eqn:Ee. cbn [fst snd] in He.
  destruct He as (-> & Hwf & _ & Hfr & _ & _ & Hmx & Hhp).
  cbn [fst snd].
  change (coalesce_list [] (1024 * 4) []) with [(4096, false)] in Hwf.
  change (merged_size (1024 * 4) (fst (prev_of [])) (snd (prev_of [])) 0 true)
    with 4096 in Hfr.
  cbn [prev_of last snd total] in Hfr.
  assert (Hl : heap_listp s3 = p + 8) by (rewrite Hhp; unfold s2; cbn; lia).
  replace (heap_listp s2) with (p + 8) in Hfr by (unfold s2; cbn; lia).
  change (heap_mem s2) with m4 in Hfr.
  pose proof (wf_brk _ _ Hwf) as Hb. rewrite Hl in Hb. cbn [total fst] in Hb.
  destruct (wf_seg _ _ Hwf) as ([Hph Hpf] & [Hbh Hbf] & _).
  pose proof (wf_epilogue _ _ Hwf) as Hep.
  rewrite Hl in Hph, Hpf, Hbh, Hbf, Hep.
  unfold HDRP, WSIZE, DSIZE in *. cbn [fst total] in *.
  change (tag (8, true)) with 9 in *. change (tag (4096, false)) with 4096 in *.
  split; [exact Hl |]. split; [lia |]. split; [rewrite Hmx; reflexivity |].
  split; [| split; [| split; [| split; [| split; [| split]]]]].
  - rewrite (same_outside_GET _ _ _ _ p Hfr) by lia. exact Hpad.
  - rewrite <- Hph. f_equal. lia.
  - rewrite <- Hpf. f_equal. lia.
  - rewrite <- Hbh. f_equal. lia.
  - rewrite <- Hbf. f_equal. lia.
  - rewrite <- Hep. f_equal. lia.
  - apply (same_outside_trans _ m4).
    + apply (same_outside_weaken _ _ _ _ _ _ Hfr4); lia.
    + apply (same_outside_weaken _ _ _ _ _ _ Hfr); lia.
Qed.

Lemma init_layout_witness :
  let s' := fst (mm_init M32 arena0) in
  let p := mem_brk arena0 in
  heap_listp s' = p + 8 /\ mem_brk s' = p + 16 + 4096 /\
  mem_max_addr s' = mem_max_addr arena0 /\
  GET (heap_mem s') p = 0 /\
  GET (heap_mem s') (p + 4) = PACK 8 1 /\
  GET (heap_mem s') (p + 8) = PACK 8 1 /\
  GET (heap_mem s') (p + 12) = PACK 4096 0 /\
  GET (heap_mem s') (p + 4104) = PACK 4096 0 /\
  GET (heap_mem s') (p + 4108) = PACK 0 1 /\
  same_outside (heap_mem arena0) (heap_mem s') p (p + 16 + 4096).
Proof.
  apply (init_layout M32 M32_wide arena0).
  - vm_compute. discriminate.
  - reflexivity.
  - split; vm_compute; [discriminate | reflexivity].
Defined.

(** ** Allocation: when it succeeds, where the block comes from *)

Lemma first_fit_NULL_iff (bp : Z) (bs : list block) (asize : Z) :
  first_fit bp bs asize = NULL <->
  ~ Exists (fun b => snd b = false /\ asize <= fst b) bs.
Proof.
  revert bp. induction bs as [| [sz al] r IH]; intros bp; cbn [first_fit fst snd].
  - split; [intros _ H; inversion H | reflexivity].
  - destruct al; cbn [negb andb].
    + rewrite IH. split.
      * intros H He. inversion He as [? ? [Hc _] | ? ? Hr]; subst;
          [discriminate | exact (H Hr)].
      * intros H Hr. apply H. right. exact Hr.
    + destruct (Z.leb_spec asize sz) as [Hle | Hgt].
      * split; [discriminate |]. intros H. exfalso. apply H. left. auto.
      * rewrite IH. split.
        -- intros H He. inversion He as [? ? [_ Hc] | ? ? Hr]; subst;
             [cbn [fst] in Hc; lia | exact (H Hr)].
        -- intros H Hr. apply H. right. exact Hr.
Qed.

(** The first fit is at or below every block that fits. *)
Lemma first_fit_below (bp : Z) (l1 l2 : list block) (b : block) (asize : Z) :
  Forall (fun x => 8 <= fst x) l1 ->
  snd b = false -> asize <= fst b ->
  exists q, first_fit bp (l1 ++ b :: l2) asize = At q /\ q <= bp + total l1.
Proof.
  intros Hs Hf Ha. revert bp.
  induction Hs as [| x r Hx Hr IH]; intros bp; cbn [app first_fit total].
  - rewrite Hf. cbn [negb andb]. destruct (Z.leb_spec asize (fst b)); [| lia].
    exists bp. split; [reflexivity | lia].
  - destruct (negb (snd x) && (asize <=? fst x)).
    + exists bp. split; [reflexivity |].
      pose proof (total_nonneg r Hr) as Ht. lia.
    + destruct (IH (bp + fst x)) as (q & Hq & Hle). exists q. split; [exact Hq | lia].
Qed.

Section Allocation.

Variable size_t_mod : Z.
Hypothesis size_t_wide : 4294967296 <= size_t_mod.

Lemma mm_malloc_fit_eq (s : state) (bs : list block) (n q : Z) :
  heap_wf s bs -> n <> 0 ->
  first_fit (heap_listp s + 8) bs (adjust size_t_mod n) = At q ->
  mm_malloc size_t_mod s n = Some (place size_t_mod s q (adjust size_t_mod n), At q).
Proof.
  intros Hwf Hn Hff. unfold mm_malloc. destruct (Z.eqb_spec n 0); [contradiction |].
  rewrite (find_fit_heap s _ _ Hwf), Hff. reflexivity.
Qed.

(** After [mm_malloc] took its block from the free block of size [csize]
    between [l1] and [l2], [mm_free] of that block gives the free block
    back as it was. *)
Lemma place_then_free (s : state) (l1 l2 : list block) (csize asize : Z) :
  heap_ok s (l1 ++ (csize, false) :: l2) ->
  asize mod 8 = 0 -> 16 <= asize <= csize ->
  let q := heap_listp s + 8 + total l1 in
  heap_ok (mm_free size_t_mod (place size_t_mod s q asize) q)
    (l1 ++ (csize, false) :: l2).
Proof.
  intros [Hwf Hnaf] Ha8 Ha q.
  pose proof (place_heap size_t_mod size_t_wide s l1 l2 csize asize Hwf Ha8 Ha) as Hp.
  cbv zeta in Hp. fold q in Hp. destruct Hp as (Hwf' & _ & _ & Hhl & _).
  pose proof (placed_no_adj_free l1 l2 csize asize Hnaf) as Hnaf'.
  rewrite no_adj_free_app_cons in Hnaf. cbn [snd] in Hnaf.
  rewrite orb_false_r, orb_false_l in Hnaf.
  apply andb_prop in Hnaf. destruct Hnaf as [Hnaf Hnx].
  apply andb_prop in Hnaf. destruct Hnaf as [_ Hpv].
  set (s' := place size_t_mod s q asize) in *.
  unfold placed in Hwf', Hnaf'.
  destruct (Z.leb_spec 16 (csize - asize)) as [Hsp | Hns]; cbn [app] in Hwf', Hnaf'.
  - pose proof (mm_free_ok size_t_mod size_t_wide s' l1
                  ((csize - asize, false) :: l2) asize (conj Hwf' Hnaf')) as H.
    rewrite Hhl in H. fold q in H.
    unfold coalesce_list, merged_size in H. rewrite Hpv in H.
    cbn [next_of hd fst snd tl] in H.
    replace (0 + asize + (csize - asize)) with csize in H by lia. exact H.
  - pose proof (mm_free_ok size_t_mod size_t_wide s' l1 l2 csize (conj Hwf' Hnaf')) as H.
    rewrite Hhl in H. fold q in H.
    unfold coalesce_list, merged_size in H. rewrite Hpv, Hnx in H.
    replace (0 + csize + 0) with csize in H by lia. exact H.
Qed.

(** What [mm_malloc] does when no block fits and the arena has room. *)
Lemma mm_malloc_grow_eq (s : state) (bs : list block) (n : Z) :
  heap_ok s bs -> 0 < n -> n + 15 < size_t_mod ->
  first_fit (heap_listp s + 8) bs (adjust size_t_mod n) = NULL ->
  mem_brk s + Z.max (adjust size_t_mod n) 4096 <= mem_max_addr s ->
  let asize := adjust size_t_mod n in
  let size := Z.max asize 4096 in
  let l1 := if snd (prev_of bs) then bs else removelast bs in
  let csize := merged_size size (fst (prev_of bs)) (snd (prev_of bs)) 0 true in
  let r := heap_listp s + 8 + total l1 in
  exists s1,
    mm_malloc size_t_mod s n = Some (place size_t_mod s1 r asize, At r) /\
    heap_ok s1 (l1 ++ [(csize, false)]) /\
    coalesce_list bs size [] = l1 ++ [(csize, false)] /\
    heap_listp s1 = heap_listp s /\
    mem_brk s1 = mem_brk s + size /\
    r = mem_brk s - (if snd (prev_of bs) then 0 else fst (prev_of bs)) /\
    asize <= csize.
Proof.
  intros [Hwf Hnaf] Hn Hw Hff Hroom asize size l1 csize r.
  destruct (adjust_no_wrap size_t_mod n Hn Hw) as (_ & Ha8 & Ha16 & Han).
  fold asize in Ha8, Ha16, Han, Hroom, Hff.
  destruct (extend_size_chunk size_t_mod size_t_wide asize Ha8 ltac:(lia)) as (Hev & Hw4 & Hws & Hes).
  set (words := MAX asize CHUNKSIZE / WSIZE) in *.
  pose proof (extend_heap_heap size_t_mod size_t_wide s bs words Hwf Hev Hw4
                ltac:(lia)) as He.
  cbv zeta in He. rewrite Hws in He.
  fold size l1 csize r in He.
  destruct (extend_heap size_t_mod s words) as [s1 r1] eqn:Ee. cbn [fst snd] in He.
  destruct He as (-> & Hwf1 & _ & _ & Hle & Hrn & _ & Hhp1).
  assert (Hcl : coalesce_list bs size [] = l1 ++ [(csize, false)]) by reflexivity.
  rewrite Hcl in Hwf1.
  exists s1. split; [| split; [| split; [| split; [| split; [| split]]]]].
  - unfold mm_malloc. destruct (Z.eqb_spec n 0); [lia |].
    rewrite (find_fit_heap s _ _ Hwf). fold asize. rewrite Hff.
    fold words. rewrite Ee. reflexivity.
  - split; [exact Hwf1 |]. rewrite <- Hcl.
    apply coalesce_list_no_adj_free; [exact Hnaf | reflexivity].
  - exact Hcl.
  - exact Hhp1.
  - rewrite (wf_brk _ _ Hwf1), Hhp1, <- Hcl, coalesce_list_total.
    rewrite (wf_brk _ _ Hwf). cbn [total]. lia.
  - rewrite (wf_brk _ _ Hwf). unfold r, l1.
    destruct (snd (prev_of bs)) eqn:Ep; [lia |].
    destruct (prev_free_snoc _ Ep) as (l0 & E1 & ->).
    assert (Et : total bs = total l0 + fst (prev_of bs))
      by (rewrite E1 at 1; rewrite total_app; cbn [total fst]; lia).
    lia.
  - unfold size in Hle. lia.
Qed.

End Allocation.

(** On a heap that satisfies the invariants, a request [n > 0] whose
    adjusted size does not wrap succeeds exactly when some free block is
    at least [asize] bytes long or the arena has room for
    [MAX(asize, CHUNKSIZE)] more bytes; otherwise [NULL] comes back with
    the state as it was.  [mm_malloc] never fails while either source
    of memory is left. *)
Theorem malloc_succeeds_iff_room
    (size_t_mod : Z) (Hwide : 4294967296 <= size_t_mod)
    (s : state) (bs : list block) (n : Z) :
  heap_ok s bs -> 0 < n -> n + 15 < size_t_mod ->
  let asize := adjust size_t_mod n in
  ((exists s' q, mm_malloc size_t_mod s n = Some (s', At q)) <->
   (Exists (fun b => snd b = false /\ asize <= fst b) bs \/
    mem_brk s + MAX asize CHUNKSIZE <= mem_max_addr s)) /\
  ((exists s' q, mm_malloc size_t_mod s n = Some (s', At q)) \/
   mm_malloc size_t_mod s n = Some (s, NULL)).
Proof.
  intros Hok Hn Hw asize. rewrite MAX_max. change CHUNKSIZE with 4096.
  destruct (first_fit (heap_listp s + 8) bs asize) as [| q] eqn:Hff.
  - pose proof (proj1 (first_fit_NULL_iff _ _ _) Hff) as Hnone.
    destruct (Z.le_gt_cases (mem_brk s + Z.max asize 4096) (mem_max_addr s))
      as [Hroom | Hfull].
    + destruct (mm_malloc_grow size_t_mod Hwide s bs n Hok Hn Hw Hff Hroom)
        as (s' & q & _ & _ & Hm & _).
      split; [| left; eauto]. split; [auto | eauto].
    + assert (Hm : mm_malloc size_t_mod s n = Some (s, NULL)).
      { destruct (adjust_no_wrap size_t_mod n Hn Hw) as (_ & Ha8 & Ha16 & Han).
        fold asize in Ha8, Ha16, Han.
        destruct (extend_size_chunk size_t_mod Hwide asize Ha8 ltac:(lia))
          as (_ & _ & _ & Hes).
        unfold mm_malloc. destruct (Z.eqb_spec n 0); [lia |].
        rewrite (find_fit_heap s _ _ (proj1 Hok)). fold asize. rewrite Hff.
        rewrite extend_heap_fails by (rewrite Hes; lia). reflexivity. }
      split; [| right; exact Hm]. split.
      * intros (s' & q & Hm'). rewrite Hm in Hm'. discriminate.
      * intros [He | Hr]; [contradiction | lia].
  - destruct (mm_malloc_fit size_t_mod Hwide s bs n q Hok Hn Hw Hff)
      as (s' & _ & _ & Hm & _).
    split; [| left; eauto]. split; [| eauto].
    intros _. left.
    destruct (first_fit_found _ _ _ _ Hff) as (l1 & b & l2 & -> & _ & Hf & Ha & _).
    apply Exists_app. right. left. auto.
Qed.

Lemma malloc_succeeds_iff_room_witness :
  let asize := adjust M32 1 in
  ((exists s' q, mm_malloc M32 heap_full 1 = Some (s', At q)) <->
   (Exists (fun b => snd b = false /\ asize <= fst b) [(4096, true)] \/
    mem_brk heap_full + MAX asize CHUNKSIZE <= mem_max_addr heap_full)) /\
  ((exists s' q, mm_malloc M32 heap_full 1 = Some (s', At q)) \/
   mm_malloc M32 heap_full 1 = Some (heap_full, NULL)).
Proof.
  apply (malloc_succeeds_iff_room M32 M32_wide heap_full [(4096, true)] 1 heap_full_ok).
  - lia.
  - unfold M32. lia.
Defined.

(** On a heap that satisfies the invariants, a successful [mm_malloc]
    extends the heap only when no free block fits.  When a block fits,
    the break stays where it is and the block handed out lies below it.
    When none fits, the break moves up by exactly
    [MAX(asize, CHUNKSIZE)], also when the last block of the heap is
    free, and the block handed out starts where that free last block
    started, or at the old break when the last block was allocated. *)
Theorem malloc_extends_only_without_fit
    (size_t_mod : Z) (Hwide : 4294967296 <= size_t_mod)
    (s s' : state) (bs : list block) (n q : Z) :
  heap_ok s bs -> 0 < n -> n + 15 < size_t_mod ->
  mm_malloc size_t_mod s n = Some (s', At q) ->
  let asize := adjust size_t_mod n in
  (Exists (fun b => snd b = false /\ asize <= fst b) bs ->
   mem_brk s' = mem_brk s /\ q + asize <= mem_brk s) /\
  (~ Exists (fun b => snd b = false /\ asize <= fst b) bs ->
   mem_brk s' = mem_brk s + MAX asize CHUNKSIZE /\
   q = mem_brk s - (if snd (prev_of bs) then 0 else fst (prev_of bs))).
Proof.
  intros Hok Hn Hw Hm asize. rewrite MAX_max. change CHUNKSIZE with 4096.
  destruct (first_fit (heap_listp s + 8) bs asize) as [| q'] eqn:Hff.
  - pose proof (proj1 (first_fit_NULL_iff _ _ _) Hff) as Hnone.
    split; [intros He; contradiction | intros _].
    destruct (Z.le_gt_cases (mem_brk s + Z.max asize 4096) (mem_max_addr s))
      as [Hroom | Hfull].
    + pose proof (mm_malloc_grow_eq size_t_mod Hwide s bs n Hok Hn Hw Hff Hroom) as Hg.
      cbv zeta in Hg. fold asize in Hg.
      destruct Hg as (s1 & Hm' & _ & _ & _ & Hb & Hr & _).
      rewrite Hm' in Hm. injection Hm as <- <-.
      split; [| exact Hr].
      match goal with |- context [place _ ?t ?x ?y] =>
        pose proof (place_fields size_t_mod t x y) as Hp end.
      cbv zeta in Hp. destruct Hp as (-> & _). exact Hb.
    + exfalso.
      destruct (adjust_no_wrap size_t_mod n Hn Hw) as (_ & Ha8 & Ha16 & Han).
      fold asize in Ha8, Ha16, Han.
      destruct (extend_size_chunk size_t_mod Hwide asize Ha8 ltac:(lia))
        as (_ & _ & _ & Hes).
      unfold mm_malloc in Hm. destruct (Z.eqb_spec n 0); [lia |].
      rewrite (find_fit_heap s _ _ (proj1 Hok)) in Hm. fold asize in Hm.
      rewrite Hff in Hm.
      rewrite extend_heap_fails in Hm by (rewrite Hes; lia). discriminate.
  - split.
    + intros _.
      rewrite (mm_malloc_fit_eq size_t_mod s bs n q' (proj1 Hok) ltac:(lia) Hff) in Hm.
      injection Hm as <- <-.
      match goal with |- context [place _ ?t ?x ?y] =>
        pose proof (place_fields size_t_mod t x y) as Hp end.
      cbv zeta in Hp. destruct Hp as (-> & _). split; [reflexivity |].
      destruct (first_fit_found _ _ _ _ Hff) as (l1 & b & l2 & E & -> & _ & Ha & _).
      pose proof (wf_brk _ _ (proj1 Hok)) as Hb. rewrite E in Hb.
      rewrite total_app in Hb. cbn [total] in Hb.
      pose proof (wf_sizes _ _ (proj1 Hok)) as Hs. rewrite E in Hs.
      apply Forall_app in Hs. destruct Hs as [_ Hs].
      inversion Hs as [| ? ? _ Hs2]; subst.
      pose proof (size_ok_total _ Hs2) as [Ht _]. fold asize in Ha. lia.
    + intros Hnone. exfalso. apply Hnone.
      destruct (first_fit_found _ _ _ _ Hff) as (l1 & b & l2 & -> & _ & Hf & Ha & _).
      apply Exists_app. right. left. auto.
Qed.

Lemma malloc_extends_only_without_fit_witness :
  let asize := adjust M32 1 in
  (Exists (fun b => snd b = false /\ asize <= fst b)
     [(24, false); (16, true); (4056, false)] ->
   mem_brk (place M32 heap_hole24 16 16) = mem_brk heap_hole24 /\
   16 + asize <= mem_brk heap_hole24) /\
  (~ Exists (fun b => snd b = false /\ asize <= fst b)
       [(24, false); (16, true); (4056, false)] ->
   mem_brk (place M32 heap_hole24 16 16) = mem_brk heap_hole24 + MAX asize CHUNKSIZE /\
   16 = mem_brk heap_hole24
        - (if snd (prev_of [(24, false); (16, true); (4056, false)]) then 0
           else fst (prev_of [(24, false); (16, true); (4056, false)]))).
Proof.
  apply (malloc_extends_only_without_fit M32 M32_wide heap_hole24 _
           [(24, false); (16, true); (4056, false)] 1 16 heap_hole24_ok).
  - lia.
  - unfold M32. lia.
  - exact malloc_heap_hole24.
Defined.

(** ** Round trips *)

(** Allocate, then release.  On a heap that satisfies the invariants,
    for a request [n > 0] whose adjusted size does not wrap [size_t]
    ([n + 15] below its modulus), [mm_free] of the pointer that
    [mm_malloc(n)] just returned undoes the
    allocation: when the block came from a free block, the list of
    blocks is the one before the call; when the heap was extended, it is
    that list with the new bytes merged into its tail.  Either way the
    invariants hold and the allocated blocks are those of before. *)
Theorem malloc_then_free_restores
    (size_t_mod : Z) (Hwide : 4294967296 <= size_t_mod)
    (s s' : state) (bs : list block) (n q : Z) :
  heap_ok s bs -> 0 < n -> n + 15 < size_t_mod ->
  mm_malloc size_t_mod s n = Some (s', At q) ->
  let s'' := mm_free size_t_mod s' q in
  let bs'' := if mem_brk s' =? mem_brk s then bs
              else coalesce_list bs (mem_brk s' - mem_brk s) [] in
  heap_ok s'' bs'' /\ heap_blocks s'' = (8, true) :: bs'' /\
  allocs (heap_listp s + 8) bs'' = allocs (heap_listp s + 8) bs /\
  mem_brk s'' = mem_brk s'.
Proof.
  intros Hok Hn Hw Hm s'' bs''.
  destruct (adjust_no_wrap size_t_mod n Hn Hw) as (_ & Ha8 & Ha16 & Han).
  set (asize := adjust size_t_mod n) in *.
  assert (Hbrk : mem_brk s'' = mem_brk s')
    by (apply (mm_free_fields size_t_mod s' q)).
  assert (Hgoal : heap_ok s'' bs'' /\
                  allocs (heap_listp s + 8) bs'' = allocs (heap_listp s + 8) bs).
  { destruct (first_fit (heap_listp s + 8) bs asize) as [| q'] eqn:Hff.
    - destruct (Z.le_gt_cases (mem_brk s + Z.max asize 4096) (mem_max_addr s))
        as [Hroom | Hfull].
      + pose proof (mm_malloc_grow_eq size_t_mod Hwide s bs n Hok Hn Hw Hff Hroom) as Hg.
        cbv zeta in Hg. fold asize in Hg.
        destruct Hg as (s1 & Hm' & Hok1 & Hcl & Hhl & Hb & _ & Hle).
        rewrite Hm' in Hm. injection Hm as Hs' Hq.
        pose proof (place_then_free size_t_mod Hwide s1 _ [] _ asize Hok1 Ha8
                      ltac:(lia)) as Hpf.
        cbv zeta in Hpf. rewrite Hhl, Hs', Hq in Hpf. fold s'' in Hpf.
        assert (Hb' : mem_brk s' = mem_brk s + Z.max asize 4096).
        { rewrite <- Hs'.
          match goal with |- context [place _ ?t ?x ?y] =>
            pose proof (place_fields size_t_mod t x y) as Hp end.
          cbv zeta in Hp. destruct Hp as (-> & _). exact Hb. }
        unfold bs''. destruct (Z.eqb_spec (mem_brk s') (mem_brk s)); [lia |].
        replace (mem_brk s' - mem_brk s) with (Z.max asize 4096) by lia.
        rewrite Hcl. split; [exact Hpf |].
        rewrite <- Hcl, allocs_coalesce_list, allocs_app. cbn [allocs snd app].
        apply app_nil_r.
      + exfalso.
        destruct (extend_size_chunk size_t_mod Hwide _ Ha8 ltac:(lia)) as (_ & _ & _ & Hes).
        unfold mm_malloc in Hm. destruct (Z.eqb_spec n 0); [lia |].
        rewrite (find_fit_heap s _ _ (proj1 Hok)) in Hm. fold asize in Hm.
        rewrite Hff in Hm.
        rewrite extend_heap_fails in Hm by (rewrite Hes; lia). discriminate.
    - rewrite (mm_malloc_fit_eq size_t_mod s bs n q' (proj1 Hok) ltac:(lia) Hff) in Hm.
      injection Hm as Hs' Hq.
      destruct (first_fit_found _ _ _ _ Hff)
        as (l1 & [csize al] & l2 & E & Eq & Hf & Ha & _).
      cbn [fst snd] in Hf, Ha. subst al.
      rewrite E in Hok.
      pose proof (place_then_free size_t_mod Hwide s l1 l2 csize asize Hok Ha8
                    ltac:(lia)) as Hpf.
      cbv zeta in Hpf. fold asize in Hs'. rewrite <- Eq, Hs', Hq in Hpf.
      fold s'' in Hpf.
      assert (Hb' : mem_brk s' = mem_brk s).
      { rewrite <- Hs'. apply (place_fields size_t_mod s q' asize). }
      unfold bs''. destruct (Z.eqb_spec (mem_brk s') (mem_brk s)); [| lia].
      rewrite E. split; [exact Hpf | reflexivity]. }
  destruct Hgoal as [Hok'' Hal].
  split; [exact Hok'' |]. split; [apply heap_blocks_wf, Hok'' |]. auto.
Qed.

Lemma malloc_then_free_restores_witness :
  let s'' := mm_free M32 (place M32 heap_hole24 16 16) 16 in
  let bs'' := if mem_brk (place M32 heap_hole24 16 16) =? mem_brk heap_hole24
              then [(24, false); (16, true); (4056, false)]
              else coalesce_list [(24, false); (16, true); (4056, false)]
                     (mem_brk (place M32 heap_hole24 16 16) - mem_brk heap_hole24) [] in
  heap_ok s'' bs'' /\ heap_blocks s'' = (8, true) :: bs'' /\
  allocs (heap_listp heap_hole24 + 8) bs''
  = allocs (heap_listp heap_hole24 + 8) [(24, false); (16, true); (4056, false)] /\
  mem_brk s'' = mem_brk (place M32 heap_hole24 16 16).
Proof.
  apply (malloc_then_free_restores M32 M32_wide heap_hole24 _
           [(24, false); (16, true); (4056, false)] 1 16 heap_hole24_ok).
  - lia.
  - unfold M32. lia.
  - exact malloc_heap_hole24.
Defined.

(** Release, then allocate.  After [mm_free] of a live block of [sz]
    bytes, a request that fits in it ([n + 8 <= sz]) is served without
    extending the heap, from a block that starts at or below the one
    released: memory that was released is used again before the heap
    grows. *)
Theorem free_then_malloc_reuses
    (size_t_mod : Z) (Hwide : 4294967296 <= size_t_mod)
    (s : state) (bs : list block) (p sz n : Z) :
  heap_ok s bs -> In (p, sz) (allocs (heap_listp s + 8) bs) ->
  0 < n -> n + 8 <= sz ->
  exists s' q,
    mm_malloc size_t_mod (mm_free size_t_mod s p) n = Some (s', At q) /\
    q <= p /\ mem_brk s' = mem_brk s.
Proof.
  intros Hok Hin Hn Hfit.
  destruct (In_allocs_split _ _ _ _ Hin) as (l1 & l2 & E & Ep).
  rewrite E in Hok. destruct Hok as [Hwf Hnaf].
  pose proof (heap_bound _ _ Hwf) as Hbd.
  pose proof (wf_base _ _ Hwf) as [Hb0 _].
  pose proof (wf_sizes _ _ Hwf) as Hs.
  assert (Hs' := Hs). apply Forall_app in Hs'. destruct Hs' as [Hs1 Hs2].
  inversion Hs2 as [| ? ? [Hsz8 Hsz16] Hs3]; subst x l. cbn [fst] in Hsz8, Hsz16.
  pose proof (size_ok_total _ Hs1) as [Ht1 _].
  pose proof (size_ok_total _ Hs3) as [Ht3 _].
  rewrite total_app in Hbd. cbn [total fst] in Hbd.
  assert (Hw : n + 15 < size_t_mod) by lia.
  destruct (adjust_no_wrap size_t_mod n Hn Hw) as (Ha & Ha8 & Ha16 & Han).
  set (asize := adjust size_t_mod n) in *.
  assert (Hle : asize <= sz).
  { rewrite Ha. destruct (Z.leb_spec n 8); [lia |].
    Z.to_euclidean_division_equations; lia. }
  pose proof (mm_free_heap size_t_mod Hwide s l1 l2 sz Hwf) as Hf.
  cbv zeta in Hf. rewrite <- Ep in Hf.
  set (s1 := mm_free size_t_mod s p) in *.
  set (l1' := if snd (prev_of l1) then l1 else removelast l1) in *.
  set (csize := merged_size sz (fst (prev_of l1)) (snd (prev_of l1))
                  (fst (next_of l2)) (snd (next_of l2))) in *.
  destruct Hf as (Hwf1 & _ & _ & Hrp & Hpn & Hhl & _).
  assert (Hcsz : sz <= csize).
  { unfold csize, merged_size.
    pose proof (heap_prev_at _ _ _ _ Hwf) as Hp. cbv zeta in Hp.
    pose proof (heap_next_at _ _ _ _ Hwf) as Hx. cbv zeta in Hx.
    destruct (snd (prev_of l1)), (snd (next_of l2)); lia. }
  assert (Hs1' : Forall (fun x : block => 8 <= fst x) l1').
  { pose proof (wf_sizes _ _ Hwf1) as Hc. unfold coalesce_list in Hc. fold l1' in Hc.
    apply Forall_app in Hc. destruct Hc as [Hc _].
    apply Forall_size_ok_8, Hc. }
  unfold coalesce_list in Hwf1. fold l1' csize in Hwf1.
  destruct (first_fit_below (heap_listp s1 + 8) l1'
              (if snd (next_of l2) then l2 else tl l2) (csize, false) asize
              Hs1' eq_refl ltac:(cbn [fst]; lia)) as (q & Hff & Hq).
  exists (place size_t_mod s1 q asize), q. split; [| split].
  - apply (mm_malloc_fit_eq size_t_mod s1 _ n q Hwf1 ltac:(lia) Hff).
  - rewrite Hhl in Hq. exact (Z.le_trans _ _ _ Hq Hrp).
  - pose proof (place_fields size_t_mod s1 q asize) as Hp. cbv zeta in Hp.
    destruct Hp as (-> & _). apply (mm_free_fields size_t_mod s p).
Qed.

Lemma free_then_malloc_reuses_witness :
  exists s' q,
    mm_malloc M32 (mm_free M32 heap_full 16) 4000 = Some (s', At q) /\
    q <= 16 /\ mem_brk s' = mem_brk heap_full.
Proof.
  apply (free_then_malloc_reuses M32 M32_wide heap_full [(4096, true)] 16 4096 4000
           heap_full_ok).
  - vm_compute. left. reflexivity.
  - lia.
  - lia.
Defined.

(** ** Release *)

Lemma all_free_short (bp : Z) (l : list block) :
  allocs bp l = [] -> no_adj_free l = true ->
  l = [] \/ exists z, l = [(z, false)].
Proof.
  destruct l as [| [z a] [| [z' a'] r]]; cbn [allocs snd fst no_adj_free app].
  - auto.
  - destruct a; [discriminate |]. right. eauto.
  - destruct a; [discriminate |]. destruct a'; [discriminate |].
    cbn [orb andb]. discriminate.
Qed.

Section Release.

Variable size_t_mod : Z.
Hypothesis size_t_wide : 4294967296 <= size_t_mod.

(** What [mm_free] of a live block guarantees. *)
Lemma mm_free_post (s : state) (bs : list block) (p sz : Z) :
  heap_ok s bs -> In (p, sz) (allocs (heap_listp s + 8) bs) ->
  let s' := mm_free size_t_mod s p in
  exists bs',
    heap_ok s' bs' /\
    (forall x, In x (allocs (heap_listp s + 8) bs') <->
               In x (allocs (heap_listp s + 8) bs) /\ x <> (p, sz)) /\
    total bs' = total bs /\
    (exists r n, block_at (heap_mem s') r (n, false) /\ r <= p /\ p + sz <= r + n) /\
    (forall q qsz, In (q, qsz) (allocs (heap_listp s + 8) bs) -> q <> p ->
       forall a, q - 4 <= a < q + qsz - 4 ->
                 load8 (heap_mem s') a = load8 (heap_mem s) a) /\
    mem_brk s' = mem_brk s /\ heap_listp s' = heap_listp s /\
    mem_max_addr s' = mem_max_addr s.
Proof.
  intros Hok Hin s'.
  destruct (In_allocs_split _ _ _ _ Hin) as (l1 & l2 & E & Ep).
  subst bs. destruct Hok as [Hwf Hnaf].
  pose proof (wf_sizes _ _ Hwf) as Hs.
  assert (Hs' := Hs). apply Forall_app in Hs'. destruct Hs' as [Hs1 Hs2].
  inversion Hs2 as [| ? ? [Hsz8 Hsz16] Hs3]; subst x l. cbn [fst] in Hsz8, Hsz16.
  pose proof (mm_free_heap size_t_mod size_t_wide s l1 l2 sz Hwf) as Hf.
  cbv zeta in Hf. rewrite <- Ep in Hf. fold s' in Hf.
  destruct Hf as (Hwf1 & Hblk & _ & Hrp & Hpn & Hhl & Hmx).
  exists (coalesce_list l1 sz l2).
  split; [| split; [| split; [| split; [| split; [| split; [| split]]]]]].
  - pose proof (mm_free_ok size_t_mod size_t_wide s l1 l2 sz (conj Hwf Hnaf)) as H.
    rewrite <- Ep in H. exact H.
  - intros [q qsz]. rewrite allocs_coalesce_list, !allocs_app.
    cbn [allocs snd fst app]. rewrite <- Ep. rewrite !in_app_iff. cbn [In].
    split.
    + intros [H | H].
      * split; [left; exact H |]. apply (allocs_bounds _ _ _ _ Hs1) in H.
        intros [= -> _]. lia.
      * split; [right; right; exact H |]. apply (allocs_bounds _ _ _ _ Hs3) in H.
        intros [= -> _]. lia.
    + intros [[H | [H | H]] Hne]; [left; exact H | | right; exact H].
      symmetry in H. contradiction.
  - rewrite coalesce_list_total, total_app. cbn [total fst]. lia.
  - eexists _, _. split; [exact Hblk |]. split; assumption.
  - intros q qsz Hq Hne a Ha.
    pose proof (mm_free_frame size_t_mod size_t_wide s l1 l2 sz q qsz a Hwf) as H.
    cbv zeta in H. rewrite <- Ep in H. apply H; assumption.
  - apply (mm_free_fields size_t_mod s p).
  - exact Hhl.
  - exact Hmx.
Qed.

End Release.

(** [mm_free] of a live block, on a heap that satisfies the invariants,
    releases that block and nothing else: the invariants hold again,
    the allocated blocks are those of before without the one released,
    the released bytes lie in one free block, every other allocated
    block keeps its tags and its payload byte for byte, the blocks
    still cover the same bytes, and the break does not move. *)
Theorem free_releases_only_its_block
    (size_t_mod : Z) (Hwide : 4294967296 <= size_t_mod)
    (s : state) (bs : list block) (p sz : Z) :
  heap_ok s bs -> In (p, sz) (allocs (heap_listp s + 8) bs) ->
  let s' := mm_free size_t_mod s p in
  exists bs',
    heap_ok s' bs' /\
    (forall x, In x (allocs (heap_listp s + 8) bs') <->
               In x (allocs (heap_listp s + 8) bs) /\ x <> (p, sz)) /\
    total bs' = total bs /\
    (exists r n, block_at (heap_mem s') r (n, false) /\ r <= p /\ p + sz <= r + n) /\
    (forall q qsz, In (q, qsz) (allocs (heap_listp s + 8) bs) -> q <> p ->
       forall a, q - 4 <= a < q + qsz - 4 ->
                 load8 (heap_mem s') a = load8 (heap_mem s) a) /\
    mem_brk s' = mem_brk s.
Proof.
  intros Hok Hin s'.
  destruct (mm_free_post size_t_mod Hwide s bs p sz Hok Hin)
    as (bs' & H1 & H2 & H3 & H4 & H5 & H6 & _).
  exists bs'. auto 10.
Qed.

Lemma free_releases_only_its_block_witness :
  let s' := mm_free M32 heap_hole24 40 in
  exists bs',
    heap_ok s' bs' /\
    (forall x, In x (allocs (heap_listp heap_hole24 + 8) bs') <->
               In x (allocs (heap_listp heap_hole24 + 8)
                       [(24, false); (16, true); (4056, false)]) /\ x <> (40, 16)) /\
    total bs' = total [(24, false); (16, true); (4056, false)] /\
    (exists r n, block_at (heap_mem s') r (n, false) /\ r <= 40 /\ 40 + 16 <= r + n) /\
    (forall q qsz, In (q, qsz) (allocs (heap_listp heap_hole24 + 8)
                                  [(24, false); (16, true); (4056, false)]) ->
       q <> 40 ->
       forall a, q - 4 <= a < q + qsz - 4 ->
                 load8 (heap_mem s') a = load8 (heap_mem heap_hole24) a) /\
    mem_brk s' = mem_brk heap_hole24.
Proof.
  apply (free_releases_only_its_block M32 M32_wide heap_hole24
           [(24, false); (16, true); (4056, false)] 40 16 heap_hole24_ok).
  vm_compute. left. reflexivity.
Defined.

(** When the block released is the only allocated one, nothing is left
    fragmented: after [mm_free] the heap is one free block that spans
    everything between the prologue and the epilogue. *)
Theorem free_of_only_allocation_leaves_one_block
    (size_t_mod : Z) (Hwide : 4294967296 <= size_t_mod)
    (s : state) (bs : list block) (p sz : Z) :
  heap_ok s bs -> allocs (heap_listp s + 8) bs = [(p, sz)] ->
  let s' := mm_free size_t_mod s p in
  heap_ok s' [(total bs, false)] /\
  heap_blocks s' = [(8, true); (mem_brk s - heap_listp s - 8, false)].
Proof.
  intros Hok Hal s'.
  assert (Hin : In (p, sz) (allocs (heap_listp s + 8) bs))
    by (rewrite Hal; left; reflexivity).
  destruct (In_allocs_split _ _ _ _ Hin) as (l1 & l2 & E & Ep).
  subst bs. rewrite allocs_app in Hal. cbn [allocs snd fst app] in Hal.
  assert (Hl : allocs (heap_listp s + 8) l1 = [] /\
               allocs (heap_listp s + 8 + total l1 + sz) l2 = []).
  { destruct (allocs (heap_listp s + 8) l1) as [| x r]; cbn [app] in Hal.
    - injection Hal as _ H. auto.
    - injection Hal as _ H. apply app_eq_nil in H. destruct H as [_ H]. discriminate. }
  destruct Hl as [Hl1 Hl2].
  pose proof (proj2 Hok) as Hnaf. rewrite no_adj_free_app_cons in Hnaf.
  apply andb_prop in Hnaf. destruct Hnaf as [Hnaf _].
  apply andb_prop in Hnaf. destruct Hnaf as [Hnaf _].
  apply andb_prop in Hnaf. destruct Hnaf as [Hn1 Hn2].
  pose proof (mm_free_ok size_t_mod Hwide s l1 l2 sz Hok) as Hf.
  rewrite <- Ep in Hf. fold s' in Hf.
  assert (Hc : coalesce_list l1 sz l2 = [(total (l1 ++ (sz, true) :: l2), false)]).
  { rewrite total_app.
    destruct (all_free_short _ _ Hl1 Hn1) as [-> | [z1 ->]];
      destruct (all_free_short _ _ Hl2 Hn2) as [-> | [z2 ->]];
      unfold coalesce_list, merged_size;
      cbn [prev_of next_of last hd tl removelast fst snd app total];
      f_equal; f_equal; lia. }
  rewrite Hc in Hf. split; [exact Hf |].
  rewrite (heap_blocks_wf _ _ (proj1 Hf)).
  rewrite (wf_brk _ _ (proj1 Hok)). do 3 f_equal. lia.
Qed.

Lemma free_of_only_allocation_leaves_one_block_witness :
  let s' := mm_free M32 heap_hole24 40 in
  heap_ok s' [(total [(24, false); (16, true); (4056, false)], false)] /\
  heap_blocks s'
  = [(8, true); (mem_brk heap_hole24 - heap_listp heap_hole24 - 8, false)].
Proof.
  apply (free_of_only_allocation_leaves_one_block M32 M32_wide heap_hole24
           [(24, false); (16, true); (4056, false)] 40 16 heap_hole24_ok).
  reflexivity.
Defined.

(** ** The payload *)

(** The [n] bytes that [mm_malloc(n)] hands out are the caller's: on a
    heap that satisfies the invariants, whatever is stored in
    [q, q + n) after the call, the heap still satisfies the invariants
    with the same list of blocks, the code walks the same blocks, and
    the blocks that were allocated before the call still hold the bytes
    they held before it. *)
Theorem malloc_payload_is_writable
    (size_t_mod : Z) (Hwide : 4294967296 <= size_t_mod)
    (s s' : state) (bs : list block) (n q : Z) (m' : mem) :
  heap_ok s bs -> 0 < n -> n + 15 < size_t_mod ->
  mm_malloc size_t_mod s n = Some (s', At q) ->
  same_outside (heap_mem s') m' q (q + n) ->
  exists bs',
    heap_ok s' bs' /\ heap_ok (set_mem s' m') bs' /\
    heap_blocks (set_mem s' m') = heap_blocks s' /\
    forall p psz, In (p, psz) (allocs (heap_listp s + 8) bs) ->
      forall a, p - 4 <= a < p + psz - 4 -> load8 m' a = load8 (heap_mem s) a.
Proof.
  intros Hok Hn Hw Hm Hfr.
  destruct (adjust_no_wrap size_t_mod n Hn Hw) as (_ & _ & _ & Han).
  destruct (mm_malloc_heap size_t_mod Hwide s bs n Hok Hn Hw)
    as [(Hm' & _) | (s1 & q1 & bs1 & sz & Hm' & Hpost)];
    rewrite Hm' in Hm; [discriminate |].
  injection Hm as <- <-.
  destruct Hpost as [[Hwf1 Hnaf1] Hal Hfresh Hsize Hframe Hhl _ _].
  assert (Hq : In (q1, sz) (allocs (heap_listp s + 8) bs1))
    by (apply Hal; left; reflexivity).
  assert (Hq' := Hq). rewrite <- Hhl in Hq'.
  destruct (In_allocs_split _ _ _ _ Hq') as (l1 & l2 & E & Eq).
  assert (Hwf2 : heap_wf (set_mem s1 m') bs1).
  { rewrite E. rewrite E in Hwf1.
    apply (payload_write_wf s1 m' l1 l2 (sz, true) Hwf1).
    cbn [fst]. rewrite <- Eq.
    apply (same_outside_weaken _ _ _ _ _ _ Hfr); lia. }
  exists bs1. split; [split; assumption |]. split; [split; assumption |].
  split.
  - rewrite (heap_blocks_wf _ _ Hwf1), (heap_blocks_wf _ _ Hwf2). reflexivity.
  - intros p psz Hin a Ha.
    assert (Hp : In (p, psz) (allocs (heap_listp s + 8) bs1))
      by (apply Hal; right; exact Hin).
    rewrite <- Hhl in Hp, Hq.
    destruct (allocs_disjoint _ _ _ _ _ _ (wf_sizes _ _ Hwf1) Hp Hq)
      as [[= -> ->] | Hd]; [exfalso; apply (Hfresh sz); exact Hin |].
    rewrite Hfr by lia. apply (Hframe p psz Hin a Ha).
Qed.

Lemma malloc_payload_is_writable_witness :
  exists bs',
    heap_ok (place M32 heap_hole24 16 16) bs' /\
    heap_ok (set_mem (place M32 heap_hole24 16 16)
               (store8 (heap_mem (place M32 heap_hole24 16 16)) 16 255)) bs' /\
    heap_blocks (set_mem (place M32 heap_hole24 16 16)
                   (store8 (heap_mem (place M32 heap_hole24 16 16)) 16 255))
    = heap_blocks (place M32 heap_hole24 16 16) /\
    forall p psz,
      In (p, psz) (allocs (heap_listp heap_hole24 + 8)
                     [(24, false); (16, true); (4056, false)]) ->
      forall a, p - 4 <= a < p + psz - 4 ->
                load8 (store8 (heap_mem (place M32 heap_hole24 16 16)) 16 255) a
                = load8 (heap_mem heap_hole24) a.
Proof.
  apply (malloc_payload_is_writable M32 M32_wide heap_hole24 _
           [(24, false); (16, true); (4056, false)] 1 16 _ heap_hole24_ok).
  - lia.
  - unfold M32. lia.
  - exact malloc_heap_hole24.
  - intros a Ha. apply load8_store8_other. lia.
Defined.

(** ** ALIGN and the adjusted size *)

(** [ALIGN(n)] is the smallest multiple of 8 that is at least [n], as
    long as [n + 7] does not wrap [size_t]; for the seven sizes above
    that, the sum wraps and [ALIGN] gives 0. *)
Theorem ALIGN_rounds_up (size_t_mod n : Z) :
  0 <= n < size_t_mod ->
  (n + 7 < size_t_mod ->
   ALIGN size_t_mod n mod 8 = 0 /\ n <= ALIGN size_t_mod n < n + 8 /\
   (forall k, k mod 8 = 0 -> n <= k -> ALIGN size_t_mod n <= k)) /\
  (size_t_mod mod 8 = 0 -> size_t_mod <= n + 7 -> ALIGN size_t_mod n = 0).
Proof.
  intros Hn. unfold ALIGN, ALIGNMENT, wrap. rewrite land_lnot7. split.
  - intros Hw. rewrite (Z.mod_small (n + (8 - 1)) size_t_mod) by lia.
    change (8 - 1) with 7.
    split; [| split].
    + rewrite Z.mul_comm. apply Z.mod_mul. lia.
    + Z.to_euclidean_division_equations; lia.
    + intros k Hk Hle. Z.to_euclidean_division_equations; lia.
  - intros H8 Hw.
    replace (n + (8 - 1)) with (n + 7 - size_t_mod + 1 * size_t_mod) by lia.
    assert (H8' : 8 <= size_t_mod) by (Z.to_euclidean_division_equations; lia).
    rewrite Z.mod_add by lia. rewrite (Z.mod_small (n + 7 - size_t_mod)) by lia.
    Z.to_euclidean_division_equations; lia.
Qed.

Lemma ALIGN_rounds_up_witness :
  (13 + 7 < M32 ->
   ALIGN M32 13 mod 8 = 0 /\ 13 <= ALIGN M32 13 < 13 + 8 /\
   (forall k, k mod 8 = 0 -> 13 <= k -> ALIGN M32 13 <= k)) /\
  (M32 mod 8 = 0 -> M32 <= 13 + 7 -> ALIGN M32 13 = 0).
Proof.
  apply (ALIGN_rounds_up M32 13). unfold M32. lia.
Defined.

(** The adjusted size that [mm_malloc] computes for a request [n > 0]
    is [ALIGN(n + DSIZE)], wrap-around included: the macro gives 16 for
    the sizes 1 to 8 that the code treats apart, and the same multiple
    of 8 as the division in the general case. *)
Theorem adjust_is_ALIGN (size_t_mod n : Z) :
  24 <= size_t_mod -> 0 < n ->
  adjust size_t_mod n = ALIGN size_t_mod (wrap size_t_mod (n + DSIZE)).
Proof.
  intros HM Hn. unfold adjust, ALIGN, ALIGNMENT, DSIZE, wrap.
  rewrite land_lnot7.
  destruct (Z.leb_spec n 8) as [Hle | Hgt].
  - rewrite (Z.mod_small (n + 8)) by lia. rewrite Z.mod_small by lia.
    Z.to_euclidean_division_equations; lia.
  - apply Z.mod_small.
    pose proof (Z.mod_pos_bound ((n + 8) mod size_t_mod + (8 - 1)) size_t_mod
                  ltac:(lia)) as Hb.
    Z.to_euclidean_division_equations; lia.
Qed.

Lemma adjust_is_ALIGN_witness :
  adjust M32 100 = ALIGN M32 (wrap M32 (100 + DSIZE)).
Proof.
  apply (adjust_is_ALIGN M32 100); [unfold M32 |]; lia.
Defined.

(** ** extend_heap *)

Lemma extend_size_even_up (size_t_mod words : Z) :
  0 <= words -> 4 * (words + 1) < size_t_mod ->
  extend_size size_t_mod words = 4 * (words + words mod 2).
Proof.
  intros H0 Hw. unfold extend_size, wrap, WSIZE.
  destruct (Z.eqb_spec (words mod 2) 0) as [He | Ho]; cbn [negb].
  - rewrite He. rewrite Z.mod_small by lia. lia.
  - assert (H1 : words mod 2 = 1) by (Z.to_euclidean_division_equations; lia).
    rewrite H1. rewrite (Z.mod_small (words + 1)) by lia.
    rewrite Z.mod_small by lia. lia.
Qed.

(** [extend_heap(words)] on a heap that satisfies the invariants asks
    [mem_sbrk] for [words] rounded up to an even number of words.  When
    the arena has that room, the new bytes become one free block,
    merged with the last block of the heap if that one is free; the
    pointer returned is the start of that free block, which ends at the
    new break; the invariants hold, the allocated blocks are untouched,
    and nothing below that free block is written.  When the arena has
    no room, [NULL] comes back and nothing changes. *)
Theorem extend_heap_keeps_invariants
    (size_t_mod : Z) (Hwide : 4294967296 <= size_t_mod)
    (s : state) (bs : list block) (words : Z) :
  heap_ok s bs -> 4 <= words -> 4 * (words + 1) < size_t_mod ->
  let size := 4 * (words + words mod 2) in
  let tail := if snd (prev_of bs) then 0 else fst (prev_of bs) in
  if mem_brk s + size <=? mem_max_addr s then
    exists s',
      extend_heap size_t_mod s words = (s', At (mem_brk s - tail)) /\
      heap_ok s' (coalesce_list bs size []) /\
      block_at (heap_mem s') (mem_brk s - tail) (tail + size, false) /\
      mem_brk s' = mem_brk s + size /\
      allocs (heap_listp s + 8) (coalesce_list bs size [])
      = allocs (heap_listp s + 8) bs /\
      same_outside (heap_mem s) (heap_mem s') (mem_brk s - tail - 4) (mem_brk s')
  else extend_heap size_t_mod s words = (s, NULL).
Proof.
  intros [Hwf Hnaf] H4 Hw size tail.
  pose proof (extend_size_even_up size_t_mod words ltac:(lia) Hw) as Hes.
  fold size in Hes.
  destruct (Z.leb_spec (mem_brk s + size) (mem_max_addr s)) as [Hroom | Hfull].
  - set (w := words + words mod 2).
    assert (Hev : w mod 2 = 0) by (unfold w; Z.to_euclidean_division_equations; lia).
    assert (Hw4 : 4 <= w) by (unfold w; Z.to_euclidean_division_equations; lia).
    assert (Hsz : w * 4 = size) by (unfold size, w; lia).
    assert (Hes' : extend_size size_t_mod w = size).
    { rewrite (extend_size_even_up size_t_mod w).
      - rewrite Hev. unfold size, w. lia.
      - lia.
      - pose proof (wf_max _ _ Hwf) as Hm. pose proof (wf_brk _ _ Hwf) as Hb.
        pose proof (wf_base _ _ Hwf) as [Hb0 _].
        pose proof (size_ok_total _ (wf_sizes _ _ Hwf)) as [Ht _]. lia. }
    assert (Heq : extend_heap size_t_mod s words = extend_heap size_t_mod s w).
    { unfold extend_heap. rewrite Hes, Hes'. reflexivity. }
    pose proof (extend_heap_heap size_t_mod Hwide s bs w Hwf Hev Hw4 ltac:(lia)) as He.
    cbv zeta in He. rewrite Hsz in He. rewrite <- Heq in He.
    destruct (extend_heap size_t_mod s words) as [s' r'] eqn:Ee. cbn [fst snd] in He.
    destruct He as (-> & Hwf1 & Hblk & Hfr & _ & Hrn & _ & Hhp1).
    assert (Hn : merged_size size (fst (prev_of bs)) (snd (prev_of bs)) 0 true
                 = tail + size)
      by (unfold merged_size, tail; lia).
    rewrite Hn in Hblk, Hfr, Hrn.
    set (r := heap_listp s + 8
              + total (if snd (prev_of bs) then bs else removelast bs)) in *.
    assert (Hr : r = mem_brk s - tail) by lia.
    assert (Hb1 : mem_brk s' = mem_brk s + size).
    { rewrite (wf_brk _ _ Hwf1), Hhp1, coalesce_list_total, (wf_brk _ _ Hwf).
      cbn [total]. lia. }
    exists s'. rewrite <- Hr.
    split; [reflexivity |]. split; [| split; [exact Hblk | split; [exact Hb1 | split]]].
    + split; [exact Hwf1 |]. apply coalesce_list_no_adj_free; [exact Hnaf | reflexivity].
    + rewrite allocs_coalesce_list, allocs_app. cbn [allocs snd app]. apply app_nil_r.
    + replace (mem_brk s') with (r + (tail + size)) by lia. exact Hfr.
  - apply extend_heap_fails. rewrite Hes. lia.
Qed.

Lemma extend_heap_keeps_invariants_witness :
  let size := 4 * (5 + 5 mod 2) in
  let tail := if snd (prev_of [(24, false); (16, true); (4056, false)]) then 0
              else fst (prev_of [(24, false); (16, true); (4056, false)]) in
  if mem_brk heap_hole24 + size <=? mem_max_addr heap_hole24 then
    exists s',
      extend_heap M32 heap_hole24 5 = (s', At (mem_brk heap_hole24 - tail)) /\
      heap_ok s' (coalesce_list [(24, false); (16, true); (4056, false)] size []) /\
      block_at (heap_mem s') (mem_brk heap_hole24 - tail) (tail + size, false) /\
      mem_brk s' = mem_brk heap_hole24 + size /\
      allocs (heap_listp heap_hole24 + 8)
        (coalesce_list [(24, false); (16, true); (4056, false)] size [])
      = allocs (heap_listp heap_hole24 + 8) [(24, false); (16, true); (4056, false)] /\
      same_outside (heap_mem heap_hole24) (heap_mem s')
        (mem_brk heap_hole24 - tail - 4) (mem_brk s')
  else extend_heap M32 heap_hole24 5 = (heap_hole24, NULL).
Proof.
  apply (extend_heap_keeps_invariants M32 M32_wide heap_hole24
           [(24, false); (16, true); (4056, false)] 5 heap_hole24_ok).
  - lia.
  - unfold M32. lia.
Defined.

(** ** coalesce twice *)

(** [coalesce] finishes its work in one call.  On a heap whose only
    adjacent free blocks are those around the free block [bp], the heap
    satisfies all the invariants after [coalesce(bp)], and a second
    [coalesce] on the block returned changes nothing and returns the
    same pointer. *)
Theorem coalesce_is_idempotent
    (size_t_mod : Z) (Hwide : 4294967296 <= size_t_mod)
    (s : state) (l1 l2 : list block) (sz : Z) :
  heap_wf s (l1 ++ (sz, false) :: l2) ->
  no_adj_free l1 = true -> no_adj_free l2 = true ->
  let bp := heap_listp s + 8 + total l1 in
  let s' := fst (coalesce size_t_mod s bp) in
  let r := snd (coalesce size_t_mod s bp) in
  heap_ok s' (coalesce_list l1 sz l2) /\
  coalesce size_t_mod s' r = (s', r).
Proof.
  intros Hwf Hn1 Hn2 bp s' r.
  pose proof (coalesce_heap size_t_mod Hwide s l1 l2 sz Hwf) as Hc.
  cbv zeta in Hc. fold bp s' r in Hc.
  destruct Hc as (Hwf' & Hr & _ & _ & _ & _ & _ & _ & Hhl).
  pose proof (coalesce_list_no_adj_free l1 sz l2 Hn1 Hn2) as Hnaf.
  split; [split; assumption |].
  unfold coalesce_list in Hwf', Hnaf.
  set (l1' := if snd (prev_of l1) then l1 else removelast l1) in *.
  set (l2' := if snd (next_of l2) then l2 else tl l2) in *.
  set (n := merged_size sz (fst (prev_of l1)) (snd (prev_of l1))
              (fst (next_of l2)) (snd (next_of l2))) in *.
  rewrite no_adj_free_app_cons in Hnaf. cbn [snd] in Hnaf.
  rewrite orb_false_r, orb_false_l in Hnaf.
  apply andb_prop in Hnaf. destruct Hnaf as [Hnaf Hnx].
  apply andb_prop in Hnaf. destruct Hnaf as [_ Hpv].
  pose proof (heap_around _ _ _ _ Hwf') as Har.
  rewrite Hhl in Har. rewrite <- Hr in Har.
  pose proof (coalesce_spec size_t_mod Hwide s' _ _ _ _ _ _ Har)
    as (Hr' & _ & _ & Hid & _).
  rewrite Hpv in Hr'. cbn [merged_start] in Hr'.
  rewrite (surjective_pairing (coalesce size_t_mod s' r)).
  rewrite Hr', (Hid Hpv Hnx). reflexivity.
Qed.

Lemma coalesce_is_idempotent_witness :
  let bp := heap_listp heap_three_free + 8 + total [(24, false)] in
  let s' := fst (coalesce M32 heap_three_free bp) in
  let r := snd (coalesce M32 heap_three_free bp) in
  heap_ok s' (coalesce_list [(24, false)] 24 [(4048, false)]) /\
  coalesce M32 s' r = (s', r).
Proof.
  apply (coalesce_is_idempotent M32 M32_wide heap_three_free
           [(24, false)] [(4048, false)] 24 heap_three_free_wf); reflexivity.
Defined.

(** ** mm_realloc moves the block *)

(** [mm_realloc] with a live pointer and a non-zero size never resizes
    in place.  On a heap that satisfies the invariants, when it returns
    a pointer, that pointer differs from the old one; the old block is
    released and the new one, at least [n + 8] bytes long, is the only
    addition to the allocated blocks; the invariants hold; and every
    other allocated block keeps its tags and payload byte for byte. *)
Theorem realloc_moves_block
    (size_t_mod : Z) (Hwide : 4294967296 <= size_t_mod)
    (s s' : state) (bs : list block) (p psz n q : Z) :
  heap_ok s bs -> In (p, psz) (allocs (heap_listp s + 8) bs) ->
  0 < n -> n + 15 < size_t_mod ->
  mm_realloc size_t_mod s (At p) n = Some (s', At q) ->
  q <> p /\
  exists bs' sz,
    heap_ok s' bs' /\ n + 8 <= sz /\
    (forall x, In x (allocs (heap_listp s + 8) bs') <->
               x = (q, sz) \/ (In x (allocs (heap_listp s + 8) bs) /\ x <> (p, psz))) /\
    (forall o osz, In (o, osz) (allocs (heap_listp s + 8) bs) -> o <> p ->
       forall a, o - 4 <= a < o + osz - 4 ->
                 load8 (heap_mem s') a = load8 (heap_mem s) a).
Proof.
  intros Hok Hp Hn Hw Hr.
  destruct (adjust_no_wrap size_t_mod n Hn Hw) as (_ & _ & _ & Han).
  unfold mm_realloc in Hr. destruct (Z.eqb_spec n 0); [lia |].
  destruct (mm_malloc_heap size_t_mod Hwide s bs n Hok Hn Hw)
    as [(Hm & _) | (s1 & q1 & bs1 & sz & Hm & Hpost)];
    rewrite Hm in Hr; [discriminate |].
  destruct Hpost as [[Hwf1 Hnaf1] Hal Hfresh Hsize Hframe Hhl1 _ _].
  assert (Hp1 : In (p, psz) (allocs (heap_listp s1 + 8) bs1))
    by (rewrite Hhl1; apply Hal; right; exact Hp).
  assert (Hq1 : In (q1, sz) (allocs (heap_listp s1 + 8) bs1))
    by (rewrite Hhl1; apply Hal; left; reflexivity).
  assert (Hpq : q1 <> p) by (intros ->; apply (Hfresh psz); exact Hp).
  pose proof (allocs_bounds _ _ _ _ (wf_sizes _ _ Hwf1) Hp1) as (Hpl & Hpu & Hp16).
  pose proof (heap_bound _ _ Hwf1) as Hbd.
  pose proof (wf_base _ _ Hwf1) as [Hb1 _].
  destruct (allocs_disjoint _ _ _ _ _ _ (wf_sizes _ _ Hwf1) Hp1 Hq1)
    as [[= Hc _] | Hdis]; [congruence |].
  destruct (In_allocs_split _ _ _ _ Hp1) as (c1 & c2 & Ec & Epc).
  destruct (In_allocs_split _ _ _ _ Hq1) as (a1 & a2 & Ea & Eqa).
  assert (Hwf1c : heap_wf s1 (c1 ++ (psz, true) :: c2)) by (rewrite <- Ec; exact Hwf1).
  assert (Hbp : block_at (heap_mem s1) p (psz, true))
    by (rewrite Epc; apply (heap_block_at s1 c1 c2 _ Hwf1c)).
  assert (Hgs : GET_SIZE (heap_mem s1) (HDRP p) = psz).
  { apply (GET_SIZE_tag _ _ (psz, true)); [apply Hbp |].
    pose proof (wf_sizes _ _ Hwf1) as Hs. rewrite Ec in Hs.
    apply Forall_app in Hs. destruct Hs as [_ Hs].
    inversion Hs as [| ? ? [H8 _] _]; subst. exact H8. }
  set (k := Z.min n (psz - 8)).
  assert (Hk : (if n <? wrap size_t_mod (wrap32 (psz - DSIZE)) then n
                else wrap size_t_mod (wrap32 (psz - DSIZE))) = k).
  { unfold DSIZE, wrap32. rewrite (Z.mod_small (psz - 8)) by lia.
    rewrite (wrap_small size_t_mod Hwide) by lia. unfold k.
    destruct (Z.ltb_spec n (psz - 8)); lia. }
  rewrite Hgs, Hk in Hr.
  set (m2 := memcpy (heap_mem s1) q1 p k) in *.
  set (s2 := set_mem s1 m2) in *.
  injection Hr as Hs' Hq. subst q s'.
  assert (Hcp : forall a, load8 m2 a =
                          if (q1 <=? a) && (a <? q1 + k)
                          then load8 (heap_mem s1) (p + (a - q1))
                          else load8 (heap_mem s1) a).
  { intros a. unfold m2. apply memcpy_spec; unfold k; lia. }
  assert (Hfr2 : same_outside (heap_mem s1) m2 q1 (q1 + sz - 8)).
  { intros a Ha. rewrite Hcp.
    destruct (Z.leb_spec q1 a); destruct (Z.ltb_spec a (q1 + k)); cbn [andb];
      try reflexivity. unfold k in *. lia. }
  assert (Hwf2 : heap_wf s2 bs1).
  { assert (Hwf1a : heap_wf s1 (a1 ++ (sz, true) :: a2)) by (rewrite <- Ea; exact Hwf1).
    rewrite Ea. apply (payload_write_wf s1 m2 a1 a2 (sz, true) Hwf1a).
    cbn [fst]. rewrite <- Eqa. exact Hfr2. }
  assert (Hok2 : heap_ok s2 bs1) by (split; assumption).
  destruct (mm_free_post size_t_mod Hwide s2 bs1 p psz Hok2 Hp1)
    as (bs' & Hok' & Hal' & _ & _ & Hframe' & _).
  change (heap_listp s2) with (heap_listp s1) in Hal', Hframe'.
  rewrite Hhl1 in Hal', Hframe', Hp1, Hq1.
  split; [exact Hpq |]. exists bs', sz.
  split; [exact Hok' |]. split; [lia |]. split.
  - intros x. rewrite Hal', Hal. split.
    + intros [[-> | Hx] Hne]; [left; reflexivity | right; auto].
    + intros [-> | [Hx Hne]].
      * split; [left; reflexivity |]. intros [= Hc _]. contradiction.
      * split; [right; exact Hx | exact Hne].
  - intros o osz Ho Hne a Ha.
    assert (Ho1 : In (o, osz) (allocs (heap_listp s + 8) bs1))
      by (apply Hal; right; exact Ho).
    rewrite (Hframe' o osz Ho1 Hne a Ha).
    change (heap_mem s2) with m2.
    rewrite <- Hhl1 in Ho1, Hq1.
    destruct (allocs_disjoint _ _ _ _ _ _ (wf_sizes _ _ Hwf1) Ho1 Hq1)
      as [[= -> ->] | Hd]; [exfalso; apply (Hfresh sz); exact Ho |].
    rewrite Hfr2 by lia. apply (Hframe o osz Ho a Ha).
Qed.

Lemma realloc_moves_block_witness :
  exists s' q,
    mm_realloc M32 heap_hole24 (At 40) 100 = Some (s', At q) /\
    q <> 40 /\
    exists bs' sz,
      heap_ok s' bs' /\ 100 + 8 <= sz /\
      (forall x, In x (allocs (heap_listp heap_hole24 + 8) bs') <->
                 x = (q, sz) \/
                 (In x (allocs (heap_listp heap_hole24 + 8)
                          [(24, false); (16, true); (4056, false)]) /\
                  x <> (40, 16))) /\
      (forall o osz,
          In (o, osz) (allocs (heap_listp heap_hole24 + 8)
                         [(24, false); (16, true); (4056, false)]) -> o <> 40 ->
          forall a, o - 4 <= a < o + osz - 4 ->
                    load8 (heap_mem s') a = load8 (heap_mem heap_hole24) a).
Proof.
  destruct (mm_realloc M32 heap_hole24 (At 40) 100) as [[s' [| q]] |] eqn:E.
  - exfalso.
    assert (H : option_map snd (mm_realloc M32 heap_hole24 (At 40) 100)
                = Some (At 56)) by (vm_compute; reflexivity).
    rewrite E in H. discriminate.
  - exists s', q. split; [reflexivity |].
    apply (realloc_moves_block M32 M32_wide heap_hole24 s'
             [(24, false); (16, true); (4056, false)] 40 16 100 q heap_hole24_ok).
    + vm_compute. left. reflexivity.
    + lia.
    + unfold M32. lia.
    + exact E.
  - exfalso.
    assert (H : option_map snd (mm_realloc M32 heap_hole24 (At 40) 100)
                = Some (At 56)) by (vm_compute; reflexivity).
    rewrite E in H. discriminate.
Defined.

(** ** mm_malloc as a function on the list of blocks *)

Lemma Forall_removelast {A : Type} (P : A -> Prop) (l : list A) :
  Forall P l -> Forall P (removelast l).
Proof.
  induction 1 as [| x r Hx Hr IH]; [constructor |].
  destruct r as [| y r']; [constructor |].
  change (removelast (x :: y :: r')) with (x :: removelast (y :: r')).
  constructor; assumption.
Qed.

(** [mm_malloc] carves its block from the low end of the first free
    block that fits, in address order, of the heap, or of the heap
    after the extension when none fits: every block before it is
    allocated or too small, the block handed out starts where that free
    block started, what [place] leaves of it stays free right above,
    and every other block of the list is as it was. *)
Theorem malloc_carves_first_fit
    (size_t_mod : Z) (Hwide : 4294967296 <= size_t_mod)
    (s s' : state) (bs : list block) (n q : Z) :
  heap_ok s bs -> 0 < n -> n + 15 < size_t_mod ->
  mm_malloc size_t_mod s n = Some (s', At q) ->
  let asize := adjust size_t_mod n in
  exists l1 csize l2,
    malloc_source size_t_mod s bs n = l1 ++ (csize, false) :: l2 /\
    q = heap_listp s + 8 + total l1 /\
    asize <= csize /\ Forall (no_fit asize) l1 /\
    heap_ok s' (l1 ++ placed csize asize ++ l2).
Proof.
  intros Hok Hn Hw Hm asize.
  destruct (adjust_no_wrap size_t_mod n Hn Hw) as (_ & Ha8 & Ha16 & Han).
  fold asize in Ha8, Ha16, Han.
  unfold malloc_source. fold asize.
  destruct (first_fit (heap_listp s + 8) bs asize) as [| q'] eqn:Hff.
  - destruct (Z.le_gt_cases (mem_brk s + Z.max asize 4096) (mem_max_addr s))
      as [Hroom | Hfull].
    + pose proof (mm_malloc_grow_eq size_t_mod Hwide s bs n Hok Hn Hw Hff Hroom) as Hg.
      cbv zeta in Hg. fold asize in Hg.
      destruct Hg as (s1 & Hm' & Hok1 & Hcl & Hhl & _ & _ & Hle).
      rewrite Hm' in Hm. injection Hm as <- <-.
      rewrite MAX_max. change CHUNKSIZE with 4096. rewrite Hcl.
      eexists _, _, []. split; [reflexivity |]. split; [reflexivity |].
      split; [exact Hle |]. split.
      * pose proof (first_fit_none _ _ _ Hff) as Hnf.
        destruct (snd (prev_of bs)); [exact Hnf | apply Forall_removelast, Hnf].
      * destruct Hok1 as [Hwf1 Hnaf1].
        pose proof (place_heap size_t_mod Hwide s1 _ [] _ asize Hwf1 Ha8 ltac:(lia))
          as Hp.
        cbv zeta in Hp. rewrite Hhl in Hp. destruct Hp as (Hwf' & _).
        split; [exact Hwf' | apply placed_no_adj_free, Hnaf1].
    + exfalso.
      destruct (extend_size_chunk size_t_mod Hwide asize Ha8 ltac:(lia))
        as (_ & _ & _ & Hes).
      unfold mm_malloc in Hm. destruct (Z.eqb_spec n 0); [lia |].
      rewrite (find_fit_heap s _ _ (proj1 Hok)) in Hm. fold asize in Hm.
      rewrite Hff in Hm.
      rewrite extend_heap_fails in Hm by (rewrite Hes; lia). discriminate.
  - rewrite (mm_malloc_fit_eq size_t_mod s bs n q' (proj1 Hok) ltac:(lia) Hff) in Hm.
    injection Hm as <- <-. fold asize.
    destruct (first_fit_found _ _ _ _ Hff)
      as (l1 & [csize al] & l2 & E & Eq & Hf & Ha & Hnf).
    cbn [fst snd] in Hf, Ha. subst al.
    exists l1, csize, l2. split; [exact E |]. split; [exact Eq |].
    split; [exact Ha |]. split; [exact Hnf |].
    rewrite E in Hok. destruct Hok as [Hwf Hnaf].
    pose proof (place_heap size_t_mod Hwide s l1 l2 csize asize Hwf Ha8 ltac:(lia)) as Hp.
    cbv zeta in Hp. rewrite <- Eq in Hp. destruct Hp as (Hwf' & _).
    split; [exact Hwf' | apply placed_no_adj_free, Hnaf].
Qed.

Lemma malloc_carves_first_fit_witness :
  let asize := adjust M32 1 in
  exists l1 csize l2,
    malloc_source M32 heap_hole24 [(24, false); (16, true); (4056, false)] 1
    = l1 ++ (csize, false) :: l2 /\
    16 = heap_listp heap_hole24 + 8 + total l1 /\
    asize <= csize /\ Forall (no_fit asize) l1 /\
    heap_ok (place M32 heap_hole24 16 16) (l1 ++ placed csize asize ++ l2).
Proof.
  apply (malloc_carves_first_fit M32 M32_wide heap_hole24 _
           [(24, false); (16, true); (4056, false)] 1 16 heap_hole24_ok).
  - lia.
  - unfold M32. lia.
  - exact malloc_heap_hole24.
Defined.

(** ** Every state of a well-behaved run *)

Lemma public_call_ok (size_t_mod : Z) (s s' : state) (bs : list block) :
  4294967296 <= size_t_mod ->
  heap_ok s bs -> public_call size_t_mod s bs s' ->
  exists bs', heap_ok s' bs'.
Proof.
  intros Hwide Hok Hcall.
  destruct Hcall as [n s' r Hn Hw Hm | p psz Hin | p n s' r Hp Hn Hw Hr].
  - destruct (Z.eq_dec n 0) as [-> | Hne].
    + injection Hm as <- _. eauto.
    + destruct (mm_malloc_heap size_t_mod Hwide s bs n Hok ltac:(lia) Hw)
        as [(Hm' & _) | (s1 & q & bs1 & sz & Hm' & Hpost)];
        rewrite Hm' in Hm; injection Hm as <- _; [eauto |].
      exists bs1. apply Hpost.
  - destruct (mm_free_post size_t_mod Hwide s bs p psz Hok Hin) as (bs' & H & _).
    eauto.
  - destruct Hp as [-> | (a & psz & -> & Hin)].
    + cbn [mm_realloc] in Hr. destruct (Z.eq_dec n 0) as [-> | Hne].
      * injection Hr as <- _. eauto.
      * destruct (mm_malloc_heap size_t_mod Hwide s bs n Hok ltac:(lia) Hw)
          as [(Hm' & _) | (s1 & q & bs1 & sz & Hm' & Hpost)];
          rewrite Hm' in Hr; injection Hr as <- _; [eauto |].
        exists bs1. apply Hpost.
    + destruct (Z.eq_dec n 0) as [-> | Hne].
      * cbn in Hr. injection Hr as <- _.
        destruct (mm_free_post size_t_mod Hwide s bs a psz Hok Hin) as (bs' & H & _).
        eauto.
      * destruct (mm_realloc_heap size_t_mod Hwide s bs a psz n Hok Hin
                    ltac:(lia) Hw) as [Hr' | (s1 & q & bs1 & Hr' & Hok1 & _)];
          rewrite Hr' in Hr; injection Hr as <- _; eauto.
Qed.

(** In every state of a run that keeps to the interface, from
    [mm_init] on, through any number of calls and of stores into live
    payloads, the blocks the code walks from [heap_listp] satisfy all
    the invariants: matching boundary tags, sizes that are multiples of
    8 and at least 16, prologue and epilogue in place, no two adjacent
    free blocks; and [heap_listp] and the break are 8-byte aligned. *)
Theorem heap_always_consistent
    (size_t_mod : Z) (Hwide : 4294967296 <= size_t_mod) (s : state) :
  well_used size_t_mod s ->
  heap_ok s (tl (heap_blocks s)) /\
  no_adj_free (heap_blocks s) = true /\
  aligned s.
Proof.
  intros Hrun.
  assert (Hgoal : exists bs, heap_ok s bs).
  { induction Hrun as [s H0 H8 Hmax | s s' _ IH Hcall | s p psz m' _ IH Hin Hfr].
    - destruct (mm_init_heap size_t_mod Hwide s H0 H8 Hmax) as (_ & Hok & _). eauto.
    - destruct IH as (bs & Hok).
      rewrite (heap_blocks_wf _ _ (proj1 Hok)) in Hcall. cbn [tl] in Hcall.
      apply (public_call_ok size_t_mod s s' bs Hwide Hok Hcall).
    - destruct IH as (bs & [Hwf Hnaf]).
      rewrite (heap_blocks_wf _ _ Hwf) in Hin. cbn [tl] in Hin.
      destruct (In_allocs_split _ _ _ _ Hin) as (l1 & l2 & E & Ep).
      exists bs. split; [| exact Hnaf]. rewrite E. rewrite E in Hwf.
      apply (payload_write_wf s m' l1 l2 (psz, true) Hwf).
      cbn [fst]. rewrite <- Ep. exact Hfr. }
  destruct Hgoal as (bs & Hok).
  rewrite (heap_blocks_wf _ _ (proj1 Hok)). cbn [tl].
  split; [exact Hok |]. split.
  - rewrite <- (heap_blocks_wf _ _ (proj1 Hok)). apply (heap_ok_walk _ _ Hok).
  - destruct Hok as [Hwf _]. pose proof (wf_base _ _ Hwf) as [_ Hb].
    pose proof (size_ok_total _ (wf_sizes _ _ Hwf)) as [_ Ht].
    split; [exact Hb |]. rewrite (wf_brk _ _ Hwf).
    Z.to_euclidean_division_equations; lia.
Qed.

Lemma heap_always_consistent_witness :
  heap_ok (place M32 heap_init 16 112)
    (tl (heap_blocks (place M32 heap_init 16 112))) /\
  no_adj_free (heap_blocks (place M32 heap_init 16 112)) = true /\
  aligned (place M32 heap_init 16 112).
Proof.
  apply (heap_always_consistent M32 M32_wide).
  apply (used_call M32 heap_init).
  - apply (used_init M32 arena0).
    + vm_compute. discriminate.
    + reflexivity.
    + split; vm_compute; [discriminate | reflexivity].
  - apply (call_malloc M32 heap_init _ 100 _ (At 16)).
    + lia.
    + unfold M32. lia.
    + unfold mm_malloc. change (100 =? 0) with false. cbv iota.
      change (adjust M32 100) with 112.
      replace (find_fit heap_init 112) with (Some (At 16)) by (vm_compute; reflexivity).
      reflexivity.
Defined.

(** ** The block handed out lies inside the heap *)

(** The block that [mm_malloc] hands out lies inside the heap: its
    header is above the prologue, its [n] payload bytes and its footer
    are below the epilogue header, which is the last word under the
    break, and the break is within the arena. *)
Theorem malloc_block_inside_heap
    (size_t_mod : Z) (Hwide : 4294967296 <= size_t_mod)
    (s s' : state) (bs : list block) (n q : Z) :
  heap_ok s bs -> 0 < n -> n + 15 < size_t_mod ->
  mm_malloc size_t_mod s n = Some (s', At q) ->
  heap_listp s' + 8 <= q /\ q + n + 4 <= mem_brk s' - 4 /\
  mem_brk s' <= mem_max_addr s' /\
  GET (heap_mem s') (mem_brk s' - 4) = PACK 0 1.
Proof.
  intros Hok Hn Hw Hm.
  destruct (adjust_no_wrap size_t_mod n Hn Hw) as (_ & _ & _ & Han).
  destruct (mm_malloc_heap size_t_mod Hwide s bs n Hok Hn Hw)
    as [(Hm' & _) | (s1 & q1 & bs1 & sz & Hm' & Hpost)];
    rewrite Hm' in Hm; [discriminate |].
  injection Hm as <- <-.
  destruct Hpost as [[Hwf1 _] Hal _ Hsize _ Hhl _ _].
  assert (Hq : In (q1, sz) (allocs (heap_listp s1 + 8) bs1))
    by (rewrite Hhl; apply Hal; left; reflexivity).
  pose proof (allocs_bounds _ _ _ _ (wf_sizes _ _ Hwf1) Hq) as (Hlo & Hhi & _).
  pose proof (wf_brk _ _ Hwf1) as Hb. pose proof (wf_max _ _ Hwf1) as [Hmx _].
  pose proof (wf_epilogue _ _ Hwf1) as He. rewrite <- Hb in He.
  split; [lia |]. split; [lia |]. split; [exact Hmx |]. exact He.
Qed.

Lemma malloc_block_inside_heap_witness :
  heap_listp (place M32 heap_hole24 16 16) + 8 <= 16 /\
  16 + 1 + 4 <= mem_brk (place M32 heap_hole24 16 16) - 4 /\
  mem_brk (place M32 heap_hole24 16 16) <= mem_max_addr (place M32 heap_hole24 16 16) /\
  GET (heap_mem (place M32 heap_hole24 16 16))
      (mem_brk (place M32 heap_hole24 16 16) - 4) = PACK 0 1.
Proof.
  apply (malloc_block_inside_heap M32 M32_wide heap_hole24 _
           [(24, false); (16, true); (4056, false)] 1 16 heap_hole24_ok).
  - lia.
  - unfold M32. lia.
  - exact malloc_heap_hole24.
Defined.

(** ** Where the calls write *)

Lemma extend_heap_fields (size_t_mod : Z) (s : state) (words : Z) :
  let s' := fst (extend_heap size_t_mod s words) in
  mem_max_addr s' = mem_max_addr s /\ heap_listp s' = heap_listp s /\
  (mem_brk s' = mem_brk s \/
   (mem_brk s' = mem_brk s + extend_size size_t_mod words /\
    mem_brk s' <= mem_max_addr s)).
Proof.
  unfold extend_heap, mem_sbrk.
  destruct (Z.leb_spec (mem_brk s + extend_size size_t_mod words) (mem_max_addr s))
    as [Hle | Hgt].
  - cbn [heap_mem mem_brk mem_max_addr heap_listp].
    match goal with |- context [coalesce ?a ?b ?c] =>
      pose proof (coalesce_fields a b c) as Hc;
      destruct (coalesce a b c) as [s2 r] end.
    cbn [fst snd] in *. destruct Hc as (Hb & Hm & Hl).
    cbn [set_mem heap_mem mem_brk mem_max_addr heap_listp] in *.
    split; [exact Hm |]. split; [exact Hl |]. right. lia.
  - cbn [fst]. auto.
Qed.

Lemma mm_malloc_fields (size_t_mod : Z) (s s' : state) (n : Z) (r : ptr) :
  0 < size_t_mod ->
  mm_malloc size_t_mod s n = Some (s', r) ->
  mem_brk s <= mem_brk s' /\
  (mem_brk s <= mem_max_addr s -> mem_brk s' <= mem_max_addr s') /\
  mem_max_addr s' = mem_max_addr s /\ heap_listp s' = heap_listp s.
Proof.
  intros Hpos. unfold mm_malloc. destruct (n =? 0).
  - intros [= <- _]. repeat split; auto; lia.
  - destruct (find_fit s _) as [[| bp] |]; [| | discriminate].
    + set (words := MAX (adjust size_t_mod n) CHUNKSIZE / WSIZE).
      pose proof (extend_heap_fields size_t_mod s words) as He. cbv zeta in He.
      assert (H0 : 0 <= extend_size size_t_mod words).
      { unfold extend_size, wrap. destruct (negb _); apply Z.mod_pos_bound; lia. }
      destruct (extend_heap size_t_mod s words) as [s1 [| bp]]; cbn [fst] in He;
        destruct He as (Hm & Hl & Hb).
      * intros [= <- _]. repeat split; auto; lia.
      * intros [= <- _].
        pose proof (place_fields size_t_mod s1 bp (adjust size_t_mod n)) as Hp.
        cbv zeta in Hp. destruct Hp as (Hb' & Hm' & Hl').
        rewrite Hb', Hm', Hl'. repeat split; auto; lia.
    + intros [= <- _].
      pose proof (place_fields size_t_mod s bp (adjust size_t_mod n)) as Hp.
      cbv zeta in Hp. destruct Hp as (Hb' & Hm' & Hl').
      rewrite Hb', Hm', Hl'. repeat split; auto; lia.
Qed.

Lemma mm_realloc_fields (size_t_mod : Z) (s s' : state) (p : ptr) (n : Z) (r : ptr) :
  0 < size_t_mod ->
  mm_realloc size_t_mod s p n = Some (s', r) ->
  mem_brk s <= mem_brk s' /\
  (mem_brk s <= mem_max_addr s -> mem_brk s' <= mem_max_addr s') /\
  mem_max_addr s' = mem_max_addr s /\ heap_listp s' = heap_listp s.
Proof.
  intros Hpos Hr. unfold mm_realloc in Hr. destruct p as [| old].
  - apply (mm_malloc_fields size_t_mod s s' n r Hpos Hr).
  - destruct (n =? 0).
    + injection Hr as <- _.
      destruct (mm_free_fields size_t_mod s old) as (-> & -> & ->).
      repeat split; auto; lia.
    + destruct (mm_malloc size_t_mod s n) as [[s1 [| q]] |] eqn:Hm;
        [| | discriminate].
      * injection Hr as <- _. apply (mm_malloc_fields size_t_mod s s1 n _ Hpos Hm).
      * injection Hr as <- _.
        pose proof (mm_malloc_fields size_t_mod s s1 n _ Hpos Hm)
          as (H1 & H2 & H3 & H4).
        match goal with |- context [mm_free _ ?t ?x] =>
          destruct (mm_free_fields size_t_mod t x) as (-> & -> & ->) end.
        cbn [set_mem mem_brk mem_max_addr heap_listp]. auto.
Qed.

Section Frames.

Variable size_t_mod : Z.
Hypothesis size_t_wide : 4294967296 <= size_t_mod.

(** [mm_free] of a live block writes between the first block's header
    and the epilogue. *)
Lemma mm_free_inside (s : state) (bs : list block) (p sz : Z) :
  heap_ok s bs -> In (p, sz) (allocs (heap_listp s + 8) bs) ->
  same_outside (heap_mem s) (heap_mem (mm_free size_t_mod s p))
    (heap_listp s + 4) (mem_brk s).
Proof.
  intros [Hwf _] Hin.
  destruct (In_allocs_split _ _ _ _ Hin) as (l1 & l2 & E & Ep). subst bs.
  pose proof (mm_free_heap size_t_mod size_t_wide s l1 l2 sz Hwf) as Hf.
  cbv zeta in Hf. rewrite <- Ep in Hf.
  destruct Hf as (Hwf1 & _ & Hfr & _ & _ & Hhl & _).
  pose proof (wf_sizes _ _ Hwf1) as Hs. unfold coalesce_list in Hs.
  apply Forall_app in Hs. destruct Hs as [Hs1 Hs2].
  inversion Hs2 as [| ? ? _ Hs3]; subst.
  pose proof (size_ok_total _ Hs1) as [Ht1 _].
  pose proof (size_ok_total _ Hs3) as [Ht3 _].
  pose proof (coalesce_list_total l1 sz l2) as Ht. unfold coalesce_list in Ht.
  rewrite total_app in Ht. cbn [total fst] in Ht.
  pose proof (wf_brk _ _ Hwf) as Hb. rewrite total_app in Hb. cbn [total fst] in Hb.
  apply (same_outside_weaken _ _ _ _ _ _ Hfr); lia.
Qed.

(** [mm_malloc] writes between the first block's header and the new
    break. *)
Lemma mm_malloc_inside (s s' : state) (bs : list block) (n : Z) (r : ptr) :
  heap_ok s bs -> 0 < n -> n + 15 < size_t_mod ->
  mm_malloc size_t_mod s n = Some (s', r) ->
  same_outside (heap_mem s) (heap_mem s') (heap_listp s + 4) (mem_brk s').
Proof.
  intros Hok Hn Hw Hm.
  destruct r as [| q].
  { rewrite (mm_malloc_NULL _ _ _ _ Hm). apply same_outside_refl. }
  destruct (adjust_no_wrap size_t_mod n Hn Hw) as (_ & Ha8 & Ha16 & Han).
  set (asize := adjust size_t_mod n) in *.
  destruct Hok as [Hwf Hnaf].
  destruct (first_fit (heap_listp s + 8) bs asize) as [| q'] eqn:Hff.
  - destruct (Z.le_gt_cases (mem_brk s + Z.max asize 4096) (mem_max_addr s))
      as [Hroom | Hfull].
    + destruct (extend_size_chunk size_t_mod size_t_wide asize Ha8 ltac:(lia))
        as (Hev & Hw4 & Hws & Hes).
      set (words := MAX asize CHUNKSIZE / WSIZE) in *.
      pose proof (extend_heap_heap size_t_mod size_t_wide s bs words Hwf Hev Hw4
                    ltac:(lia)) as He.
      cbv zeta in He. rewrite Hws in He.
      set (size := Z.max asize 4096) in *.
      set (l1 := if snd (prev_of bs) then bs else removelast bs) in *.
      set (x := heap_listp s + 8 + total l1) in *.
      set (csize := merged_size size (fst (prev_of bs)) (snd (prev_of bs)) 0 true) in *.
      destruct (extend_heap size_t_mod s words) as [s1 r1] eqn:Ee. cbn [fst snd] in He.
      destruct He as (-> & Hwf1 & _ & Hfr1 & Hle & Hrn & _ & Hhp1).
      assert (Hcl : coalesce_list bs size [] = l1 ++ (csize, false) :: [])
        by reflexivity.
      rewrite Hcl in Hwf1.
      pose proof (place_heap size_t_mod size_t_wide s1 l1 [] csize asize Hwf1 Ha8
                    ltac:(lia)) as Hp.
      cbv zeta in Hp. rewrite Hhp1 in Hp. fold x in Hp.
      destruct Hp as (_ & Hfr & _ & _ & Hbk).
      unfold mm_malloc in Hm. destruct (Z.eqb_spec n 0); [lia |].
      rewrite (find_fit_heap s _ _ Hwf) in Hm. fold asize in Hm. rewrite Hff in Hm.
      fold words in Hm. rewrite Ee in Hm. injection Hm as <- <-.
      pose proof (wf_brk _ _ Hwf1) as Hb1. rewrite Hhp1, total_app in Hb1.
      cbn [total fst] in Hb1. fold x in Hb1.
      pose proof (wf_sizes _ _ Hwf1) as Hs1. apply Forall_app in Hs1.
      destruct Hs1 as [Hsl1 _]. pose proof (size_ok_total _ Hsl1) as [Ht1 _].
      rewrite Hbk.
      apply (same_outside_trans _ (heap_mem s1)).
      * apply (same_outside_weaken _ _ _ _ _ _ Hfr1); unfold x; lia.
      * apply (same_outside_weaken _ _ _ _ _ _ Hfr); unfold x; lia.
    + exfalso.
      destruct (extend_size_chunk size_t_mod size_t_wide asize Ha8 ltac:(lia))
        as (_ & _ & _ & Hes).
      unfold mm_malloc in Hm. destruct (Z.eqb_spec n 0); [lia |].
      rewrite (find_fit_heap s _ _ Hwf) in Hm. fold asize in Hm. rewrite Hff in Hm.
      rewrite extend_heap_fails in Hm by (rewrite Hes; lia). discriminate.
  - rewrite (mm_malloc_fit_eq size_t_mod s bs n q' Hwf ltac:(lia) Hff) in Hm.
    injection Hm as <- <-. fold asize.
    destruct (first_fit_found _ _ _ _ Hff)
      as (l1 & [csize al] & l2 & E & Eq & Hf & Ha & _).
    cbn [fst snd] in Hf, Ha. subst al. rewrite E in Hwf.
    pose proof (place_heap size_t_mod size_t_wide s l1 l2 csize asize Hwf Ha8
                  ltac:(lia)) as Hp.
    cbv zeta in Hp. rewrite <- Eq in Hp. destruct Hp as (_ & Hfr & _ & _ & Hbk).
    pose proof (wf_brk _ _ Hwf) as Hb. rewrite total_app in Hb. cbn [total fst] in Hb.
    pose proof (wf_sizes _ _ Hwf) as Hs. apply Forall_app in Hs.
    destruct Hs as [Hs1 Hs2]. inversion Hs2 as [| ? ? _ Hs3]; subst x l.
    pose proof (size_ok_total _ Hs1) as [Ht1 _].
    pose proof (size_ok_total _ Hs3) as [Ht3 _].
    rewrite Hbk. apply (same_outside_weaken _ _ _ _ _ _ Hfr); lia.
Qed.

(** [mm_realloc] of a live block writes between the first block's header
    and the new break: the fresh block's tags, the copy into its
    payload, and the tags of the block released. *)
Lemma mm_realloc_inside (s s' : state) (bs : list block) (p psz n : Z) (r : ptr) :
  heap_ok s bs -> In (p, psz) (allocs (heap_listp s + 8) bs) ->
  0 < n -> n + 15 < size_t_mod ->
  mm_realloc size_t_mod s (At p) n = Some (s', r) ->
  same_outside (heap_mem s) (heap_mem s') (heap_listp s + 4) (mem_brk s').
Proof.
  intros Hok Hp Hn Hw Hr.
  destruct (adjust_no_wrap size_t_mod n Hn Hw) as (_ & _ & _ & Han).
  unfold mm_realloc in Hr. destruct (Z.eqb_spec n 0); [lia |].
  destruct (mm_malloc_heap size_t_mod size_t_wide s bs n Hok Hn Hw)
    as [(Hm & _) | (s1 & q1 & bs1 & sz & Hm & Hpost)]; rewrite Hm in Hr.
  { injection Hr as <- _. apply same_outside_refl. }
  pose proof (mm_malloc_inside s s1 bs n (At q1) Hok Hn Hw Hm) as Hin1.
  destruct Hpost as [[Hwf1 Hnaf1] Hal Hfresh Hsize Hframe Hhl1 _ _].
  assert (Hp1 : In (p, psz) (allocs (heap_listp s1 + 8) bs1))
    by (rewrite Hhl1; apply Hal; right; exact Hp).
  assert (Hq1 : In (q1, sz) (allocs (heap_listp s1 + 8) bs1))
    by (rewrite Hhl1; apply Hal; left; reflexivity).
  assert (Hpq : q1 <> p) by (intros ->; apply (Hfresh psz); exact Hp).
  pose proof (allocs_bounds _ _ _ _ (wf_sizes _ _ Hwf1) Hp1) as (Hpl & Hpu & Hp16).
  pose proof (allocs_bounds _ _ _ _ (wf_sizes _ _ Hwf1) Hq1) as (Hql & Hqu & Hq16).
  pose proof (heap_bound _ _ Hwf1) as Hbd.
  pose proof (wf_base _ _ Hwf1) as [Hb1 _].
  pose proof (wf_brk _ _ Hwf1) as Hbrk1.
  destruct (allocs_disjoint _ _ _ _ _ _ (wf_sizes _ _ Hwf1) Hp1 Hq1)
    as [[= Hc _] | Hdis]; [congruence |].
  destruct (In_allocs_split _ _ _ _ Hp1) as (c1 & c2 & Ec & Epc).
  destruct (In_allocs_split _ _ _ _ Hq1) as (a1 & a2 & Ea & Eqa).
  assert (Hwf1c : heap_wf s1 (c1 ++ (psz, true) :: c2)) by (rewrite <- Ec; exact Hwf1).
  assert (Hbp : block_at (heap_mem s1) p (psz, true))
    by (rewrite Epc; apply (heap_block_at s1 c1 c2 _ Hwf1c)).
  assert (Hgs : GET_SIZE (heap_mem s1) (HDRP p) = psz).
  { apply (GET_SIZE_tag _ _ (psz, true)); [apply Hbp |].
    pose proof (wf_sizes _ _ Hwf1) as Hs. rewrite Ec in Hs.
    apply Forall_app in Hs. destruct Hs as [_ Hs].
    inversion Hs as [| ? ? [H8 _] _]; subst. exact H8. }
  set (k := Z.min n (psz - 8)).
  assert (Hk : (if n <? wrap size_t_mod (wrap32 (psz - DSIZE)) then n
                else wrap size_t_mod (wrap32 (psz - DSIZE))) = k).
  { unfold DSIZE, wrap32. rewrite (Z.mod_small (psz - 8)) by lia.
    rewrite (wrap_small size_t_mod size_t_wide) by lia. unfold k.
    destruct (Z.ltb_spec n (psz - 8)); lia. }
  rewrite Hgs, Hk in Hr.
  set (m2 := memcpy (heap_mem s1) q1 p k) in *.
  set (s2 := set_mem s1 m2) in *.
  injection Hr as Hs' _. subst s'.
  assert (Hcp : forall a, load8 m2 a =
                          if (q1 <=? a) && (a <? q1 + k)
                          then load8 (heap_mem s1) (p + (a - q1))
                          else load8 (heap_mem s1) a).
  { intros a. unfold m2. apply memcpy_spec; unfold k; lia. }
  assert (Hfr2 : same_outside (heap_mem s1) m2 q1 (q1 + sz - 8)).
  { intros a Ha. rewrite Hcp.
    destruct (Z.leb_spec q1 a); destruct (Z.ltb_spec a (q1 + k)); cbn [andb];
      try reflexivity. unfold k in *. lia. }
  assert (Hwf2 : heap_wf s2 bs1).
  { assert (Hwf1a : heap_wf s1 (a1 ++ (sz, true) :: a2)) by (rewrite <- Ea; exact Hwf1).
    rewrite Ea. apply (payload_write_wf s1 m2 a1 a2 (sz, true) Hwf1a).
    cbn [fst]. rewrite <- Eqa. exact Hfr2. }
  assert (Hok2 : heap_ok s2 bs1) by (split; assumption).
  pose proof (mm_free_inside s2 bs1 p psz Hok2 Hp1) as Hin3.
  change (heap_listp s2) with (heap_listp s1) in Hin3.
  change (mem_brk s2) with (mem_brk s1) in Hin3.
  change (heap_mem s2) with m2 in Hin3.
  assert (Hbk : mem_brk (mm_free size_t_mod s2 p) = mem_brk s1)
    by (apply (mm_free_fields size_t_mod s2 p)).
  rewrite Hbk. rewrite Hhl1 in *.
  apply (same_outside_trans _ (heap_mem s1)); [exact Hin1 |].
  apply (same_outside_trans _ m2); [| exact Hin3].
  apply (same_outside_weaken _ _ _ _ _ _ Hfr2); lia.
Qed.

End Frames.

(** On a heap that satisfies the invariants, a call that keeps to the
    interface (see [public_call]) stores only inside the heap: no byte
    below the header of the first block, the padding and the prologue
    included, and no byte at or above the break the call leaves, is
    changed.  The break does not go down and stays within the arena,
    and [heap_listp] and the arena's limit are what they were. *)
Theorem calls_write_only_inside_heap
    (size_t_mod : Z) (Hwide : 4294967296 <= size_t_mod)
    (s s' : state) (bs : list block) :
  heap_ok s bs -> public_call size_t_mod s bs s' ->
  same_outside (heap_mem s) (heap_mem s') (heap_listp s + 4) (mem_brk s') /\
  mem_brk s <= mem_brk s' <= mem_max_addr s' /\
  heap_listp s' = heap_listp s /\ mem_max_addr s' = mem_max_addr s.
Proof.
  intros Hok Hcall.
  assert (Hpos : 0 < size_t_mod) by lia.
  pose proof (wf_max _ _ (proj1 Hok)) as [Hmx _].
  assert (Hfields : mem_brk s <= mem_brk s' <= mem_max_addr s' /\
                    heap_listp s' = heap_listp s /\ mem_max_addr s' = mem_max_addr s).
  { destruct Hcall as [n s' r Hn Hw Hm | p psz Hin | p n s' r Hp Hn Hw Hr].
    - destruct (mm_malloc_fields size_t_mod s s' n r Hpos Hm) as (H1 & H2 & H3 & H4).
      auto.
    - destruct (mm_free_fields size_t_mod s p) as (-> & -> & ->). auto with zarith.
    - destruct (mm_realloc_fields size_t_mod s s' p n r Hpos Hr) as (H1 & H2 & H3 & H4).
      auto. }
  split; [| exact Hfields].
  destruct Hcall as [n s' r Hn Hw Hm | p psz Hin | p n s' r Hp Hn Hw Hr].
  - destruct (Z.eq_dec n 0) as [-> | Hne].
    + injection Hm as <- _. apply same_outside_refl.
    + apply (mm_malloc_inside size_t_mod Hwide s s' bs n r Hok ltac:(lia) Hw Hm).
  - destruct (mm_free_fields size_t_mod s p) as (-> & _).
    apply (mm_free_inside size_t_mod Hwide s bs p psz Hok Hin).
  - destruct Hp as [-> | (a & psz & -> & Hin)].
    + cbn [mm_realloc] in Hr. destruct (Z.eq_dec n 0) as [-> | Hne].
      * injection Hr as <- _. apply same_outside_refl.
      * apply (mm_malloc_inside size_t_mod Hwide s s' bs n r Hok ltac:(lia) Hw Hr).
    + destruct (Z.eq_dec n 0) as [-> | Hne].
      * cbn in Hr. injection Hr as <- _.
        destruct (mm_free_fields size_t_mod s a) as (-> & _).
        apply (mm_free_inside size_t_mod Hwide s bs a psz Hok Hin).
      * apply (mm_realloc_inside size_t_mod Hwide s s' bs a psz n r Hok Hin
                 ltac:(lia) Hw Hr).
Qed.

Lemma calls_write_only_inside_heap_witness :
  let s' := mm_free M32 heap_hole24 40 in
  same_outside (heap_mem heap_hole24) (heap_mem s')
    (heap_listp heap_hole24 + 4) (mem_brk s') /\
  mem_brk heap_hole24 <= mem_brk s' <= mem_max_addr s' /\
  heap_listp s' = heap_listp heap_hole24 /\
  mem_max_addr s' = mem_max_addr heap_hole24.
Proof.
  apply (calls_write_only_inside_heap M32 M32_wide heap_hole24 _
           [(24, false); (16, true); (4056, false)] heap_hole24_ok).
  apply (call_free M32 heap_hole24 _ 40 16).
  vm_compute. left. reflexivity.
Defined.
